(** * mgbdis: a shallow embedding of the per-bank disassembly engine

    The definitions below follow [src/mgbdis.py]: the region map of a bank
    ([Bank.add_block], [Bank.resolve_blocks]), label resolution, the
    instruction decoder ([Bank.disassemble_at_pc]), the region processors
    ([Bank.process_code_in_range], [Bank.process_data_in_range],
    [Bank.process_text_in_range]), the walk over a whole bank
    ([Bank.disassemble]) and the label part of [ROM.add_symbol_definition].

    Python integers are modelled by [Z], [dict]s by [gmap], [set]s by [gset],
    the byte string [rom.data] by a [list Z] indexed from 0, and every
    operation that can raise ([KeyError], [IndexError]) or abort returns an
    [option]. *)

From Stdlib Require Import ZArith Lia Ascii String.
From stdpp Require Import gmap strings list list_numbers sorting fin_maps.

Open Scope string_scope.
Open Scope Z_scope.

(** ** Text formatting helpers *)

Definition hex_digit (d : Z) : string :=
  match String.get (Z.to_nat d) "0123456789abcdef" with
  | Some c => String c EmptyString
  | None => "?"
  end.

Fixpoint hex_digits (fuel : nat) (v : Z) : string :=
  match fuel with
  | O => hex_digit (v `mod` 16)
  | S fuel' =>
      if v <? 16 then hex_digit v
      else hex_digits fuel' (v `div` 16) +:+ hex_digit (v `mod` 16)
  end.

Fixpoint zeros (n : nat) : string :=
  match n with O => "" | S n' => "0" +:+ zeros n' end.

(** [format_hex w v] is Python's ['{:0wx}'.format(v)]: lower-case hexadecimal,
    zero-padded to [w] characters, the sign counting towards the width. *)
Definition format_hex (w : nat) (v : Z) : string :=
  let digits := hex_digits (Z.to_nat (Z.log2 (Z.abs v))) (Z.abs v) in
  if v <? 0
  then "-" +:+ zeros (Nat.pred w - String.length digits) +:+ digits
  else zeros (w - String.length digits) +:+ digits.

Definition hex_word (value : Z) : string := "$" +:+ format_hex 4 value.
Definition hex_byte (value : Z) : string := "$" +:+ format_hex 2 value.

(** Python's [sep.join(parts)]. *)
Fixpoint join (sep : string) (parts : list string) : string :=
  match parts with
  | [] => ""
  | [p] => p
  | p :: rest => p +:+ sep +:+ join sep rest
  end.

Definition rom_address_to_mem_address (address : Z) : Z :=
  if address <? 0x4000 then address else (address `mod` 0x4000) + 0x4000.

Definition to_signed (value : Z) : Z :=
  if value >? 127 then (256 - value) * -1 else value.

(** ** Data model *)

Inductive block_type := Code | Data | Text.

#[global] Instance block_type_eq_dec : EqDecision block_type.
Proof. solve_decision. Defined.

(** A block is the dictionary [{'type': ..., 'length': ...}]. *)
Record Block := mkBlock { blk_type : block_type; blk_length : Z }.

#[global] Instance Block_eq_dec : EqDecision Block.
Proof. solve_decision. Defined.

Record Bank := mkBank {
  bank_number : Z;
  blocks : gmap Z Block;
  disassembled_addresses : gset Z;
  labelled_addresses : gmap Z string;
  memory_base_address : Z;
  rom_base_address : Z;
  target_addresses : gmap string (gset Z);
  first_pass : bool;
  output : list string;
  pc : Z
}.

Definition set_blocks (bk : gmap Z Block) (b : Bank) : Bank :=
  mkBank (bank_number b) bk (disassembled_addresses b) (labelled_addresses b)
    (memory_base_address b) (rom_base_address b) (target_addresses b)
    (first_pass b) (output b) (pc b).

Definition set_disassembled_addresses (s : gset Z) (b : Bank) : Bank :=
  mkBank (bank_number b) (blocks b) s (labelled_addresses b)
    (memory_base_address b) (rom_base_address b) (target_addresses b)
    (first_pass b) (output b) (pc b).

Definition set_labelled_addresses (m : gmap Z string) (b : Bank) : Bank :=
  mkBank (bank_number b) (blocks b) (disassembled_addresses b) m
    (memory_base_address b) (rom_base_address b) (target_addresses b)
    (first_pass b) (output b) (pc b).

Definition set_target_addresses (t : gmap string (gset Z)) (b : Bank) : Bank :=
  mkBank (bank_number b) (blocks b) (disassembled_addresses b)
    (labelled_addresses b) (memory_base_address b) (rom_base_address b) t
    (first_pass b) (output b) (pc b).

Definition set_first_pass (f : bool) (b : Bank) : Bank :=
  mkBank (bank_number b) (blocks b) (disassembled_addresses b)
    (labelled_addresses b) (memory_base_address b) (rom_base_address b)
    (target_addresses b) f (output b) (pc b).

Definition set_output (o : list string) (b : Bank) : Bank :=
  mkBank (bank_number b) (blocks b) (disassembled_addresses b)
    (labelled_addresses b) (memory_base_address b) (rom_base_address b)
    (target_addresses b) (first_pass b) o (pc b).

Definition set_pc (p : Z) (b : Bank) : Bank :=
  mkBank (bank_number b) (blocks b) (disassembled_addresses b)
    (labelled_addresses b) (memory_base_address b) (rom_base_address b)
    (target_addresses b) (first_pass b) (output b) p.

(** ** Region map *)

(** [Bank.add_block]: the hint is stored under its start address, provided
    the address is not below the bank's memory base. *)
Definition add_block (b : Bank) (address : Z) (bt : block_type) (len : Z) : Bank :=
  if address >=? memory_base_address b
  then set_blocks (<[address := mkBlock bt len]> (blocks b)) b
  else b.

(** [Bank.__init__]. The attributes [first_pass], [output] and [pc], which
    the source creates later, start at neutral values. *)
Definition Bank_init (number : Z) : Bank :=
  let base := if number =? 0 then 0 else 0x4000 in
  let rom_base := if number =? 0 then 0 else (number - 1) * 0x4000 in
  add_block
    (mkBank number ∅ ∅ ∅ base rom_base
       (<["call" := ∅]> (<["jp" := ∅]> (<["jr" := ∅]> ∅)))
       false [] 0)
    base Code 0x4000.

(** [sorted(d.keys())] for a dictionary keyed by integers. *)
Definition sorted_keys {A} (d : gmap Z A) : list Z :=
  merge_sort Z.le (map_to_list d).*1.

(** The [for index in range(len(block_start_addresses))] loop of
    [Bank.resolve_blocks]. The list argument is the suffix
    [block_start_addresses[index:]], so that its head is
    [block_start_addresses[index]] and the head of its tail, when there is
    one, is [block_start_addresses[index + 1]]. A missing key in
    [self.blocks] is Python's [KeyError]. *)
Fixpoint resolve_loop (blks : gmap Z Block) (base : Z) (starts : list Z)
    (resolved_blocks : gmap Z Block) : option (gmap Z Block) :=
  match starts with
  | [] => Some resolved_blocks
  | start_address :: rest =>
      match blks !! start_address with
      | None => None
      | Some block =>
          let end_address := start_address + blk_length block in
          let next_start_address := head rest in
          let end_address :=
            match next_start_address with
            | Some next => if next <? end_address then next else end_address
            | None => end_address
            end in
          let resolved_blocks :=
            <[start_address := mkBlock (blk_type block) (end_address - start_address)]>
              resolved_blocks in
          let resolved_blocks :=
            match next_start_address with
            | None =>
                if negb (end_address =? base + 0x4000)
                then <[end_address := mkBlock Code ((base + 0x4000) - end_address)]>
                       resolved_blocks
                else resolved_blocks
            | Some _ => resolved_blocks
            end in
          let resolved_blocks :=
            match next_start_address with
            | Some next =>
                if end_address <? next
                then <[end_address := mkBlock Code (next - end_address)]> resolved_blocks
                else resolved_blocks
            | None => resolved_blocks
            end in
          resolve_loop blks base rest resolved_blocks
      end
  end.

(** [Bank.resolve_blocks]. *)
Definition resolve_blocks (b : Bank) : option Bank :=
  resolved ← resolve_loop (blocks b) (memory_base_address b)
                (sorted_keys (blocks b)) ∅;
  Some (set_blocks resolved b).

(** The regions in the order in which [Bank.disassemble] walks them:
    [sorted(self.blocks.keys())], each paired with its block. *)
Definition region_list (b : Bank) : list (Z * Block) :=
  omap (λ start, (λ blk, (start, blk)) <$> blocks b !! start)
       (sorted_keys (blocks b)).

Definition region_start (r : Z * Block) : Z := r.1.
Definition region_end (r : Z * Block) : Z := r.1 + blk_length r.2.

(** ** Labels *)

Definition hardware_labels : gmap Z string :=
  list_to_map
    [ (0xFF00, "rP1"); (0xFF01, "rSB"); (0xFF02, "rSC"); (0xFF04, "rDIV");
      (0xFF05, "rTIMA"); (0xFF06, "rTMA"); (0xFF07, "rTAC"); (0xFF0F, "rIF");
      (0xFF40, "rLCDC"); (0xFF41, "rSTAT"); (0xFF42, "rSCY"); (0xFF43, "rSCX");
      (0xFF44, "rLY"); (0xFF45, "rLYC"); (0xFF46, "rDMA"); (0xFF47, "rBGP");
      (0xFF48, "rOBP0"); (0xFF49, "rOBP1"); (0xFF4A, "rWY"); (0xFF4B, "rWX");
      (0xFF4D, "rKEY1"); (0xFF4F, "rVBK"); (0xFF51, "rHDMA1");
      (0xFF52, "rHDMA2"); (0xFF53, "rHDMA3"); (0xFF54, "rHDMA4");
      (0xFF55, "rHDMA5"); (0xFF56, "rRP"); (0xFF68, "rBCPS"); (0xFF69, "rBCPD");
      (0xFF6A, "rOCPS"); (0xFF6B, "rOCPD"); (0xFF70, "rSVBK"); (0xFFFF, "rIE");
      (0xFF24, "rNR50"); (0xFF25, "rNR51"); (0xFF26, "rNR52"); (0xFF10, "rNR10");
      (0xFF11, "rNR11"); (0xFF12, "rNR12"); (0xFF13, "rNR13"); (0xFF14, "rNR14");
      (0xFF16, "rNR21"); (0xFF17, "rNR22"); (0xFF18, "rNR23"); (0xFF19, "rNR24");
      (0xFF1A, "rNR30"); (0xFF1B, "rNR31"); (0xFF1C, "rNR32"); (0xFF1D, "rNR33");
      (0xFF1E, "rNR34"); (0xFF20, "rNR41"); (0xFF21, "rNR42"); (0xFF22, "rNR43");
      (0xFF23, "rNR44") ].

(** [self.instruction_label_prefixes]. *)
Definition instruction_label_prefixes : gmap string string :=
  <["call" := "Call"]> (<["jp" := "Jump"]> (<["jr" := "jr"]> ∅)).

(** [Bank.add_label]; an [instruction_name] that is no key of
    [self.target_addresses] is a [KeyError]. *)
Definition add_label (b : Bank) (instruction_name : string) (address : Z)
    : option Bank :=
  match target_addresses b !! instruction_name with
  | None => None
  | Some targets =>
      Some (if decide (address ∈ targets) then b
            else set_target_addresses
                   (<[instruction_name := {[address]} ∪ targets]> (target_addresses b)) b)
  end.

(** [Bank.format_label]: ['{0}_{1:03x}_{2:04x}']. *)
Definition format_label (b : Bank) (instruction_name : string) (address : Z)
    : option string :=
  prefix ← instruction_label_prefixes !! instruction_name;
  Some (prefix +:+ "_" +:+ format_hex 3 (bank_number b) +:+ "_" +:+ format_hex 4 address).

(** [Bank.get_label_for_instruction_operand]. The outer [option] is a raised
    exception, the inner one Python's [None]. *)
Definition get_label_for_instruction_operand (b : Bank)
    (instruction_name : string) (address : Z) : option (option string) :=
  if decide (address ∈ disassembled_addresses b) then
    match labelled_addresses b !! address with
    | Some label => Some (Some label)
    | None =>
        match target_addresses b !! instruction_name with
        | None => None
        | Some targets =>
            if decide (address ∈ targets)
            then label ← format_label b instruction_name address; Some (Some label)
            else Some None
        end
    end
  else Some None.

(** The text appended for an explicit label: [':'] after a local label
    (one starting with a dot), ['::'] otherwise. Indexing an empty label
    with [[0]] raises. *)
Definition explicit_label_line (label : string) : option string :=
  match label with
  | EmptyString => None
  | String c _ =>
      Some (if Ascii.eqb c "."%char then label +:+ ":" else label +:+ "::")
  end.

(** [Bank.get_labels_for_non_code_address]. *)
Definition get_labels_for_non_code_address (b : Bank) (address : Z)
    : option (list string) :=
  match labelled_addresses b !! address with
  | Some label => line ← explicit_label_line label; Some [line]
  | None => Some []
  end.

(** The [for instruction_name in ['call', 'jp', 'jr']] loop of
    [Bank.get_labels_for_address]. *)
Fixpoint generated_labels (b : Bank) (names : list string) (address : Z)
    (labels : list string) : option (list string) :=
  match names with
  | [] => Some labels
  | instruction_name :: rest =>
      match target_addresses b !! instruction_name with
      | None => None
      | Some targets =>
          if decide (address ∈ targets)
          then label ← format_label b instruction_name address;
               generated_labels b rest address (labels ++ [label +:+ ":"])
          else generated_labels b rest address labels
      end
  end.

(** [Bank.get_labels_for_address]. *)
Definition get_labels_for_address (b : Bank) (address : Z) : option (list string) :=
  match labelled_addresses b !! address with
  | Some label => line ← explicit_label_line label; Some [line]
  | None => generated_labels b ["call"; "jp"; "jr"] address []
  end.

(** ** Output *)

(** [Bank.format_instruction]; the commented variant is behind [if False]. *)
Definition format_instruction (instruction_name : string) (operands : list string)
    : string :=
  "    " +:+ instruction_name +:+ " " +:+ join ", " operands.

Definition format_data (values : list string) : string :=
  format_instruction "DB" values.

Definition append_output (out : list string) (line : string) : list string :=
  out ++ [line].

Definition append_empty_line_if_none_already (out : list string) : list string :=
  match last out with
  | Some l => if (l =? "")%string then out else append_output out ""
  | None => out
  end.

Definition newline : string := String (ascii_of_nat 10) EmptyString.

Definition append_labels_to_output (out : list string) (labels : list string)
    : list string :=
  append_output (append_empty_line_if_none_already out) (join newline labels).

(** ** The ROM *)

(** [banks] is the dictionary [rom.banks] as [ROM.add_symbol_definition]
    reads and writes it. The bank that is being disassembled is passed to
    the functions below on its own and returned with its changes; its entry
    in [banks] is not kept in step with it, and no function of the decoder
    reads [banks]. *)
Record ROM := mkROM {
  data : list Z;
  instruction_names : gmap Z string;
  instruction_operands : gmap Z (list string);
  cb_instruction_name : gmap Z string;
  cb_instruction_operands : gmap Z (list string);
  has_ld_long : bool;
  banks : gmap Z Bank
}.

Definition set_has_ld_long (f : bool) (rom : ROM) : ROM :=
  mkROM (data rom) (instruction_names rom) (instruction_operands rom)
    (cb_instruction_name rom) (cb_instruction_operands rom) f (banks rom).

Definition set_banks (bs : gmap Z Bank) (rom : ROM) : ROM :=
  mkROM (data rom) (instruction_names rom) (instruction_operands rom)
    (cb_instruction_name rom) (cb_instruction_operands rom) (has_ld_long rom) bs.

(** [d[i]] on a Python [bytes] object: a negative index counts from the end,
    an index out of range raises [IndexError]. *)
Definition byte_at (d : list Z) (i : Z) : option Z :=
  if i <? 0
  then if - i <=? Z.of_nat (length d)
       then d !! Z.to_nat (Z.of_nat (length d) + i) else None
  else d !! Z.to_nat i.

(** [rom.data[pc + 1] + rom.data[pc + 2] * 256]. *)
Definition word_at (d : list Z) (pc : Z) : option Z :=
  lo ← byte_at d (pc + 1); hi ← byte_at d (pc + 2); Some (lo + hi * 256).

(** The label part of [ROM.add_symbol_definition] (its [else] branch, once
    the text of the definition has been split into bank, address and label):
    a label at a RAM address is written into every bank, any other into the
    named bank only. *)
Definition add_symbol_label (rom : ROM) (bank address : Z) (label : string)
    : option ROM :=
  if address >=? 0x8000
  then Some (set_banks
               ((λ b, set_labelled_addresses
                        (<[address := label]> (labelled_addresses b)) b)
                  <$> banks rom) rom)
  else b ← banks rom !! bank;
       Some (set_banks
               (<[bank := set_labelled_addresses
                            (<[address := label]> (labelled_addresses b)) b]>
                  (banks rom)) rom).

(** ** Instruction decoder *)

(** The local variables [length], [instruction_name] and [operand_values]
    of [Bank.disassemble_at_pc]. *)
Record Decoding := mkDecoding {
  len : Z;
  instruction_name : string;
  operand_values : list string
}.

(** [operand_values.pop()]: the list without its last element; popping an
    empty list raises. *)
Definition pop (l : list string) : option (list string) :=
  match l with
  | [] => None
  | _ => Some (removelast l)
  end.

Definition is_branch_name (name : string) : bool :=
  bool_decide (name ∈ ["jr"; "jp"; "call"]).

(** The [if operand == ...: ... elif ...] chain of the operand loop
    (source lines 401-496). The result is the updated locals, the local
    [value], the ROM (whose [has_ld_long] may have been set) and whether the
    loop was left by [break]. Operands are strings (they come from
    [str.split]), so the final [else] of the chain is never reached and the
    plain-string branch is the default. *)
Definition decode_operand (rom : ROM) (number pc opcode : Z) (operand : string)
    (st : Decoding) : option (Decoding * option Z * ROM * bool) :=
  let '(mkDecoding length name values) := st in
  if (operand =? "a16")%string then
    value ← word_at (data rom) pc;
    Some (mkDecoding (length + 2) name (values ++ [hex_word value]),
          Some value, rom, false)
  else if (operand =? "[a16]")%string then
    value ← word_at (data rom) pc;
    if (value >=? 0xff00) && ((opcode =? 0xea) || (opcode =? 0xfa))
    then
      values' ← pop (values ++ ["[" +:+ hex_word value +:+ "]"]);
      Some (mkDecoding (length + 2) "ld_long" (values' ++ [hex_word value]),
            Some value, set_has_ld_long true rom, false)
    else
      Some (mkDecoding (length + 2) name (values ++ ["[" +:+ hex_word value +:+ "]"]),
            Some value, rom, false)
  else if (operand =? "[$ff00+a8]")%string then
    value ← byte_at (data rom) (pc + 1);
    let full_value := 0xff00 + value in
    Some (mkDecoding (length + 1) name
            (values ++ [match hardware_labels !! full_value with
                        | Some hw => "[" +:+ hw +:+ "]"
                        | None => "[$ff00+" +:+ hex_byte value +:+ "]"
                        end]),
          Some value, rom, false)
  else if (operand =? "d8")%string then
    value ← byte_at (data rom) (pc + 1);
    Some (mkDecoding (length + 1) name (values ++ [hex_byte value]),
          Some value, rom, false)
  else if (operand =? "d16")%string then
    value ← word_at (data rom) pc;
    Some (mkDecoding (length + 2) name (values ++ [hex_word value]),
          Some value, rom, false)
  else if (operand =? "r8")%string then
    byte ← byte_at (data rom) (pc + 1);
    let value := to_signed byte in
    Some (mkDecoding (length + 1) name
            (values ++ [if value <? 0 then "-" +:+ hex_byte (Z.abs value)
                        else hex_byte value]),
          Some value, rom, false)
  else if (operand =? "pc+r8")%string then
    byte ← byte_at (data rom) (pc + 1);
    let value := pc + 2 + to_signed byte in
    let relative_value := value - pc in
    let values :=
      (values ++ [if relative_value >=? 0 then "@+" +:+ hex_byte relative_value
                  else "@-" +:+ hex_byte (relative_value * -1)])%list in
    let target_bank := value `div` 0x4000 in
    let value := rom_address_to_mem_address value in
    let value := if negb (number =? target_bank) then None else Some value in
    if target_bank <? number
    then Some (mkDecoding (length + 1) "DB" [hex_byte opcode; hex_byte byte],
               value, rom, true)
    else Some (mkDecoding (length + 1) name values, value, rom, false)
  else if (operand =? "sp+r8")%string then
    byte ← byte_at (data rom) (pc + 1);
    let value := to_signed byte in
    Some (mkDecoding (length + 1) name
            (values ++ [if value <? 0 then "sp-" +:+ hex_byte (Z.abs value)
                        else "sp+" +:+ hex_byte value]),
          Some value, rom, false)
  else
    Some (mkDecoding length name (values ++ [operand]), None, rom, false).

(** The label part of the operand loop (source lines 499-523): in the first
    pass a branch target is recorded, in the second pass the operand text
    just appended is replaced by a label when one resolves. *)
Definition resolve_operand_label (b : Bank) (st : Decoding) (value : option Z)
    : option (Bank * Decoding) :=
  let '(mkDecoding length name values) := st in
  match value with
  | None => Some (b, st)
  | Some value =>
      if is_branch_name name && (value <? 0x8000) then
        let mem_address := rom_address_to_mem_address value in
        if ((mem_address <? 0x4000) && (bank_number b =? 0))
           || ((mem_address >=? 0x4000) && (bank_number b >? 0))
        then
          if first_pass b then
            b' ← add_label b name mem_address; Some (b', st)
          else
            label ← get_label_for_instruction_operand b name mem_address;
            match label with
            | Some label =>
                values' ← pop values;
                Some (b, mkDecoding length name (values' ++ [label]))
            | None => Some (b, st)
            end
        else Some (b, st)
      else if value >=? 0xc000 then
        match labelled_addresses b !! value with
        | Some label =>
            operand ← last values;
            values' ← pop values;
            let new_operand :=
              if String.prefix "[" operand then "[" +:+ label +:+ "]" else label in
            Some (b, mkDecoding length name (values' ++ [new_operand]))
        | None => Some (b, st)
        end
      else Some (b, st)
  end.

(** One iteration of [for operand in operands]. *)
Definition process_operand (rom : ROM) (b : Bank) (pc opcode : Z)
    (operand : string) (st : Decoding) : option (ROM * Bank * Decoding * bool) :=
  '(st1, value, rom1, brk) ← decode_operand rom (bank_number b) pc opcode operand st;
  if brk : bool then Some (rom1, b, st1, true)
  else '(b1, st2) ← resolve_operand_label b st1 value;
       Some (rom1, b1, st2, false).

(** The loop [for operand in operands]. *)
Fixpoint process_operands (rom : ROM) (b : Bank) (pc opcode : Z)
    (operands : list string) (st : Decoding) : option (ROM * Bank * Decoding) :=
  match operands with
  | [] => Some (rom, b, st)
  | operand :: rest =>
      '(rom1, b1, st1, brk) ← process_operand rom b pc opcode operand st;
      if brk : bool then Some (rom1, b1, st1)
      else process_operands rom1 b1 pc opcode rest st1
  end.

(** Opcode lookup (source lines 366-385): the opcode byte, the initial
    length and the table entry. An opcode missing from the table aborts the
    run. [rom.instruction_names] has the keys of [instructions], from which
    [ROM.split_instructions] builds it. *)
Definition fetch (rom : ROM) (pc : Z) : option (Z * Decoding * list string) :=
  opcode ← byte_at (data rom) pc;
  if decide (instruction_names rom !! opcode = None) then None
  else if opcode =? 0xCB then
    cb_opcode ← byte_at (data rom) (pc + 1);
    name ← cb_instruction_name rom !! cb_opcode;
    operands ← cb_instruction_operands rom !! cb_opcode;
    Some (opcode, mkDecoding 2 name [], operands)
  else
    name ← instruction_names rom !! opcode;
    operands ← instruction_operands rom !! opcode;
    Some (opcode, mkDecoding 1 name [], operands).

(** The [stop]/[halt] rule (source lines 388-396). *)
Definition stop_halt (rom : ROM) (pc opcode : Z) (st : Decoding)
    (operands : list string) : option (Decoding * list string) :=
  if (instruction_name st =? "stop")%string || (instruction_name st =? "halt")%string
  then
    next ← byte_at (data rom) (pc + 1);
    if next =? 0x00
    then Some (mkDecoding (len st + 1) (instruction_name st) (operand_values st),
               operands)
    else Some (mkDecoding (len st) "DB" (operand_values st), [hex_byte opcode])
  else Some (st, operands).

(** The decoded form of the instruction at [self.pc], as it stands when the
    operand loop is left (source lines 366-523). *)
Definition decode (rom : ROM) (b : Bank) : option (ROM * Bank * Z * Decoding) :=
  '(opcode, st, operands) ← fetch rom (pc b);
  '(st, operands) ← stop_halt rom (pc b) opcode st operands;
  '(rom, b, st) ← process_operands rom b (pc b) opcode operands st;
  Some (rom, b, opcode, st).

(** The check against the end of the region (source lines 526-531). *)
Definition check_span (pc end_address opcode : Z) (st : Decoding) : Decoding :=
  if pc + len st - 1 >=? end_address
  then mkDecoding 1 "DB" [hex_byte opcode]
  else st.

(** The blank lines after returns and jumps (source lines 548-560). *)
Definition separator_lines (st : Decoding) : list string :=
  if bool_decide (instruction_name st ∈ ["ret"; "reti"; "jr"; "jp"]) then
    if (instruction_name st =? "jr")%string
       || ((instruction_name st =? "jp")%string
           && bool_decide (1 < length (operand_values st))%nat)
       || ((instruction_name st =? "ret")%string
           && bool_decide (0 < length (operand_values st))%nat)
    then [""]
    else [""; ""]
  else [].

(** The tail of [Bank.disassemble_at_pc] (source lines 533-560): advance
    [self.pc]; in the first pass record the instruction start, otherwise
    write the labels of the address, the instruction and the separators. *)
Definition finish (b : Bank) (st : Decoding) : option Bank :=
  let pc_mem_address := rom_address_to_mem_address (pc b) in
  let b' := set_pc (pc b + len st) b in
  if first_pass b then
    Some (set_disassembled_addresses
            ({[pc_mem_address]} ∪ disassembled_addresses b') b')
  else
    labels ← get_labels_for_address b' pc_mem_address;
    let out := match labels with
               | [] => output b'
               | _ => append_labels_to_output (output b') labels
               end in
    let out := append_output out
                 (format_instruction (instruction_name st) (operand_values st)) in
    Some (set_output (out ++ separator_lines st)%list b').

(** [Bank.disassemble_at_pc]. The bank is returned rather than updated in
    place; the ROM comes back with its [has_ld_long] flag. *)
Definition disassemble_at_pc (rom : ROM) (b : Bank) (end_address : Z)
    : option (ROM * Bank) :=
  '(rom', b', opcode, st) ← decode rom b;
  b'' ← finish b' (check_span (pc b) end_address opcode st);
  Some (rom', b'').

(** ** Data regions *)

(** The body of the loop of [Bank.process_data_in_range], on the pair of
    [self.output] and the local [values]. *)
Definition data_step (rom : ROM) (b : Bank) (end_address : Z)
    (acc : list string * list string) (address : Z)
    : option (list string * list string) :=
  let '(out, values) := acc in
  let mem_address := rom_address_to_mem_address address in
  labels ← get_labels_for_non_code_address b mem_address;
  let '(out, values) :=
    match labels with
    | [] => (out, values)
    | _ =>
        let '(out, values) :=
          if bool_decide (0 < length values)%nat
          then (append_output out (format_data values), [])
          else (out, values) in
        (append_labels_to_output out labels, values)
    end in
  byte ← byte_at (data rom) address;
  let values := (values ++ [hex_byte byte])%list in
  if bool_decide (length values = 16%nat)
     || ((address =? end_address - 1) && bool_decide (0 < length values)%nat)
  then Some (append_output out (format_data values), [])
  else Some (out, values).

(** [for address in range(start_address, end_address)]. *)
Fixpoint data_loop (rom : ROM) (b : Bank) (end_address : Z)
    (addresses : list Z) (acc : list string * list string)
    : option (list string * list string) :=
  match addresses with
  | [] => Some acc
  | address :: rest =>
      acc' ← data_step rom b end_address acc address;
      data_loop rom b end_address rest acc'
  end.

(** [Bank.process_data_in_range]. *)
Definition process_data_in_range (rom : ROM) (b : Bank)
    (start_address end_address : Z) : option Bank :=
  '(out, _) ← data_loop rom b end_address
                 (seqZ start_address (end_address - start_address)) (output b, []);
  Some (set_output out b).

(** ** Text regions *)

(** The double-quote character of ['"{}"'.format(text)]. *)
Definition quote : string := String (ascii_of_nat 34) EmptyString.

Definition quoted (text : string) : string := quote +:+ text +:+ quote.

(** [chr(byte)] for a byte of the printable range. *)
Definition chr (byte : Z) : string := String (ascii_of_nat (Z.to_nat byte)) EmptyString.

(** The body of the loop of [Bank.process_text_in_range], on
    [self.output] and the locals [values] and [text]. *)
Definition text_step (rom : ROM) (b : Bank)
    (acc : list string * list string * string) (address : Z)
    : option (list string * list string * string) :=
  let '(out, values, text) := acc in
  let mem_address := rom_address_to_mem_address address in
  labels ← get_labels_for_non_code_address b mem_address;
  let '(out, values, text) :=
    match labels with
    | [] => (out, values, text)
    | _ =>
        let '(values, text) :=
          if bool_decide (0 < String.length text)%nat
          then ((values ++ [quoted text])%list, "")
          else (values, text) in
        let '(out, values) :=
          if bool_decide (0 < length values)%nat
          then (append_output out (format_data values), [])
          else (out, values) in
        (append_labels_to_output out labels, values, text)
    end in
  byte ← byte_at (data rom) address;
  if (byte >=? 0x20) && (byte <? 0x7F)
  then Some (out, values, text +:+ chr byte)
  else
    let values :=
      if bool_decide (0 < String.length text)%nat
      then (values ++ [quoted text])%list else values in
    Some (out, (values ++ [hex_byte byte])%list, "").

(** [for address in range(start_address, end_address)]. *)
Fixpoint text_loop (rom : ROM) (b : Bank) (addresses : list Z)
    (acc : list string * list string * string)
    : option (list string * list string * string) :=
  match addresses with
  | [] => Some acc
  | address :: rest =>
      acc' ← text_step rom b acc address;
      text_loop rom b rest acc'
  end.

(** [Bank.process_text_in_range]. *)
Definition process_text_in_range (rom : ROM) (b : Bank)
    (start_address end_address : Z) : option Bank :=
  '(out, values, text) ← text_loop rom b
                 (seqZ start_address (end_address - start_address)) (output b, [], "");
  let values :=
    if bool_decide (0 < String.length text)%nat
    then (values ++ [quoted text])%list else values in
  let out :=
    if bool_decide (0 < length values)%nat
    then append_output out (format_data values) else out in
  Some (set_output out b).

(** ** Code regions *)

(** The loop [while self.pc < end_address] of [Bank.process_code_in_range].
    Every iteration moves [self.pc] forward, so [end_address - start_address]
    iterations are enough; [fuel] bounds their number, and the loop stops
    where it is when the bound is reached. *)
Fixpoint code_loop (fuel : nat) (rom : ROM) (b : Bank) (end_address : Z)
    : option (ROM * Bank) :=
  if pc b <? end_address then
    match fuel with
    | O => Some (rom, b)
    | S fuel' =>
        '(rom', b') ← disassemble_at_pc rom b end_address;
        code_loop fuel' rom' b' end_address
    end
  else Some (rom, b).

(** [Bank.process_code_in_range]. *)
Definition process_code_in_range (rom : ROM) (b : Bank)
    (start_address end_address : Z) : option (ROM * Bank) :=
  code_loop (Z.to_nat (end_address - start_address)) rom
    (set_pc start_address b) end_address.

(** ** A whole bank *)

(** The first line of a bank's output. *)
Definition section_header (number : Z) : string :=
  if number =? 0
  then "SECTION " +:+ quote +:+ "ROM Bank $" +:+ format_hex 3 number +:+ quote
       +:+ ", ROM0[$0]"
  else "SECTION " +:+ quote +:+ "ROM Bank $" +:+ format_hex 3 number +:+ quote
       +:+ ", ROMX[$4000], BANK[$" +:+ format_hex 0 number +:+ "]".

(** [self.disassemble_block_range[block['type']](rom, start, end)]. *)
Definition disassemble_block_range (bt : block_type) (rom : ROM) (b : Bank)
    (start_address end_address : Z) : option (ROM * Bank) :=
  match bt with
  | Code => process_code_in_range rom b start_address end_address
  | Data => b' ← process_data_in_range rom b start_address end_address; Some (rom, b')
  | Text => b' ← process_text_in_range rom b start_address end_address; Some (rom, b')
  end.

(** The loop over [block_start_addresses] in [Bank.disassemble]. *)
Fixpoint disassemble_blocks (starts : list Z) (rom : ROM) (b : Bank)
    : option (ROM * Bank) :=
  match starts with
  | [] => Some (rom, b)
  | start_address :: rest =>
      match blocks b !! start_address with
      | None => None
      | Some block =>
          let end_address := start_address + blk_length block in
          '(rom', b') ← disassemble_block_range (blk_type block) rom b
                          (rom_base_address b + start_address)
                          (rom_base_address b + end_address);
          disassemble_blocks rest rom'
            (set_output (append_empty_line_if_none_already (output b')) b')
      end
  end.

(** [Bank.disassemble]: the ROM and the bank as the call leaves them, and
    the text it returns. *)
Definition disassemble (rom : ROM) (b : Bank) (pass1 : bool)
    : option (ROM * Bank * string) :=
  let b := set_first_pass pass1 b in
  b ← (if pass1 then resolve_blocks b else Some b);
  let b := set_output [] b in
  let b := set_output (append_output (output b) (section_header (bank_number b))) b in
  let b := set_output (append_output (output b) "") b in
  '(rom', b') ← disassemble_blocks (sorted_keys (blocks b)) rom b;
  Some (rom', b', join newline (output b')).

(** ** Sample data *)

(** An excerpt of the opcode table of the architecture, split into names
    and operand lists the way [ROM.split_instructions] stores them. *)
Definition sample_names : gmap Z string :=
  list_to_map
    [ (0x00, "nop"); (0x08, "ld"); (0x10, "stop"); (0x18, "jr"); (0x20, "jr");
      (0x21, "ld"); (0x3E, "ld"); (0x76, "halt"); (0xC3, "jp"); (0xC9, "ret");
      (0xCB, "CB"); (0xCD, "call"); (0xE0, "ldh"); (0xEA, "ld"); (0xFA, "ld") ].

Definition sample_operands : gmap Z (list string) :=
  list_to_map
    [ (0x00, []); (0x08, ["[a16]"; "sp"]); (0x10, []); (0x18, ["pc+r8"]);
      (0x20, ["nz"; "pc+r8"]); (0x21, ["hl"; "d16"]); (0x3E, ["a"; "d8"]);
      (0x76, []); (0xC3, ["a16"]); (0xC9, []); (0xCB, []); (0xCD, ["a16"]);
      (0xE0, ["[$ff00+a8]"; "a"]); (0xEA, ["[a16]"; "a"]); (0xFA, ["a"; "[a16]"]) ].

Definition sample_rom (bytes : list Z) : ROM :=
  mkROM bytes sample_names sample_operands ∅ ∅ false ∅.

(** The call scenario: [call $0200] at [0x0150] in bank 0. Discovery records
    the target; emission uses the generated label when [0x0200] was visited
    as an instruction start and the literal otherwise. *)
Definition call_rom : ROM :=
  sample_rom (replicate 0x150 0x00 ++ [0xCD; 0x00; 0x02] ++ replicate 0x100 0x00).

(** A bank-0 image whose header logo bytes sit in a data block, with the
    explicit label of the default symbols at [0x0104]. Nothing has been
    recorded as an instruction start. *)
Definition header_rom : ROM :=
  sample_rom (replicate 0x104 0x00 ++ [0xCE; 0xED; 0x66; 0x66] ++ [0x00; 0x00]).

Definition header_bank : Bank :=
  set_labelled_addresses {[ 0x104 := "HeaderLogo" ]} (Bank_init 0).


(** A bank of two regions, a code region of five bytes and a text region of
    two, with the image they are read from and the lines of their
    disassembly. *)
Definition two_region_rom : ROM :=
  sample_rom [0x00; 0x21; 0x00; 0xA0; 0xC9; 0x41; 0x42; 0x00; 0x00].

Definition two_region_bank : Bank :=
  set_blocks (<[0 := mkBlock Code 5]> (<[5 := mkBlock Text 2]> ∅)) (Bank_init 0).

Definition two_region_output : list string :=
  [section_header 0; ""; "    nop "; "    ld hl, $a000"; "    ret "; ""; "";
   format_data [quoted "AB"]; ""].

(** ** Vocabulary of the properties *)

(** A sequence of [add_block] calls, as [ROM.add_symbol_definition] issues
    them for the block definitions of one bank. *)
Definition add_blocks (b : Bank) (hints : list (Z * block_type * Z)) : Bank :=
  foldl (λ b '(address, bt, len), add_block b address bt len) b hints.

(** [add_block] touches no attribute of the bank but [blocks]. *)
Definition frame (b : Bank) :=
  (bank_number b, disassembled_addresses b, labelled_addresses b,
   memory_base_address b, rom_base_address b, target_addresses b,
   first_pass b, output b, pc b).

Definition covers (r : Z * Block) (a : Z) : Prop :=
  region_start r ≤ a < region_end r.

(** The region list [rs] partitions the window [base, base + 0x4000): it is
    sorted by start address, regions at different positions do not overlap,
    the addresses covered by some region are exactly those of the window,
    and no address is covered at two positions. *)
Definition partitions (base : Z) (rs : list (Z * Block)) : Prop :=
  StronglySorted (λ r1 r2, region_start r1 < region_start r2) rs
  ∧ (∀ (i j : nat) r1 r2, rs !! i = Some r1 → rs !! j = Some r2 → (i < j)%nat →
       region_end r1 ≤ region_start r2)
  ∧ (∀ a, (∃ r, r ∈ rs ∧ covers r a) ↔ base ≤ a < base + 0x4000)
  ∧ (∀ a (i j : nat) r1 r2, rs !! i = Some r1 → rs !! j = Some r2 →
       covers r1 a → covers r2 a → i = j).

(** The same facts on a block dictionary: its blocks lie in [lo, hi], cover
    [lo, hi) and are disjoint. *)
Definition tiles (lo hi : Z) (R : gmap Z Block) : Prop :=
  (∀ k blk, R !! k = Some blk → lo ≤ k ∧ 0 ≤ blk_length blk ∧ k + blk_length blk ≤ hi)
  ∧ (∀ a, lo ≤ a < hi → ∃ k blk, R !! k = Some blk ∧ k ≤ a < k + blk_length blk)
  ∧ (∀ k1 b1 k2 b2, R !! k1 = Some b1 → R !! k2 = Some b2 → k1 < k2 →
       k1 + blk_length b1 ≤ k2).

Definition keys_below (s : Z) (R : gmap Z Block) : Prop :=
  ∀ k, is_Some (R !! k) → k < s.

(** Every bank built by [Bank_init] and [add_block] calls keeps a block at
    its base address and has no block below it. *)
Definition based (b : Bank) : Prop :=
  is_Some (blocks b !! memory_base_address b)
  ∧ ∀ k, is_Some (blocks b !! k) → memory_base_address b ≤ k.

(** The operand kinds the decoder interprets; every other operand string
    (a register, a condition, a bit number) is copied to the output. *)
Definition operand_kinds : list string :=
  ["a16"; "[a16]"; "[$ff00+a8]"; "d8"; "d16"; "r8"; "pc+r8"; "sp+r8"].

Definition plain (operand : string) : Prop := operand ∉ operand_kinds.

#[global] Instance plain_dec operand : Decision (plain operand).
Proof. unfold plain. apply _. Defined.

(** Decoding an instruction changes nothing in the bank but the recorded
    branch targets. *)
Definition decode_frame (b : Bank) :=
  (bank_number b, blocks b, disassembled_addresses b, labelled_addresses b,
   memory_base_address b, rom_base_address b, first_pass b, output b, pc b).

(** The label lines of a ROM address in a data region; empty when the
    address has no explicit label. *)
Definition labels_at (b : Bank) (address : Z) : list string :=
  default [] (get_labels_for_non_code_address b (rom_address_to_mem_address address)).

(** The literal values of the [n] bytes from [address] on. *)
Definition data_values (rom : ROM) (address : Z) (n : nat) : list string :=
  hex_byte <$> omap (byte_at (data rom)) (seqZ address (Z.of_nat n)).

Definition label_lines (b : Bank) (address : Z) (out : list string) : list string :=
  match labels_at b address with
  | [] => out
  | labels => append_labels_to_output out labels
  end.

(** The output of a data region cut into lines of the given sizes: each
    line starts with the labels of its first address, if any, and lists the
    values of its bytes. *)
Fixpoint render_groups (rom : ROM) (b : Bank) (address : Z) (groups : list nat)
    (out : list string) : list string :=
  match groups with
  | [] => out
  | n :: rest =>
      render_groups rom b (address + Z.of_nat n) rest
        (append_output (label_lines b address out) (format_data (data_values rom address n)))
  end.

(** Each line holds between 1 and 16 values, and no address after the
    first of a line has a label. *)
Fixpoint groups_ok (b : Bank) (address : Z) (groups : list nat) : Prop :=
  match groups with
  | [] => True
  | n :: rest =>
      (1 ≤ n ≤ 16)%nat
      ∧ (∀ k, 0 < k < Z.of_nat n → labels_at b (address + k) = [])
      ∧ groups_ok b (address + Z.of_nat n) rest
  end.

(** The bank with one more explicit label, as [ROM.add_symbol_definition]
    leaves it. *)
Definition with_label (address : Z) (label : string) (b : Bank) : Bank :=
  set_labelled_addresses (<[address := label]> (labelled_addresses b)) b.

(** [address] is recorded as a target of the instruction [name]. *)
Definition is_target (b : Bank) (name : string) (address : Z) : Prop :=
  ∃ targets, target_addresses b !! name = Some targets ∧ address ∈ targets.

(** The three target sets of [Bank.__init__] are there. *)
Definition targets_ready (b : Bank) : Prop :=
  ∀ name, name ∈ ["call"; "jp"; "jr"] → is_Some (target_addresses b !! name).

(** The characters of a run of printable bytes. *)
Fixpoint text_of (bytes : list Z) : string :=
  match bytes with
  | [] => ""
  | byte :: rest => chr byte +:+ text_of rest
  end.

(** Reading a hexadecimal literal back, for checking the writers. *)
Definition hex_digit_value (c : ascii) : Z :=
  let n := Z.of_nat (nat_of_ascii c) in
  if (48 <=? n) && (n <=? 57) then n - 48
  else if (97 <=? n) && (n <=? 102) then n - 87
  else -1.

Fixpoint hex_value_from (s : string) (acc : Z) : Z :=
  match s with
  | EmptyString => acc
  | String c rest => hex_value_from rest (acc * 16 + hex_digit_value c)
  end.

(** The value of a literal [$x...]. *)
Definition literal_value (s : string) : Z :=
  match s with
  | String _ rest => hex_value_from rest 0
  | EmptyString => -1
  end.

(** [check] holds of the [n] numbers from [v] on. *)
Fixpoint checked_from (check : Z → bool) (n : nat) (v : Z) : bool :=
  match n with
  | O => true
  | S n' => check v && checked_from check n' (v + 1)
  end.

(** The ROM value that a step returns is the one it was given, up to
    setting the [has_ld_long] flag; the decoder neither reads nor writes the
    field [banks] (see [ROM]), so this says nothing about the banks. *)
Definition flagged (rom rom' : ROM) : Prop :=
  rom' = rom ∨ rom' = set_has_ld_long true rom.

(** The attributes of a bank that neither pass changes while decoding. *)
Definition settings (b : Bank) :=
  (bank_number b, blocks b, labelled_addresses b, memory_base_address b,
   rom_base_address b, first_pass b).

(** What every region processor keeps of a bank: its settings, its output
    as a prefix of the new one, its recorded targets and instruction starts;
    and in the second pass the targets and instruction starts exactly. *)
Definition carried_on (b b' : Bank) : Prop :=
  settings b' = settings b
  ∧ output b `prefix_of` output b'
  ∧ (∀ n x, is_target b n x → is_target b' n x)
  ∧ disassembled_addresses b ⊆ disassembled_addresses b'
  ∧ (first_pass b = false →
     target_addresses b' = target_addresses b
     ∧ disassembled_addresses b' = disassembled_addresses b).

(** The values of [self.pc] at which the loop of
    [Bank.process_code_in_range] calls [disassemble_at_pc]. *)
Fixpoint code_starts (fuel : nat) (rom : ROM) (b : Bank) (end_address : Z)
    : list Z :=
  if pc b <? end_address then
    match fuel with
    | O => []
    | S fuel' =>
        match disassemble_at_pc rom b end_address with
        | Some (rom', b') => pc b :: code_starts fuel' rom' b' end_address
        | None => []
        end
    end
  else [].

(** The ROMs agree on the image and on the opcode tables. *)
Definition same_image (rom1 rom2 : ROM) : Prop :=
  data rom1 = data rom2
  ∧ instruction_names rom1 = instruction_names rom2
  ∧ instruction_operands rom1 = instruction_operands rom2
  ∧ cb_instruction_name rom1 = cb_instruction_name rom2
  ∧ cb_instruction_operands rom1 = cb_instruction_operands rom2.

(** A byte of the range that [process_text_in_range] copies as a character. *)
Definition printable (byte : Z) : Prop := 0x20 ≤ byte < 0x7F.

(** The bytes of the image at the addresses of a region. *)
Definition region_bytes (rom : ROM) (start_address end_address : Z) : list Z :=
  omap (byte_at (data rom)) (seqZ start_address (end_address - start_address)).

(** What the loops of [process_data_in_range] and [process_text_in_range]
    need of an address: its byte is in the image, and its explicit label, if
    it has one, is not the empty string. *)
Definition readable (rom : ROM) (b : Bank) (address : Z) : Prop :=
  is_Some (byte_at (data rom) address)
  ∧ labelled_addresses b !! rom_address_to_mem_address address ≠ Some "".

(** The names the decoder treats in a way of their own: the [stop]/[halt]
    rule, the branch targets, and the blank lines after returns and jumps. *)
Definition special_names : list string :=
  ["stop"; "halt"; "jr"; "jp"; "call"; "ret"; "reti"].

(** The text of an address operand once the label part of the operand loop
    has run (source lines 516-523): the explicit label of the address when
    it has one and lies at or above [0xC000], the literal otherwise. *)
Definition address_text (b : Bank) (value : Z) : string :=
  if decide (0xc000 ≤ value)
  then default (hex_word value) (labelled_addresses b !! value)
  else hex_word value.

(** The line that lists the values of a group of bytes. *)
Definition data_line (values : list string) : string :=
  "    DB " +:+ join ", " values.

(** The line of an explicit label: [:] after a local label (one starting
    with a dot), [::] after any other. *)
Definition label_line (label : string) : string :=
  match label with
  | String c _ => if Ascii.eqb c "."%char then label +:+ ":" else label +:+ "::"
  | EmptyString => "::"
  end.

(** The output with an empty line after it, unless it is empty or ends
    with one. *)
Definition blank_ended (out : list string) : list string :=
  match last out with
  | Some l => if (l =? "")%string then out else (out ++ [""])%list
  | None => out
  end.

(** The lines of a data region cut into groups of the given sizes, written
    after [out]: for each group the label of its first address, if it has
    one, set off by an empty line, and then the line of its values. *)
Fixpoint region_lines (rom : ROM) (b : Bank) (address : Z) (groups : list nat)
    (out : list string) : list string :=
  match groups with
  | [] => out
  | n :: rest =>
      region_lines rom b (address + Z.of_nat n) rest
        ((match labelled_addresses b !! rom_address_to_mem_address address with
          | Some label => blank_ended out ++ [label_line label]
          | None => out
          end) ++ [data_line (data_values rom address n)])%list
  end.

(** Each group holds between 1 and 16 values, and no address after the
    first of a group has a label. *)
Fixpoint lines_ok (b : Bank) (address : Z) (groups : list nat) : Prop :=
  match groups with
  | [] => True
  | n :: rest =>
      (1 ≤ n ≤ 16)%nat
      ∧ (∀ k, 0 < k < Z.of_nat n →
           labelled_addresses b !! rom_address_to_mem_address (address + k) = None)
      ∧ lines_ok b (address + Z.of_nat n) rest
  end.

(** * Examples *)

Example hex_word_ff40 : hex_word 0xff40 = "$ff40".
Proof. reflexivity. Qed.
Example hex_byte_5 : hex_byte 5 = "$05".
Proof. reflexivity. Qed.
Example hex_byte_0 : hex_byte 0 = "$00".
Proof. reflexivity. Qed.
Example hex_word_neg : format_hex 4 (-5) = "-005".
Proof. reflexivity. Qed.
Example hex_word_big : hex_word 0x12345 = "$12345".
Proof. reflexivity. Qed.

(** The overlapping-hints scenario: a data hint [0x4000, +0x10) and a code
    hint [0x4008, +0x10) in a switched bank. *)
Example resolve_overlap :
  region_list <$> resolve_blocks
     (add_block (add_block (Bank_init 1) 0x4000 Data 0x10) 0x4008 Code 0x10)
  = Some [(0x4000, mkBlock Data 0x8); (0x4008, mkBlock Code 0x10);
          (0x4018, mkBlock Code 0x3fe8)].
Proof. vm_compute. reflexivity. Qed.

(** The high-page scenario: opcode [0xEA] with operand [0xFF40]. *)
Example ld_long_ff40 :
  (λ '(r, b), (has_ld_long r, output b, pc b))
    <$> disassemble_at_pc (sample_rom [0xEA; 0x40; 0xFF; 0x00; 0x00]) (Bank_init 0) 0x4000
  = Some (true, ["    ld_long $ff40, a"], 3).
Proof. vm_compute. reflexivity. Qed.

Example stop_then_nop :
  (λ '(r, b), (output b, pc b))
    <$> disassemble_at_pc (sample_rom [0x10; 0x00; 0x76; 0x01; 0; 0]) (Bank_init 0) 0x4000
  = Some (["    stop "], 2).
Proof. vm_compute. reflexivity. Qed.

Example halt_then_other :
  (λ '(r, b), (output b, pc b))
    <$> disassemble_at_pc (sample_rom [0x10; 0x00; 0x76; 0x01; 0; 0])
          (set_pc 2 (Bank_init 0)) 0x4000
  = Some (["    DB $76"], 3).
Proof. vm_compute. reflexivity. Qed.

Example ldh_hardware_register :
  (λ '(r, b), (output b, pc b))
    <$> disassemble_at_pc (sample_rom [0xE0; 0x40; 0xE0; 0x03; 0; 0]) (Bank_init 0) 0x4000
  = Some (["    ldh [rLCDC], a"], 2).
Proof. vm_compute. reflexivity. Qed.

Example call_discovery :
  (λ '(r, b), (target_addresses b !! "call", pc b))
    <$> disassemble_at_pc call_rom (set_first_pass true (set_pc 0x150 (Bank_init 0))) 0x4000
  = Some (Some {[0x200]}, 0x153).
Proof. vm_compute. reflexivity. Qed.

Example call_emission_visited :
  (λ '(r, b), output b)
    <$> disassemble_at_pc call_rom
          (set_disassembled_addresses {[0x200]}
             (set_target_addresses (<["call" := {[0x200]}]> (target_addresses (Bank_init 0)))
                (set_pc 0x150 (Bank_init 0)))) 0x4000
  = Some ["    call Call_000_0200"].
Proof. vm_compute. reflexivity. Qed.

Example call_emission_not_visited :
  (λ '(r, b), output b)
    <$> disassemble_at_pc call_rom
          (set_target_addresses (<["call" := {[0x200]}]> (target_addresses (Bank_init 0)))
             (set_pc 0x150 (Bank_init 0))) 0x4000
  = Some ["    call $0200"].
Proof. vm_compute. reflexivity. Qed.

Example data_lines :
  output <$> process_data_in_range (sample_rom (seqZ 0 40))
               (set_labelled_addresses (<[3 := "Foo"]> (<[20 := ".bar"]> ∅)) (Bank_init 0))
               1 22
  = Some ["    DB $01, $02"; ""; "Foo::";
          "    DB $03, $04, $05, $06, $07, $08, $09, $0a, $0b, $0c, $0d, $0e, $0f, $10, $11, $12";
          "    DB $13"; ""; ".bar:"; "    DB $14, $15"].
Proof. vm_compute. reflexivity. Qed.

(** * Properties *)

(** ** Recording hints *)

Lemma add_block_fields b address bt len :
  add_block b address bt len = set_blocks (blocks (add_block b address bt len)) b.
Proof. unfold add_block. destruct b; simpl. by case_match. Qed.

Lemma add_block_base b address bt len :
  memory_base_address (add_block b address bt len) = memory_base_address b.
Proof. unfold add_block. by case_match. Qed.

Lemma add_blocks_fields hints : ∀ b,
  add_blocks b hints = set_blocks (blocks (add_blocks b hints)) b.
Proof.
  induction hints as [|[[a t] l] hints IH]; intros b; simpl.
  - by destruct b.
  - rewrite IH at 1. rewrite (add_block_fields b a t l). by destruct b.
Qed.

Lemma add_blocks_base hints b :
  memory_base_address (add_blocks b hints) = memory_base_address b.
Proof. rewrite add_blocks_fields. by destruct b. Qed.

Lemma add_block_lookup b address bt len k :
  blocks (add_block b address bt len) !! k =
    if decide (memory_base_address b ≤ address ∧ k = address)
    then Some (mkBlock bt len) else blocks b !! k.
Proof.
  unfold add_block. destruct (Z.geb_spec address (memory_base_address b)); simpl.
  - destruct (decide (k = address)) as [->|].
    + rewrite lookup_insert_eq. case_decide; [done | lia].
    + rewrite lookup_insert_ne by done. case_decide; [lia | done].
  - case_decide; [lia | done].
Qed.

Lemma frame_add_block b address bt len :
  frame (add_block b address bt len) = frame b.
Proof. unfold add_block. by case_match. Qed.

Lemma frame_add_blocks hints : ∀ b, frame (add_blocks b hints) = frame b.
Proof.
  induction hints as [|[[a t] l] hints IH]; intros b; simpl; [done|].
  by rewrite IH, frame_add_block.
Qed.

Lemma frame_eq b1 b2 : frame b1 = frame b2 → blocks b1 = blocks b2 → b1 = b2.
Proof. destruct b1, b2. unfold frame. simpl. intros [= -> -> -> -> -> -> -> -> ->] ->. done. Qed.

(** The blocks after a run of calls depend on the starting blocks only at
    the keys the run leaves alone. *)
Lemma add_blocks_lookup_congr hints : ∀ b1 b2 k,
  memory_base_address b1 = memory_base_address b2 →
  blocks b1 !! k = blocks b2 !! k →
  blocks (add_blocks b1 hints) !! k = blocks (add_blocks b2 hints) !! k.
Proof.
  induction hints as [|[[a t] l] hints IH]; intros b1 b2 k Hbase Hk; simpl; [done|].
  apply IH.
  - by rewrite !add_block_base.
  - rewrite !add_block_lookup, Hbase, Hk. done.
Qed.

Lemma add_blocks_lookup_below hints : ∀ b k,
  k < memory_base_address b →
  blocks (add_blocks b hints) !! k = blocks b !! k.
Proof.
  induction hints as [|[[a t] l] hints IH]; intros b k Hk; simpl; [done|].
  rewrite IH by (by rewrite add_block_base).
  rewrite add_block_lookup. case_decide; [lia | done].
Qed.

Lemma Bank_init_blocks number :
  blocks (Bank_init number)
    = {[ memory_base_address (Bank_init number) := mkBlock Code 0x4000 ]}.
Proof.
  unfold Bank_init, add_block. simpl. rewrite Z.geb_leb, Z.leb_refl. simpl.
  by rewrite insert_empty.
Qed.

Lemma Bank_init_base number :
  memory_base_address (Bank_init number) = if number =? 0 then 0 else 0x4000.
Proof. unfold Bank_init. by rewrite add_block_base. Qed.

(** ** C4 *)

(** C4, as stated, fails: in bank 0, whose window is [0, 0x4000), a hint at
    address [0x4000] lies outside the window and is recorded all the same. *)
Lemma add_block_beyond_window_recorded :
  ¬ (memory_base_address (Bank_init 0) ≤ 0x4000
       < memory_base_address (Bank_init 0) + 0x4000)
  ∧ blocks (add_block (Bank_init 0) 0x4000 Data 0x10) !! 0x4000
      = Some (mkBlock Data 0x10)
  ∧ blocks (add_block (Bank_init 0) 0x4000 Data 0x10) ≠ blocks (Bank_init 0).
Proof.
  split; [simpl; lia|]. split; [by vm_compute|].
  intros H. apply (f_equal (λ m, m !! 0x4000)) in H. by vm_compute in H.
Qed.

(** C4 (amended): [add_block] records the hint exactly when the address is
    not below the bank's memory base address, and then stores it under that
    address; a hint below the base leaves the bank, and so the hint set,
    unchanged. There is no upper bound on the address. *)
Theorem add_block_records_from_base (b : Bank) (address : Z) (bt : block_type) (len : Z) :
  (memory_base_address b ≤ address
     ∧ add_block b address bt len
         = set_blocks (<[address := mkBlock bt len]> (blocks b)) b
     ∧ blocks (add_block b address bt len) !! address = Some (mkBlock bt len))
  ∨ (address < memory_base_address b ∧ add_block b address bt len = b).
Proof.
  unfold add_block. destruct (Z.geb_spec address (memory_base_address b)).
  - left. split; [lia|]. split; [done|]. simpl. apply lookup_insert_eq.
  - right. split; [lia | done].
Qed.

(** ** C10 *)

(** C10: hints are keyed by start address. Of two [add_block] calls with the
    same start address, whatever calls come in between, only the later one
    counts: the bank is the one obtained without the earlier call, and the
    surviving entry (when the address is not below the base, so that the
    calls record anything) carries the later kind and length. In particular
    a hint at the bank's base address replaces the whole-bank code block
    installed at construction. *)
Theorem add_block_same_start_overwrites (b : Bank) (address : Z)
    (bt1 bt2 : block_type) (len1 len2 : Z) (between : list (Z * block_type * Z))
    (number : Z) :
  add_block (add_blocks (add_block b address bt1 len1) between) address bt2 len2
    = add_block (add_blocks b between) address bt2 len2
  ∧ blocks (add_block (add_blocks (add_block b address bt1 len1) between)
              address bt2 len2) !! address
    = (if decide (memory_base_address b ≤ address)
       then Some (mkBlock bt2 len2) else blocks b !! address)
  ∧ blocks (Bank_init number) !! memory_base_address (Bank_init number)
    = Some (mkBlock Code 0x4000)
  ∧ blocks (add_block (Bank_init number) (memory_base_address (Bank_init number))
              bt2 len2)
    = {[ memory_base_address (Bank_init number) := mkBlock bt2 len2 ]}.
Proof.
  assert (Heq : add_block (add_blocks (add_block b address bt1 len1) between)
                  address bt2 len2
                = add_block (add_blocks b between) address bt2 len2).
  { apply frame_eq.
    - by rewrite !frame_add_block, !frame_add_blocks, frame_add_block.
    - apply map_eq. intros k. rewrite !add_block_lookup, !add_blocks_base, add_block_base.
      case_decide as Hd; [done|].
      apply add_blocks_lookup_congr; [by rewrite add_block_base|].
      rewrite add_block_lookup. case_decide as Hd'; [|done].
      exfalso. by apply Hd. }
  split; [exact Heq|]. split; [|split].
  - rewrite Heq, add_block_lookup, add_blocks_base.
    case_decide as Hd.
    + destruct Hd. by rewrite decide_True.
    + rewrite decide_False by (intros ?; by apply Hd).
      apply add_blocks_lookup_below. destruct (decide (address < memory_base_address b)); [done|].
      exfalso. apply Hd. split; [lia | done].
  - rewrite Bank_init_blocks. apply lookup_singleton_eq.
  - unfold add_block. rewrite Z.geb_leb, Z.leb_refl. simpl.
    rewrite Bank_init_blocks. apply insert_singleton_eq.
Qed.

(** ** C1: the resolved regions *)

Lemma tiles_empty lo : tiles lo lo ∅ ∧ keys_below lo ∅.
Proof.
  repeat split; try (intros; simplify_map_eq; fail); try lia.
  - intros k [x Hx]. by rewrite lookup_empty in Hx.
Qed.

(** Appending a block of positive length right after the tiled part. *)
Lemma tiles_insert lo s e bt R :
  tiles lo s R → keys_below s R → lo ≤ s → s < e →
  tiles lo e (<[s := mkBlock bt (e - s)]> R)
  ∧ keys_below e (<[s := mkBlock bt (e - s)]> R).
Proof.
  intros (Hin & Hcov & Hdis) Hkeys Hlo Hlt. split; [split; [|split]|].
  - intros k blk. rewrite lookup_insert. case_decide as Hk.
    + intros [= <-]. simpl. lia.
    + intros Hl. destruct (Hin _ _ Hl) as (? & ? & ?). lia.
  - intros a Ha. destruct (decide (a < s)) as [Hlow|Hhigh].
    + destruct (Hcov a) as (k & blk & Hl & Hk); [lia|].
      exists k, blk. split; [|done]. rewrite lookup_insert_ne; [done|].
      intros <-. specialize (Hkeys s (mk_is_Some _ _ Hl)). lia.
    + exists s, (mkBlock bt (e - s)). rewrite lookup_insert_eq. simpl. split; [done | lia].
  - intros k1 b1 k2 b2. rewrite !lookup_insert.
    repeat case_decide; subst.
    + lia.
    + intros [= <-] Hl2 ?. specialize (Hkeys k2 (mk_is_Some _ _ Hl2)). lia.
    + intros Hl1 [= <-] ?. destruct (Hin _ _ Hl1) as (? & ? & ?). simpl. lia.
    + apply Hdis.
  - intros k. rewrite lookup_insert. case_decide as Hk.
    + intros _. lia.
    + intros Hs. specialize (Hkeys k Hs). lia.
Qed.

Lemma tiles_insert_last lo s e bt R :
  tiles lo s R → keys_below s R → lo ≤ s → s < e →
  tiles lo e (<[s := mkBlock bt (e - s)]> R).
Proof. intros. by apply tiles_insert. Qed.

(** A block of length zero at the very end changes nothing that matters. *)
Lemma tiles_insert_empty lo s bt R :
  tiles lo s R → keys_below s R → lo ≤ s →
  tiles lo s (<[s := mkBlock bt 0]> R).
Proof.
  intros (Hin & Hcov & Hdis) Hkeys Hlo. split; [|split].
  - intros k blk. rewrite lookup_insert. case_decide as Hk.
    + intros [= <-]. simpl. lia.
    + apply Hin.
  - intros a Ha. destruct (Hcov a Ha) as (k & blk & Hl & Hk).
    exists k, blk. split; [|done]. rewrite lookup_insert_ne; [done|].
    intros <-. specialize (Hkeys s (mk_is_Some _ _ Hl)). lia.
  - intros k1 b1 k2 b2. rewrite !lookup_insert.
    repeat case_decide; subst.
    + lia.
    + intros [= <-] Hl2 ?. specialize (Hkeys k2 (mk_is_Some _ _ Hl2)). lia.
    + intros Hl1 [= <-] ?. destruct (Hin _ _ Hl1) as (? & ? & ?). simpl. lia.
    + apply Hdis.
Qed.

(** One iteration of the loop when another block follows. *)
Lemma resolve_loop_step blks base start next tail R blk :
  blks !! start = Some blk → head tail = Some next →
  resolve_loop blks base (start :: tail) R =
    let end_address :=
      if next <? start + blk_length blk then next else start + blk_length blk in
    let R1 := <[start := mkBlock (blk_type blk) (end_address - start)]> R in
    resolve_loop blks base tail
      (if end_address <? next
       then <[end_address := mkBlock Code (next - end_address)]> R1 else R1).
Proof. intros Hblk Hhead. simpl. by rewrite Hblk, Hhead. Qed.

Lemma resolve_loop_tiles blks base : ∀ starts start R,
  StronglySorted Z.lt (start :: starts) →
  (∀ k, k ∈ start :: starts → ∃ blk, blks !! k = Some blk ∧ 0 ≤ blk_length blk) →
  (∀ k blk, last (start :: starts) = Some k → blks !! k = Some blk →
            k + blk_length blk ≤ base + 0x4000) →
  tiles base start R → keys_below start R → base ≤ start →
  ∃ R', resolve_loop blks base (start :: starts) R = Some R'
        ∧ tiles base (base + 0x4000) R'.
Proof.
  induction starts as [|next rest IH];
    intros start R Hsorted Hblks Hlast Htiles Hkeys Hbase.
  - (* the last block *)
    destruct (Hblks start) as (blk & Hblk & Hlen); [set_solver|].
    pose proof (Hlast start blk eq_refl Hblk) as Hend.
    simpl. rewrite Hblk. simpl.
    destruct (Z.eqb_spec (start + blk_length blk) (base + 0x4000)) as [Heq|Hne]; simpl.
    + eexists; split; [done|]. rewrite <- Heq.
      destruct (decide (blk_length blk = 0)) as [Hz|Hnz].
      * replace (start + blk_length blk - start) with 0 by lia.
        replace (start + blk_length blk) with start by lia.
        by apply tiles_insert_empty.
      * apply tiles_insert_last; [done..|lia].
    + eexists; split; [done|].
      destruct (decide (blk_length blk = 0)) as [Hz|Hnz].
      * replace (start + blk_length blk) with start by lia.
        rewrite insert_insert_eq. apply tiles_insert_last; [done..|lia].
      * destruct (tiles_insert base start (start + blk_length blk) (blk_type blk) R)
          as [Ht Hk]; [done..|lia|].
        apply tiles_insert_last; [done..|lia|lia].
  - (* a block followed by another one *)
    destruct (Hblks start) as (blk & Hblk & Hlen); [set_solver|].
    apply StronglySorted_inv in Hsorted as [Hsorted Hall].
    assert (Hnext : start < next) by (by inversion Hall).
    rewrite (resolve_loop_step _ _ _ next _ _ blk) by done. cbv zeta.
    match goal with
    | |- ∃ R', resolve_loop _ _ _ ?R2 = Some R' ∧ _ =>
        cut (tiles base next R2 ∧ keys_below next R2)
    end.
    { intros [Ht Hk]. apply IH; [done| | |done|done|lia].
      - intros k ?. apply Hblks. by constructor.
      - intros k blk' Hk' Hblk'. by apply (Hlast k blk'). }
    destruct (Z.ltb_spec next (start + blk_length blk)) as [Hover|Hfit].
    + (* truncated at the next start *)
      rewrite Z.ltb_irrefl. by apply tiles_insert.
    + destruct (Z.ltb_spec (start + blk_length blk) next) as [Hgap|Hnogap].
      * destruct (decide (blk_length blk = 0)) as [Hz|Hnz].
        -- replace (start + blk_length blk) with start by lia.
           rewrite insert_insert_eq. by apply tiles_insert.
        -- destruct (tiles_insert base start (start + blk_length blk) (blk_type blk) R)
             as [Ht Hk]; [done..|lia|].
           by apply tiles_insert; [| |lia..].
      * replace (start + blk_length blk) with next by lia. by apply tiles_insert.
Qed.

(** [sorted_keys] lists exactly the keys, in strictly increasing order. *)
Lemma elem_of_sorted_keys {A} (d : gmap Z A) k :
  k ∈ sorted_keys d ↔ is_Some (d !! k).
Proof.
  unfold sorted_keys. rewrite merge_sort_Permutation, list_elem_of_fmap. split.
  - intros ([k' x] & -> & Hin). apply elem_of_map_to_list in Hin. by exists x.
  - intros [x Hx]. exists (k, x). split; [done|]. by apply elem_of_map_to_list.
Qed.

Lemma StronglySorted_le_lt (l : list Z) :
  StronglySorted Z.le l → NoDup l → StronglySorted Z.lt l.
Proof.
  induction 1 as [|x l Hs IH Hall]; intros Hnd; [constructor|].
  apply NoDup_cons in Hnd as [Hx Hnd]. constructor; [by apply IH|].
  rewrite Forall_forall in Hall |- *. intros y Hy.
  specialize (Hall y Hy). assert (x ≠ y) by (by intros ->). lia.
Qed.

Lemma sorted_keys_sorted {A} (d : gmap Z A) : StronglySorted Z.lt (sorted_keys d).
Proof.
  apply StronglySorted_le_lt.
  - apply (StronglySorted_merge_sort Z.le).
  - unfold sorted_keys. rewrite merge_sort_Permutation. apply NoDup_fst_map_to_list.
Qed.

Lemma region_list_lookup b (i : nat) r :
  region_list b !! i = Some r ↔
  sorted_keys (blocks b) !! i = Some r.1 ∧ blocks b !! r.1 = Some r.2.
Proof.
  unfold region_list.
  assert (Hall : Forall (λ k, is_Some (blocks b !! k)) (sorted_keys (blocks b))).
  { apply Forall_forall. intros k. by rewrite elem_of_sorted_keys. }
  revert i. induction Hall as [|k l [blk Hk] Hall IH]; intros i.
  - simpl. rewrite !lookup_nil. split; [done | by intros [? _]].
  - simpl. rewrite Hk. simpl. destruct i as [|i]; simpl.
    + destruct r as [k' blk']. simpl. split.
      * intros [= <- <-]. done.
      * intros [[= <-] Hb]. rewrite Hk in Hb. by injection Hb as <-.
    + apply IH.
Qed.

Lemma elem_of_region_list b r :
  r ∈ region_list b ↔ blocks b !! r.1 = Some r.2.
Proof.
  rewrite list_elem_of_lookup. setoid_rewrite region_list_lookup. split.
  - by intros (i & _ & Hr).
  - intros Hr. assert (Hin : r.1 ∈ sorted_keys (blocks b)).
    { apply elem_of_sorted_keys. eauto. }
    apply list_elem_of_lookup in Hin as [i Hi]. eauto.
Qed.

Lemma StronglySorted_lookup_lt (l : list Z) (i j : nat) x y :
  StronglySorted Z.lt l → l !! i = Some x → l !! j = Some y → (i < j)%nat → x < y.
Proof.
  intros Hs. revert i j. induction Hs as [|z l Hs IH Hall]; intros i j Hi Hj Hij.
  - by rewrite lookup_nil in Hi.
  - destruct j as [|j]; [lia|]. destruct i as [|i]; simpl in *.
    + injection Hi as ->. rewrite Forall_forall in Hall. apply Hall.
      by eapply list_elem_of_lookup_2.
    + eapply IH; [done..|lia].
Qed.

Lemma region_list_sorted b :
  StronglySorted (λ r1 r2, region_start r1 < region_start r2) (region_list b).
Proof.
  assert (Hfst : ∀ (i : nat) r, region_list b !! i = Some r →
                   sorted_keys (blocks b) !! i = Some r.1).
  { intros i r Hr. by apply region_list_lookup in Hr as [? _]. }
  pose proof (sorted_keys_sorted (blocks b)) as Hs.
  revert Hfst Hs. generalize (sorted_keys (blocks b)) as ks.
  induction (region_list b) as [|r rs IH]; intros ks Hfst Hs; [constructor|].
  destruct ks as [|k ks]; [by specialize (Hfst 0%nat r eq_refl)|].
  apply StronglySorted_inv in Hs as [Hs Hall].
  constructor.
  - apply (IH ks); [|done]. intros i r' Hr'. apply (Hfst (S i) r' Hr').
  - apply Forall_forall. intros r' Hr'. apply list_elem_of_lookup in Hr' as [i Hi].
    pose proof (Hfst 0%nat r eq_refl) as H0. pose proof (Hfst (S i) r' Hi) as H1.
    simpl in H0, H1. injection H0 as Hk0. subst k. rewrite Forall_forall in Hall.
    unfold region_start. apply Hall. by eapply list_elem_of_lookup_2.
Qed.

(** From a tiled dictionary to a partitioning region list. *)
Lemma tiles_partitions b :
  tiles (memory_base_address b) (memory_base_address b + 0x4000) (blocks b) →
  partitions (memory_base_address b) (region_list b).
Proof.
  intros (Hin & Hcov & Hdis).
  assert (Hord : ∀ (i j : nat) r1 r2,
            region_list b !! i = Some r1 → region_list b !! j = Some r2 →
            (i < j)%nat → region_end r1 ≤ region_start r2).
  { intros i j r1 r2 H1 H2 Hij.
    apply region_list_lookup in H1 as [Hk1 Hb1].
    apply region_list_lookup in H2 as [Hk2 Hb2].
    unfold region_end, region_start. eapply Hdis; [done..|].
    eapply StronglySorted_lookup_lt; [apply (sorted_keys_sorted (blocks b))|done..]. }
  split; [apply region_list_sorted|]. split; [exact Hord|]. split.
  - intros a. split.
    + intros (r & Hr & Ha). apply elem_of_region_list in Hr.
      destruct (Hin _ _ Hr) as (? & ? & ?). unfold covers, region_start, region_end in Ha.
      lia.
    + intros Ha. destruct (Hcov a Ha) as (k & blk & Hl & Hk).
      exists (k, blk). split; [by apply elem_of_region_list|done].
  - intros a i j r1 r2 H1 H2 Hc1 Hc2. unfold covers in *.
    destruct (Nat.lt_total i j) as [Hlt|[Heq|Hgt]]; [|done|].
    + pose proof (Hord i j r1 r2 H1 H2 Hlt). lia.
    + pose proof (Hord j i r2 r1 H2 H1 Hgt). lia.
Qed.

Lemma based_init number : based (Bank_init number).
Proof.
  split.
  - rewrite Bank_init_blocks, lookup_singleton_eq. eauto.
  - intros k. rewrite Bank_init_blocks. intros [blk Hk].
    apply lookup_singleton_Some in Hk as [<- _]. lia.
Qed.

Lemma based_add_block b address bt len :
  based b → based (add_block b address bt len).
Proof.
  intros [Hbase Hkeys]. split.
  - rewrite add_block_base, add_block_lookup. case_decide; eauto.
  - intros k. rewrite add_block_base, add_block_lookup. case_decide as Hd.
    + intros _. destruct Hd as [? ->]. done.
    + apply Hkeys.
Qed.

Lemma based_add_blocks hints : ∀ b, based b → based (add_blocks b hints).
Proof.
  induction hints as [|[[a t] l] hints IH]; intros b Hb; simpl; [done|].
  by apply IH, based_add_block.
Qed.

Lemma based_sorted_keys b :
  based b → ∃ starts, sorted_keys (blocks b) = memory_base_address b :: starts.
Proof.
  intros [Hbase Hkeys].
  pose proof (sorted_keys_sorted (blocks b)) as Hs.
  apply elem_of_sorted_keys in Hbase.
  destruct (sorted_keys (blocks b)) as [|s l] eqn:Hsk; [by apply elem_of_nil in Hbase|].
  assert (Hs_in : memory_base_address b ≤ s).
  { apply Hkeys, elem_of_sorted_keys. rewrite Hsk. by left. }
  apply StronglySorted_inv in Hs as [_ Hall]. rewrite Forall_forall in Hall.
  apply elem_of_cons in Hbase as [Heq|Hin].
  - exists l. by rewrite Heq.
  - specialize (Hall _ Hin). lia.
Qed.

(** C1, as stated, fails: a hint that starts inside the window of bank 0
    and runs past its end is recorded, and the resolved list then holds a
    data region reaching beyond the window, followed by a code region of
    negative length. Address [0x4000] is covered, yet lies outside
    [0, 0x4000). *)
Lemma resolve_blocks_hint_past_window :
  region_list <$> resolve_blocks (add_block (Bank_init 0) 0x3FF0 Data 0x20)
    = Some [(0, mkBlock Code 0x3ff0); (0x3ff0, mkBlock Data 0x20);
            (0x4010, mkBlock Code (-0x10))]
  ∧ ¬ partitions (memory_base_address (Bank_init 0))
        [(0, mkBlock Code 0x3ff0); (0x3ff0, mkBlock Data 0x20);
         (0x4010, mkBlock Code (-0x10))].
Proof.
  split; [by vm_compute|].
  intros (_ & _ & Hcov & _). destruct (Hcov 0x4000) as [Hin _].
  assert (H : memory_base_address (Bank_init 0) ≤ 0x4000
              < memory_base_address (Bank_init 0) + 0x4000).
  { apply Hin. exists (0x3ff0, mkBlock Data 0x20). split.
    - right. left.
    - unfold covers, region_start, region_end. simpl. lia. }
  rewrite Bank_init_base in H. simpl in H. lia.
Qed.

(** A hint of negative length, which a symbol file can give, is recorded
    too, and breaks the partition even when it is not the last one: the
    filler that [resolve_blocks] puts in front of the next block starts at
    the negative end, inside the region before. *)
Lemma resolve_blocks_negative_hint_overlaps :
  region_list <$> resolve_blocks
     (add_blocks (Bank_init 0) [(0x100, Data, -0x10); (0x200, Code, 0x3e00)])
    = Some [(0, mkBlock Code 0x100); (0xf0, mkBlock Code 0x110);
            (0x100, mkBlock Data (-0x10)); (0x200, mkBlock Code 0x3e00)]
  ∧ ¬ partitions (memory_base_address (Bank_init 0))
        [(0, mkBlock Code 0x100); (0xf0, mkBlock Code 0x110);
         (0x100, mkBlock Data (-0x10)); (0x200, mkBlock Code 0x3e00)].
Proof.
  split; [by vm_compute|].
  intros (_ & Hord & _).
  specialize (Hord 0%nat 1%nat (0, mkBlock Code 0x100) (0xf0, mkBlock Code 0x110)
                eq_refl eq_refl).
  unfold region_end, region_start in Hord. simpl in Hord. lia.
Qed.

Lemma last_sorted_keys_max {A} (d : gmap Z A) start k :
  last (sorted_keys d) = Some start → is_Some (d !! k) → k ≤ start.
Proof.
  intros Hlast Hk. apply elem_of_sorted_keys in Hk.
  pose proof (sorted_keys_sorted d) as Hs.
  destruct (sorted_keys d) as [|x l] using rev_ind; [done|].
  rewrite last_snoc in Hlast. injection Hlast as ->.
  apply elem_of_app in Hk as [Hk|Hk%list_elem_of_singleton]; [|lia].
  clear IHl.
  apply list_elem_of_lookup in Hk as [i Hi].
  pose proof (StronglySorted_lookup_lt (l ++ [start]) i (length l) k start Hs) as Hlt.
  rewrite lookup_app_l in Hlt by (by eapply lookup_lt_Some).
  rewrite lookup_app_r, Nat.sub_diag in Hlt by lia.
  pose proof (lookup_lt_Some _ _ _ Hi).
  specialize (Hlt Hi eq_refl). lia.
Qed.

(** C1 (amended): for every bank, if every recorded hint has a non-negative
    length and the hint with the highest start address ends inside the
    bank's window (start + length is at most base + 0x4000), then
    [resolve_blocks] succeeds and the resulting region list is sorted by
    start address, its regions are pairwise non-overlapping, and they cover
    [base, base + 0x4000) exactly once per address. A hint that is followed
    by another may be as long as it likes: it is cut at the start of the
    next one. *)
Theorem resolve_blocks_partitions (number : Z) (hints : list (Z * block_type * Z)) :
  let b := add_blocks (Bank_init number) hints in
  (∀ start blk, blocks b !! start = Some blk → 0 ≤ blk_length blk) →
  (∀ start blk, blocks b !! start = Some blk →
     (∀ k, is_Some (blocks b !! k) → k ≤ start) →
     start + blk_length blk ≤ memory_base_address b + 0x4000) →
  ∃ b', resolve_blocks b = Some b'
        ∧ partitions (memory_base_address b) (region_list b').
Proof.
  intros b Hlen Hlast.
  assert (Hb : based b) by apply based_add_blocks, based_init.
  destruct (based_sorted_keys b Hb) as [starts Hstarts].
  pose proof (sorted_keys_sorted (blocks b)) as Hsorted. rewrite Hstarts in Hsorted.
  destruct (tiles_empty (memory_base_address b)) as [Ht Hk].
  destruct (resolve_loop_tiles (blocks b) (memory_base_address b) starts
              (memory_base_address b) ∅) as (R' & Hloop & Htiles);
    [done| | |done|done|lia|].
  { intros k Hk'. rewrite <- Hstarts in Hk'.
    apply elem_of_sorted_keys in Hk' as [blk Hblk]. exists blk. split; [done|].
    by eapply Hlen. }
  { intros k blk Hk' Hblk. rewrite <- Hstarts in Hk'. apply Hlast; [done|].
    intros k' Hk''. by eapply last_sorted_keys_max. }
  exists (set_blocks R' b). split.
  - unfold resolve_blocks. rewrite Hstarts, Hloop. done.
  - apply (tiles_partitions (set_blocks R' b)). exact Htiles.
Qed.

Lemma resolve_blocks_partitions_witness :
  ∃ b', resolve_blocks
          (add_blocks (Bank_init 0) [(0x100, Data, 0x5000); (0x200, Code, 0x100)])
        = Some b'
        ∧ partitions
            (memory_base_address
               (add_blocks (Bank_init 0) [(0x100, Data, 0x5000); (0x200, Code, 0x100)]))
            (region_list b').
Proof.
  apply (resolve_blocks_partitions 0 [(0x100, Data, 0x5000); (0x200, Code, 0x100)]).
  - intros start blk. cbn [add_blocks foldl].
    rewrite !add_block_lookup, !add_block_base, Bank_init_blocks, Bank_init_base.
    simpl. repeat case_decide.
    + intros [= <-]. simpl. lia.
    + intros [= <-]. simpl. lia.
    + intros [<- <-]%lookup_singleton_Some. simpl. lia.
  - intros start blk Hblk Hmax.
    assert (H200 : 0x200 ≤ start).
    { apply Hmax. exists (mkBlock Code 0x100). by vm_compute. }
    revert Hblk. cbn [add_blocks foldl].
    rewrite !add_block_lookup, !add_block_base, Bank_init_blocks, Bank_init_base.
    simpl. repeat case_decide.
    + intros [= <-]. simpl. lia.
    + lia.
    + intros [<- _]%lookup_singleton_Some. lia.
Defined.

(** ** The operand loop *)

Lemma decode_operand_plain rom number pc opcode operand st :
  plain operand →
  decode_operand rom number pc opcode operand st =
    Some (mkDecoding (len st) (instruction_name st) (operand_values st ++ [operand]),
          None, rom, false).
Proof.
  unfold plain, operand_kinds. intros Hp. unfold decode_operand. destruct st as [l n v].
  repeat (match goal with
          | |- context [String.eqb operand ?s] =>
              destruct (String.eqb_spec operand s) as [->|_];
              [exfalso; apply Hp; set_solver|]
          end).
  done.
Qed.

Lemma process_operand_plain rom b pc opcode operand st :
  plain operand →
  process_operand rom b pc opcode operand st =
    Some (rom, b,
          mkDecoding (len st) (instruction_name st) (operand_values st ++ [operand]),
          false).
Proof. intros Hp. unfold process_operand. by rewrite decode_operand_plain. Qed.

Lemma process_operands_app rom b pc opcode ops1 : ∀ ops2 st,
  Forall plain ops1 →
  process_operands rom b pc opcode (ops1 ++ ops2) st =
    process_operands rom b pc opcode ops2
      (mkDecoding (len st) (instruction_name st) (operand_values st ++ ops1)).
Proof.
  induction ops1 as [|op ops1 IH]; intros ops2 st Hall; simpl.
  - rewrite app_nil_r. by destruct st.
  - apply Forall_cons in Hall as [Hop Hall].
    rewrite process_operand_plain by done. simpl.
    rewrite IH by done. simpl. by rewrite <- app_assoc.
Qed.

Lemma process_operands_plain rom b pc opcode ops st :
  Forall plain ops →
  process_operands rom b pc opcode ops st =
    Some (rom, b, mkDecoding (len st) (instruction_name st) (operand_values st ++ ops)).
Proof.
  intros Hall. rewrite <- (app_nil_r ops) at 1.
  by rewrite process_operands_app.
Qed.

Lemma plain_hex_byte v : plain (hex_byte v).
Proof.
  unfold plain, operand_kinds, hex_byte. intros Hin.
  repeat (apply elem_of_cons in Hin as [Heq|Hin]; [discriminate Heq|]).
  by apply elem_of_nil in Hin.
Qed.

(** ** C3: labels and instruction starts *)

(** C3, as stated, fails: emission of a data region writes the explicit
    label of an address that discovery never recorded as an instruction
    start. *)
Lemma label_emitted_for_data_address :
  (0x104 ∉ disassembled_addresses header_bank)
  ∧ get_labels_for_non_code_address header_bank 0x104 = Some ["HeaderLogo::"]
  ∧ output <$> process_data_in_range header_rom header_bank 0x104 0x108
    = Some ["HeaderLogo::"; "    DB $ce, $ed, $66, $66"].
Proof. split; [set_solver|]. split; by vm_compute. Qed.

(** C3 (amended): label resolution for an instruction operand returns no
    label, neither explicit nor generated, when the operand's address was
    not recorded as an instruction start during discovery; so in the second
    pass an operand below [0xC000] whose address was not recorded keeps its
    literal text. (Explicit labels of data and text addresses, and of
    operands at or above [0xC000], do not depend on that record.) *)
Theorem no_operand_label_off_instruction_start (b : Bank) (name : string)
    (address : Z) (st : Decoding) (value : Z) :
  address ∉ disassembled_addresses b →
  get_label_for_instruction_operand b name address = Some None
  ∧ (first_pass b = false → value < 0xc000 →
     rom_address_to_mem_address value = address →
     resolve_operand_label b st (Some value) = Some (b, st)).
Proof.
  intros Hnot.
  assert (Hget : ∀ n, get_label_for_instruction_operand b n address = Some None).
  { intros n. unfold get_label_for_instruction_operand. by rewrite decide_False. }
  split; [apply Hget|]. intros Hpass Hlow Hmem.
  unfold resolve_operand_label. destruct st as [l n v].
  destruct (is_branch_name n && (value <? 0x8000)).
  - rewrite Hmem, Hpass, Hget. by case_match.
  - destruct (Z.geb_spec value 0xc000); [lia | done].
Qed.

Lemma no_operand_label_off_instruction_start_witness :
  get_label_for_instruction_operand
    (set_target_addresses (<["call" := {[0x200]}]> (target_addresses (Bank_init 0)))
       (Bank_init 0)) "call" 0x200 = Some None
  ∧ (first_pass (set_target_addresses
                   (<["call" := {[0x200]}]> (target_addresses (Bank_init 0)))
                   (Bank_init 0)) = false →
     0x200 < 0xc000 → rom_address_to_mem_address 0x200 = 0x200 →
     resolve_operand_label
       (set_target_addresses (<["call" := {[0x200]}]> (target_addresses (Bank_init 0)))
          (Bank_init 0))
       (mkDecoding 3 "call" ["$0200"]) (Some 0x200)
     = Some (set_target_addresses
               (<["call" := {[0x200]}]> (target_addresses (Bank_init 0)))
               (Bank_init 0),
             mkDecoding 3 "call" ["$0200"])).
Proof.
  apply (no_operand_label_off_instruction_start _ "call" 0x200
           (mkDecoding 3 "call" ["$0200"]) 0x200).
  simpl. set_solver.
Defined.

(** ** What decoding leaves alone *)

Lemma add_label_frame b name address b' :
  add_label b name address = Some b' → decode_frame b' = decode_frame b.
Proof.
  unfold add_label. destruct (target_addresses b !! name); [|done].
  intros [= <-]. by case_decide.
Qed.

Lemma resolve_operand_label_frame b st value b' st' :
  resolve_operand_label b st value = Some (b', st') →
  decode_frame b' = decode_frame b ∧ len st' = len st
  ∧ instruction_name st' = instruction_name st.
Proof.
  unfold resolve_operand_label. destruct st as [l n v].
  intros H. repeat (case_match; simplify_option_eq); eauto using add_label_frame.
Qed.

Lemma process_operand_frame rom b pc opcode operand st rom' b' st' brk :
  process_operand rom b pc opcode operand st = Some (rom', b', st', brk) →
  decode_frame b' = decode_frame b.
Proof.
  unfold process_operand. intros H.
  destruct (decode_operand _ _ _ _ _ _) as [[[[st1 v] rom1] brk1]|]; [|done].
  simpl in H. destruct brk1; [by simplify_eq|].
  destruct (resolve_operand_label b st1 v) as [[b1 st2]|] eqn:Hl; [|done].
  simpl in H. simplify_eq. by apply resolve_operand_label_frame in Hl as [? _].
Qed.

Lemma process_operands_frame (b : Bank) pc opcode operands : ∀ rom0 b0 st rom' b' st',
  process_operands rom0 b0 pc opcode operands st = Some (rom', b', st') →
  decode_frame b0 = decode_frame b → decode_frame b' = decode_frame b.
Proof.
  induction operands as [|op ops IH]; intros rom0 b0 st rom' b' st' H Hb; simpl in H.
  - injection H as _ <- _. exact Hb.
  - destruct (process_operand _ _ _ _ _ _) as [[[[rom1 b1] st1] brk]|] eqn:Hop; [|done].
    simpl in H. apply process_operand_frame in Hop.
    destruct brk; [injection H as _ <- _; congruence|].
    eapply IH; [done | congruence].
Qed.

Lemma decode_decode_frame rom b rom' b' opcode st :
  decode rom b = Some (rom', b', opcode, st) → decode_frame b' = decode_frame b.
Proof.
  unfold decode. intros H.
  destruct (fetch rom (pc b)) as [[[opc st0] ops]|]; [|done]. simpl in H.
  destruct (stop_halt _ _ _ _ _) as [[st1 ops1]|]; [|done]. simpl in H.
  destruct (process_operands _ _ _ _ _ _) as [[[rom1 b1] st2]|] eqn:Hops; [|done].
  simpl in H. injection H as _ <- _ _. by eapply process_operands_frame.
Qed.

Lemma pop_snoc (l : list string) x : pop (l ++ [x])%list = Some l.
Proof.
  unfold pop. destruct (l ++ [x])%list eqn:Heq.
  - by destruct l.
  - by rewrite <- Heq, removelast_last.
Qed.

(** ** From the decoded form to the line written *)

Lemma generated_labels_set_pc p b names : ∀ address labels,
  generated_labels (set_pc p b) names address labels
  = generated_labels b names address labels.
Proof.
  induction names as [|n names IH]; intros address labels; simpl; [done|].
  destruct (target_addresses b !! n) as [targets|]; [|done].
  case_decide; [|apply IH].
  unfold format_label. simpl. destruct (instruction_label_prefixes !! n); simpl; [|done].
  apply IH.
Qed.

Lemma get_labels_for_address_set_pc p b address :
  get_labels_for_address (set_pc p b) address = get_labels_for_address b address.
Proof.
  unfold get_labels_for_address.
  change (labelled_addresses (set_pc p b)) with (labelled_addresses b).
  destruct (labelled_addresses b !! address); [done|]. apply generated_labels_set_pc.
Qed.

Lemma check_span_decide pc end_address opcode st :
  check_span pc end_address opcode st =
    if decide (pc + len st ≤ end_address) then st
    else mkDecoding 1 "DB" [hex_byte opcode].
Proof.
  unfold check_span. destruct (Z.geb_spec (pc + len st - 1) end_address);
    case_decide; done || lia.
Qed.

Lemma fetch_plain_opcode rom pc opcode name operands :
  byte_at (data rom) pc = Some opcode → opcode ≠ 0xCB →
  instruction_names rom !! opcode = Some name →
  instruction_operands rom !! opcode = Some operands →
  fetch rom pc = Some (opcode, mkDecoding 1 name [], operands).
Proof.
  intros Hop Hcb Hname Hops. unfold fetch. rewrite Hop. simpl.
  rewrite decide_False by (by rewrite Hname).
  destruct (Z.eqb_spec opcode 0xCB); [done|]. by rewrite Hname, Hops.
Qed.

Lemma not_special_name name :
  name ∉ special_names →
  (name =? "stop")%string || (name =? "halt")%string = false
  ∧ is_branch_name name = false
  ∧ ∀ values, separator_lines (mkDecoding 3 name values) = [].
Proof.
  unfold special_names. intros Hn. split; [|split].
  - destruct (String.eqb_spec name "stop") as [->|_]; [exfalso; apply Hn; set_solver|].
    destruct (String.eqb_spec name "halt") as [->|_]; [exfalso; apply Hn; set_solver|].
    done.
  - unfold is_branch_name. apply bool_decide_eq_false. set_solver.
  - intros values. unfold separator_lines. simpl.
    rewrite bool_decide_eq_false_2; [done|]. set_solver.
Qed.

(** [disassemble_at_pc] once the decoded form is known. *)
Lemma disassemble_at_pc_of_decode rom b end_address rom' opcode st labels :
  decode rom b = Some (rom', b, opcode, st) →
  (first_pass b = false →
   get_labels_for_address b (rom_address_to_mem_address (pc b)) = Some labels) →
  let kept := if decide (pc b + len st ≤ end_address) then st
              else mkDecoding 1 "DB" [hex_byte opcode] in
  ∃ b', disassemble_at_pc rom b end_address = Some (rom', b')
        ∧ pc b' = pc b + len kept
        ∧ if first_pass b then output b' = output b
          else output b' =
                 ((match labels with
                   | [] => output b
                   | _ => append_labels_to_output (output b) labels
                   end)
                  ++ ("    " +:+ instruction_name kept +:+ " "
                      +:+ join ", " (operand_values kept))
                     :: separator_lines kept)%list.
Proof.
  intros Hdecode Hlabels kept.
  unfold disassemble_at_pc. rewrite Hdecode. simpl.
  rewrite check_span_decide. fold kept. unfold finish.
  destruct (first_pass b) eqn:Hfp.
  - eexists. split; [done|]. simpl. done.
  - rewrite get_labels_for_address_set_pc, Hlabels by done. simpl.
    eexists. split; [done|]. simpl. split; [done|].
    unfold append_output, format_instruction. rewrite <- app_assoc. simpl.
    by destruct labels.
Qed.

(** ** C5: the high-page workaround *)

Lemma decode_operand_a16 rom number pc opcode st value :
  word_at (data rom) pc = Some value →
  decode_operand rom number pc opcode "[a16]" st =
    if bool_decide (0xff00 ≤ value ∧ (opcode = 0xea ∨ opcode = 0xfa))
    then Some (mkDecoding (len st + 2) "ld_long" (operand_values st ++ [hex_word value]),
               Some value, set_has_ld_long true rom, false)
    else Some (mkDecoding (len st + 2) (instruction_name st)
                 (operand_values st ++ ["[" +:+ hex_word value +:+ "]"]),
               Some value, rom, false).
Proof.
  intros Hword.
  unfold decode_operand. destruct st as [l n v]. simpl. rewrite Hword. simpl.
  case_bool_decide as Hhigh.
  - destruct Hhigh as [Hv Hop].
    destruct (Z.geb_spec value 0xff00); [|lia]. simpl.
    replace ((opcode =? 0xea) || (opcode =? 0xfa)) with true
      by (destruct Hop as [-> | ->]; done).
    by rewrite pop_snoc.
  - destruct (Z.geb_spec value 0xff00); [|done]. simpl.
    destruct (Z.eqb_spec opcode 0xea); [exfalso; apply Hhigh; lia|].
    destruct (Z.eqb_spec opcode 0xfa); [exfalso; apply Hhigh; lia|]. done.
Qed.

(** The label part of the loop iteration, for an operand of an instruction
    that is no branch: the text just appended, bare or in brackets, gives
    way to the explicit label of an address from [0xC000] on. *)
Lemma resolve_operand_label_address b l name values value (bracketed : bool) :
  is_branch_name name = false →
  resolve_operand_label b
    (mkDecoding l name
       (values ++ [if bracketed then "[" +:+ hex_word value +:+ "]"
                   else hex_word value]))
    (Some value)
  = Some (b, mkDecoding l name
               (values ++ [if bracketed then "[" +:+ address_text b value +:+ "]"
                           else address_text b value])).
Proof.
  intros Hbranch. unfold resolve_operand_label, address_text. rewrite Hbranch. simpl.
  destruct (Z.geb_spec value 0xc000).
  - rewrite decide_True by done.
    destruct (labelled_addresses b !! value) as [label|]; simpl; [|done].
    rewrite last_snoc, pop_snoc. simpl. by destruct bracketed.
  - by rewrite decide_False by lia.
Qed.

Lemma decode_a16 rom b opcode name (pre post : list string) value :
  byte_at (data rom) (pc b) = Some opcode → opcode ≠ 0xCB →
  instruction_names rom !! opcode = Some name →
  name ∉ special_names →
  instruction_operands rom !! opcode = Some (pre ++ "[a16]" :: post)%list →
  Forall plain pre → Forall plain post →
  word_at (data rom) (pc b) = Some value →
  decode rom b =
    if bool_decide (0xff00 ≤ value ∧ (opcode = 0xea ∨ opcode = 0xfa))
    then Some (set_has_ld_long true rom, b, opcode,
               mkDecoding 3 "ld_long" (pre ++ address_text b value :: post))
    else Some (rom, b, opcode,
               mkDecoding 3 name (pre ++ ("[" +:+ address_text b value +:+ "]") :: post)).
Proof.
  intros Hop Hcb Hname Hspecial Hops Hpre Hpost Hword.
  destruct (not_special_name name Hspecial) as (Hstop & Hbranch & _).
  unfold decode.
  rewrite (fetch_plain_opcode rom (pc b) opcode name (pre ++ "[a16]" :: post)%list) by done.
  cbn [mbind option_bind]. unfold stop_halt. cbn [instruction_name]. rewrite Hstop.
  cbn [mbind option_bind].
  rewrite process_operands_app by done. cbn [len instruction_name operand_values app].
  cbn [process_operands]. unfold process_operand.
  rewrite (decode_operand_a16 _ _ _ _ _ value) by done.
  cbn [len instruction_name operand_values].
  case_bool_decide as Hhigh; cbn [mbind option_bind].
  - rewrite (resolve_operand_label_address b (1 + 2) "ld_long" pre value false) by done.
    cbn [mbind option_bind]. rewrite process_operands_plain by done.
    cbn [mbind option_bind len instruction_name operand_values].
    by rewrite <- app_assoc.
  - rewrite (resolve_operand_label_address b (1 + 2) name pre value true) by done.
    cbn [mbind option_bind]. rewrite process_operands_plain by done.
    cbn [mbind option_bind len instruction_name operand_values].
    by rewrite <- app_assoc.
Qed.

(** C5 does not hold for an instruction that runs past the end of its
    region, nor for a labelled address. [EA 40 FF] with the region ending
    after its second byte is written as the data byte [DB $ea], yet
    [has_ld_long] is set; and with the explicit label [rLCDC] at [0xFF40]
    the operand of [ld_long] is that label, not the address. *)
Lemma ld_long_flag_set_for_data_byte :
  disassemble_at_pc (sample_rom [0xEA; 0x40; 0xFF; 0x00; 0x00]) (Bank_init 0) 2
  = Some (set_has_ld_long true (sample_rom [0xEA; 0x40; 0xFF; 0x00; 0x00]),
          set_output ["    DB $ea"] (set_pc 1 (Bank_init 0)))
  ∧ disassemble_at_pc (sample_rom [0xEA; 0x40; 0xFF; 0x00; 0x00])
      (with_label 0xFF40 "rLCDC" (Bank_init 0)) 3
    = Some (set_has_ld_long true (sample_rom [0xEA; 0x40; 0xFF; 0x00; 0x00]),
            set_output ["    ld_long rLCDC, a"]
              (set_pc 3 (with_label 0xFF40 "rLCDC" (Bank_init 0)))).
Proof. split; by vm_compute. Qed.

(** C5 (amended): let the instruction at [self.pc] have an [[a16]] operand
    (among operands that are copied as they are, under a name the decoder
    does not treat specially), with the value [value] in the two bytes
    after the opcode. If the value is at least [0xFF00] and the opcode is
    [0xEA] or [0xFA], [has_ld_long] is set, and an instruction that ends
    inside its region is written as [ld_long] with the operand without
    brackets: the address, or the explicit label of the address when it
    has one. Otherwise the flag keeps its value, and an instruction that
    ends inside its region is written under its own name with the operand
    in brackets (the address, or its explicit label from [0xC000] on). An
    instruction that runs past [end_address] is written as [DB <opcode>]
    in either case. The image and the opcode tables are never changed. *)
Theorem high_page_reference_uses_ld_long (rom : ROM) (b : Bank)
    (end_address opcode : Z) (name : string) (pre post : list string) (value : Z)
    (labels : list string) :
  byte_at (data rom) (pc b) = Some opcode → opcode ≠ 0xCB →
  instruction_names rom !! opcode = Some name →
  name ∉ special_names →
  instruction_operands rom !! opcode = Some (pre ++ "[a16]" :: post)%list →
  Forall plain pre → Forall plain post →
  word_at (data rom) (pc b) = Some value →
  (first_pass b = false →
   get_labels_for_address b (rom_address_to_mem_address (pc b)) = Some labels) →
  let high := bool_decide (0xff00 ≤ value ∧ (opcode = 0xea ∨ opcode = 0xfa)) in
  let inside := bool_decide (pc b + 3 ≤ end_address) in
  ∃ rom' b',
    disassemble_at_pc rom b end_address = Some (rom', b')
    ∧ same_image rom rom'
    ∧ has_ld_long rom' = (if high then true else has_ld_long rom)
    ∧ pc b' = pc b + (if inside then 3 else 1)
    ∧ if first_pass b then output b' = output b
      else output b' =
             ((match labels with
               | [] => output b
               | _ => append_labels_to_output (output b) labels
               end)
              ++ [if inside
                  then if high
                       then "    ld_long "
                            +:+ join ", " (pre ++ address_text b value :: post)
                       else "    " +:+ name +:+ " "
                            +:+ join ", "
                                  (pre ++ ("[" +:+ address_text b value +:+ "]") :: post)
                  else "    DB " +:+ hex_byte opcode])%list.
Proof.
  intros Hop Hcb Hname Hspecial Hops Hpre Hpost Hword Hlabels high inside.
  pose proof (decode_a16 rom b opcode name pre post value
                Hop Hcb Hname Hspecial Hops Hpre Hpost Hword) as Hdecode.
  fold high in Hdecode.
  destruct (not_special_name name Hspecial) as (_ & _ & Hsep).
  destruct high.
  - destruct (disassemble_at_pc_of_decode _ _ end_address _ _ _ labels Hdecode Hlabels)
      as (b' & Hrun & Hpc & Hout).
    exists (set_has_ld_long true rom), b'. split; [done|]. split; [done|].
    split; [done|]. unfold inside. cbn [len] in Hpc, Hout.
    destruct (decide (pc b + 3 ≤ end_address)) as [Hin|Hin];
      [rewrite bool_decide_eq_true_2 by done|rewrite bool_decide_eq_false_2 by done];
      cbn [len] in Hpc; (split; [exact Hpc|]); destruct (first_pass b); done.
  - destruct (disassemble_at_pc_of_decode _ _ end_address _ _ _ labels Hdecode Hlabels)
      as (b' & Hrun & Hpc & Hout).
    exists rom, b'. split; [done|]. split; [done|].
    split; [done|]. unfold inside. cbn [len] in Hpc, Hout.
    destruct (decide (pc b + 3 ≤ end_address)) as [Hin|Hin];
      [rewrite bool_decide_eq_true_2 by done|rewrite bool_decide_eq_false_2 by done];
      cbn [len] in Hpc; (split; [exact Hpc|]); destruct (first_pass b); try done.
    cbn [instruction_name operand_values] in Hout. by rewrite Hsep in Hout.
Qed.

Lemma high_page_reference_uses_ld_long_witness :
  ∃ rom' b',
    disassemble_at_pc (sample_rom [0xEA; 0x40; 0xFF; 0x00; 0x00]) (Bank_init 0) 3
    = Some (rom', b')
    ∧ same_image (sample_rom [0xEA; 0x40; 0xFF; 0x00; 0x00]) rom'
    ∧ has_ld_long rom' = true
    ∧ pc b' = 0 + 3
    ∧ output b' = ([] ++ ["    ld_long $ff40, a"])%list.
Proof.
  apply (high_page_reference_uses_ld_long
           (sample_rom [0xEA; 0x40; 0xFF; 0x00; 0x00]) (Bank_init 0) 3 0xEA "ld"
           [] ["a"] 0xFF40 []).
  - reflexivity.
  - lia.
  - by vm_compute.
  - unfold special_names. set_solver.
  - by vm_compute.
  - constructor.
  - repeat constructor. unfold plain, operand_kinds. set_solver.
  - reflexivity.
  - intros _. by vm_compute.
Defined.

(** ** C6: stop and halt *)

Lemma decode_stop_halt rom b opcode name operands next :
  byte_at (data rom) (pc b) = Some opcode → opcode ≠ 0xCB →
  instruction_names rom !! opcode = Some name →
  name = "stop" ∨ name = "halt" →
  instruction_operands rom !! opcode = Some operands → Forall plain operands →
  byte_at (data rom) (pc b + 1) = Some next →
  decode rom b =
    Some (rom, b, opcode,
          if decide (next = 0x00) then mkDecoding 2 name operands
          else mkDecoding 1 "DB" [hex_byte opcode]).
Proof.
  intros Hop Hcb Hname Hstop Hops Hplain Hnext. unfold decode.
  rewrite (fetch_plain_opcode rom (pc b) opcode name operands) by done. simpl.
  unfold stop_halt. simpl.
  replace ((name =? "stop")%string || (name =? "halt")%string) with true
    by (destruct Hstop as [-> | ->]; done).
  rewrite Hnext. simpl. destruct (Z.eqb_spec next 0) as [->|Hne]; simpl.
  - rewrite process_operands_plain by done. simpl. by repeat case_decide.
  - by rewrite decide_False.
Qed.

(** C6 does not hold at the end of a region: a [stop] in the last byte of
    its region, followed by [0x00], is written as the data byte [DB $10],
    and [self.pc] advances by 1, not by 2. *)
Lemma stop_at_region_end_is_data :
  byte_at (data (sample_rom [0x10; 0x00; 0x00; 0x00])) 1 = Some 0x00
  ∧ disassemble_at_pc (sample_rom [0x10; 0x00; 0x00; 0x00]) (Bank_init 0) 1
    = Some (sample_rom [0x10; 0x00; 0x00; 0x00],
            set_output ["    DB $10"] (set_pc 1 (Bank_init 0))).
Proof. split; by vm_compute. Qed.

(** C6 (amended): for an opcode that the table names [stop] or [halt]
    (with the operand-free entry the architecture gives them, or any
    operands that are copied as they are): if the byte after the opcode is
    [0x00] and both bytes lie inside the region, the instruction consumes 2
    bytes and is written under its name; if the following byte is anything
    else, or is [0x00] but lies past [end_address], the opcode alone is
    consumed and written as the data byte [DB <opcode>]. The ROM keeps its
    image, its tables and its flag. *)
Theorem stop_halt_following_byte (rom : ROM) (b : Bank) (end_address opcode : Z)
    (name : string) (operands : list string) (next : Z) (labels : list string) :
  byte_at (data rom) (pc b) = Some opcode → opcode ≠ 0xCB →
  instruction_names rom !! opcode = Some name →
  name = "stop" ∨ name = "halt" →
  instruction_operands rom !! opcode = Some operands → Forall plain operands →
  byte_at (data rom) (pc b + 1) = Some next →
  (first_pass b = false →
   get_labels_for_address b (rom_address_to_mem_address (pc b)) = Some labels) →
  let two := bool_decide (next = 0x00 ∧ pc b + 2 ≤ end_address) in
  ∃ rom' b',
    disassemble_at_pc rom b end_address = Some (rom', b')
    ∧ same_image rom rom'
    ∧ has_ld_long rom' = has_ld_long rom
    ∧ pc b' = pc b + (if two then 2 else 1)
    ∧ if first_pass b then output b' = output b
      else output b' =
             ((match labels with
               | [] => output b
               | _ => append_labels_to_output (output b) labels
               end)
              ++ [if two then "    " +:+ name +:+ " " +:+ join ", " operands
                  else "    DB " +:+ hex_byte opcode])%list.
Proof.
  intros Hop Hcb Hname Hstop Hops Hplain Hnext Hlabels two.
  pose proof (decode_stop_halt rom b opcode name operands next
                Hop Hcb Hname Hstop Hops Hplain Hnext) as Hdecode.
  destruct (disassemble_at_pc_of_decode _ _ end_address _ _ _ labels Hdecode Hlabels)
    as (b' & Hrun & Hpc & Hout).
  exists rom, b'. split; [done|]. split; [done|]. split; [done|].
  assert (Hsep : ∀ values, separator_lines (mkDecoding 2 name values) = []).
  { intros values. unfold separator_lines. simpl.
    rewrite bool_decide_eq_false_2; [done|]. destruct Hstop as [-> | ->]; set_solver. }
  unfold two. destruct (decide (next = 0x00)) as [Hzero|Hzero]; cbn [len] in Hpc, Hout.
  - destruct (decide (pc b + 2 ≤ end_address)) as [Hin|Hin];
      [rewrite bool_decide_eq_true_2 by done|rewrite bool_decide_eq_false_2 by tauto];
      cbn [len] in Hpc; (split; [exact Hpc|]); destruct (first_pass b); try done.
    cbn [instruction_name operand_values] in Hout. by rewrite Hsep in Hout.
  - rewrite bool_decide_eq_false_2 by tauto.
    destruct (decide (pc b + 1 ≤ end_address)); cbn [len] in Hpc;
      (split; [exact Hpc|]); destruct (first_pass b); done.
Qed.

Lemma stop_halt_following_byte_witness :
  ∃ rom' b',
    disassemble_at_pc (sample_rom [0x10; 0x00; 0x76; 0x01; 0x00; 0x00])
      (Bank_init 0) 6
    = Some (rom', b')
    ∧ same_image (sample_rom [0x10; 0x00; 0x76; 0x01; 0x00; 0x00]) rom'
    ∧ has_ld_long rom' = has_ld_long (sample_rom [0x10; 0x00; 0x76; 0x01; 0x00; 0x00])
    ∧ pc b' = 0 + 2
    ∧ output b' = ([] ++ ["    stop "])%list.
Proof.
  apply (stop_halt_following_byte (sample_rom [0x10; 0x00; 0x76; 0x01; 0x00; 0x00])
           (Bank_init 0) 6 0x10 "stop" [] 0x00 []).
  - reflexivity.
  - lia.
  - by vm_compute.
  - by left.
  - by vm_compute.
  - constructor.
  - reflexivity.
  - intros _. by vm_compute.
Defined.

(** ** C7: the end of the region *)

(** C7: let the instruction at [pc] decode to a form of length [len]. If
    [pc + len] goes past [end_address], [disassemble_at_pc] drops that form
    and treats the opcode byte alone as data: the program counter advances
    by 1 and, in the second pass, the line written is [DB <opcode>]. If the
    instruction ends at or before [end_address] (in particular exactly at
    it), the decoded form is kept: the program counter advances by [len] and
    the decoded instruction is the line written. The first pass writes
    nothing. *)
Theorem instruction_past_region_end_becomes_data (rom : ROM) (b : Bank)
    (end_address : Z) (rom' : ROM) (b' : Bank) (opcode : Z) (st : Decoding)
    (labels : list string) :
  decode rom b = Some (rom', b', opcode, st) →
  (first_pass b = false →
   get_labels_for_address b' (rom_address_to_mem_address (pc b)) = Some labels) →
  let kept := if decide (pc b + len st ≤ end_address) then st
              else mkDecoding 1 "DB" [hex_byte opcode] in
  ∃ b'', disassemble_at_pc rom b end_address = Some (rom', b'')
         ∧ pc b'' = pc b + len kept
         ∧ if first_pass b then output b'' = output b
           else output b'' =
                  ((match labels with
                    | [] => output b
                    | _ => append_labels_to_output (output b) labels
                    end)
                   ++ format_instruction (instruction_name kept) (operand_values kept)
                      :: separator_lines kept)%list.
Proof.
  intros Hdecode Hlabels kept.
  pose proof (decode_decode_frame _ _ _ _ _ _ Hdecode) as Hframe.
  injection Hframe as _ _ _ _ _ _ Hpass Hout Hpc.
  unfold disassemble_at_pc. rewrite Hdecode. simpl.
  rewrite check_span_decide. fold kept. unfold finish. rewrite Hpass, Hpc.
  destruct (first_pass b) eqn:Hfp.
  - eexists. split; [done|]. simpl. by rewrite Hout.
  - rewrite get_labels_for_address_set_pc, Hlabels by done. simpl.
    eexists. split; [done|]. simpl. split; [done|].
    rewrite Hout. unfold append_output. rewrite <- app_assoc. simpl.
    by destruct labels.
Qed.

Lemma instruction_past_region_end_becomes_data_witness :
  ∃ b'', disassemble_at_pc (sample_rom [0xEA; 0x40; 0xFF; 0x00; 0x00]) (Bank_init 0) 2
         = Some (set_has_ld_long true (sample_rom [0xEA; 0x40; 0xFF; 0x00; 0x00]), b'')
         ∧ pc b'' = 0 + 1
         ∧ output b'' = ([] ++ "    DB $ea" :: [])%list.
Proof.
  apply (instruction_past_region_end_becomes_data
           (sample_rom [0xEA; 0x40; 0xFF; 0x00; 0x00]) (Bank_init 0) 2
           (set_has_ld_long true (sample_rom [0xEA; 0x40; 0xFF; 0x00; 0x00]))
           (Bank_init 0) 0xEA (mkDecoding 3 "ld_long" ["$ff40"; "a"]) []).
  - by vm_compute.
  - intros _. by vm_compute.
Defined.

(** ** C2: relative branches into another bank *)




(** ** C8: data lines *)

Lemma data_values_cons rom address n byte :
  byte_at (data rom) address = Some byte →
  data_values rom address (S n) = hex_byte byte :: data_values rom (address + 1) n.
Proof.
  intros Hb. unfold data_values. rewrite seqZ_cons by lia.
  replace (Z.pred (Z.of_nat (S n))) with (Z.of_nat n) by lia.
  replace (Z.succ address) with (address + 1) by lia.
  simpl. by rewrite Hb.
Qed.

Lemma data_values_0 rom address : data_values rom address 0 = [].
Proof. unfold data_values. by rewrite seqZ_nil. Qed.

Lemma labels_at_lookup b address :
  (∀ a l, labelled_addresses b !! a = Some l → l ≠ "") →
  get_labels_for_non_code_address b (rom_address_to_mem_address address)
  = Some (labels_at b address).
Proof.
  intros Hne. unfold labels_at, get_labels_for_non_code_address.
  destruct (labelled_addresses b !! _) as [l|] eqn:Hl; [|done].
  specialize (Hne _ _ Hl). by destruct l.
Qed.

(** One iteration of the data loop, with the lookups resolved. *)
Lemma data_step_eq rom b end_address out pending address byte :
  byte_at (data rom) address = Some byte →
  (∀ a l, labelled_addresses b !! a = Some l → l ≠ "") →
  data_step rom b end_address (out, pending) address =
    Some (let out1 :=
            match labels_at b address with
            | [] => out
            | _ => label_lines b address
                     (match pending with
                      | [] => out
                      | _ => append_output out (format_data pending)
                      end)
            end in
          let values :=
            (match labels_at b address with [] => pending | _ => [] end
             ++ [hex_byte byte])%list in
          if bool_decide (length values = 16%nat) || (address =? end_address - 1)
          then (append_output out1 (format_data values), [])
          else (out1, values)).
Proof.
  intros Hbyte Hne. unfold data_step. rewrite (labels_at_lookup b address Hne). simpl.
  unfold label_lines.
  destruct (labels_at b address) as [|l ls] eqn:Hl.
  - rewrite Hbyte. simpl. rewrite length_app. simpl.
    rewrite (bool_decide_eq_true_2 (0 < length pending + 1)%nat) by lia.
    rewrite andb_true_r. by case_match.
  - destruct pending as [|p ps]; simpl; rewrite Hbyte; simpl;
      rewrite andb_true_r; by case_match.
Qed.

Lemma data_step_empty rom b end_address out address byte :
  byte_at (data rom) address = Some byte →
  (∀ a l, labelled_addresses b !! a = Some l → l ≠ "") →
  data_step rom b end_address (out, []) address =
    Some (if address =? end_address - 1
          then (append_output (label_lines b address out) (format_data [hex_byte byte]), [])
          else (label_lines b address out, [hex_byte byte])).
Proof.
  intros Hbyte Hne. rewrite (data_step_eq _ _ _ _ _ _ byte) by done. cbv zeta.
  unfold label_lines. by destruct (labels_at b address).
Qed.

Lemma data_loop_cons rom b end_address cur (m : nat) acc :
  data_loop rom b end_address (seqZ cur (Z.of_nat (S m))) acc =
    acc' ← data_step rom b end_address acc cur;
    data_loop rom b end_address (seqZ (cur + 1) (Z.of_nat m)) acc'.
Proof.
  rewrite seqZ_cons by lia.
  replace (Z.pred (Z.of_nat (S m))) with (Z.of_nat m) by lia.
  replace (Z.succ cur) with (cur + 1) by lia. done.
Qed.

(** The loop invariant: from a state with no pending values the loop writes
    whole lines; from a state with pending values it first completes their
    line. *)
Lemma data_loop_groups rom b end_address :
  (∀ a l, labelled_addresses b !! a = Some l → l ≠ "") →
  ∀ (m : nat) cur out pending,
  cur + Z.of_nat m = end_address →
  (∀ a, cur ≤ a < end_address → is_Some (byte_at (data rom) a)) →
  (length pending < 16)%nat →
  match pending with
  | [] =>
      ∃ groups,
        data_loop rom b end_address (seqZ cur (Z.of_nat m)) (out, [])
          = Some (render_groups rom b cur groups out, [])
        ∧ groups_ok b cur groups ∧ sum_list groups = m
  | _ =>
      (0 < m)%nat →
      ∃ (n : nat) groups,
        data_loop rom b end_address (seqZ cur (Z.of_nat m)) (out, pending)
          = Some (render_groups rom b (cur + Z.of_nat n) groups
                    (append_output out (format_data (pending ++ data_values rom cur n))),
                  [])
        ∧ (length pending + n ≤ 16)%nat
        ∧ (∀ k, 0 ≤ k < Z.of_nat n → labels_at b (cur + k) = [])
        ∧ groups_ok b (cur + Z.of_nat n) groups
        ∧ (n + sum_list groups)%nat = m
  end.
Proof.
  intros Hne. induction m as [|m IH]; intros cur out pending Hend Hbytes Hlen.
  { destruct pending; [|lia]. exists []. by rewrite seqZ_nil. }
  destruct (Hbytes cur) as [byte Hbyte]; [lia|].
  (* the case of no pending values, for any output so far *)
  assert (Hempty : ∀ out0, ∃ groups,
            data_loop rom b end_address (seqZ cur (Z.of_nat (S m))) (out0, [])
              = Some (render_groups rom b cur groups out0, [])
            ∧ groups_ok b cur groups ∧ sum_list groups = S m).
  { intros out0. rewrite data_loop_cons, (data_step_empty _ _ _ _ _ byte) by done.
    destruct (Z.eqb_spec cur (end_address - 1)) as [Hlast|Hmore].
    - assert (m = 0%nat) as -> by lia. exists [1%nat]. simpl.
      rewrite (data_values_cons _ _ _ byte), data_values_0 by done.
      repeat split; lia.
    - simpl. specialize (IH (cur + 1) (label_lines b cur out0) [hex_byte byte]).
      destruct IH as (n & groups & Hloop & Hn & Hint & Hok & Hsum);
        [lia|intros a ?; apply Hbytes; lia|simpl; lia|lia|].
      exists (S n :: groups). rewrite Hloop. simpl render_groups.
      rewrite (data_values_cons _ _ _ byte) by done. simpl in Hn.
      replace (cur + Z.of_nat (S n)) with (cur + 1 + Z.of_nat n) by lia.
      split; [done|]. split; [|simpl; lia]. cbn [groups_ok].
      split; [lia|]. split.
      + intros k Hk. replace (cur + k) with (cur + 1 + (k - 1)) by lia.
        apply Hint. lia.
      + by replace (cur + Z.of_nat (S n)) with (cur + 1 + Z.of_nat n) by lia. }
  destruct pending as [|p ps]; [apply Hempty|]. intros _.
  destruct (labels_at b cur) as [|l ls] eqn:Hlabels.
  - (* no label here: the byte joins the pending values *)
    rewrite data_loop_cons, (data_step_eq _ _ _ _ _ _ byte) by done.
    cbv zeta. rewrite Hlabels.
    destruct (bool_decide (length ((p :: ps) ++ [hex_byte byte]) = 16%nat)
              || (cur =? end_address - 1)) eqn:Hflush.
    + simpl. specialize (IH (cur + 1)
                 (append_output out (format_data ((p :: ps) ++ [hex_byte byte]))) []).
      destruct IH as (groups & Hloop & Hok & Hsum);
        [lia|intros a ?; apply Hbytes; lia|simpl; lia|].
      exists 1%nat, groups. simpl in Hloop. rewrite Hloop.
      rewrite (data_values_cons _ _ _ byte), data_values_0 by done.
      replace (cur + Z.of_nat 1) with (cur + 1) by lia.
      split; [done|]. simpl in Hlen. split; [lia|]. split; [|split; [done|lia]].
      intros k Hk. by replace (cur + k) with cur by lia.
    + apply orb_false_iff in Hflush as [Hfull Hlast].
      apply bool_decide_eq_false in Hfull. apply Z.eqb_neq in Hlast.
      rewrite length_app in Hfull. simpl in Hfull, Hlen.
      simpl. specialize (IH (cur + 1) out ((p :: ps) ++ [hex_byte byte])%list).
      destruct IH as (n & groups & Hloop & Hn & Hint & Hok & Hsum);
        [lia|intros a ?; apply Hbytes; lia|rewrite length_app; simpl; lia|lia|].
      exists (S n), groups. simpl in Hloop. rewrite Hloop.
      rewrite (data_values_cons _ _ _ byte) by done.
      replace (cur + Z.of_nat (S n)) with (cur + 1 + Z.of_nat n) by lia.
      rewrite length_app in Hn. simpl in Hn.
      split; [by rewrite <- app_assoc|]. split; [simpl; lia|].
      split; [|split; [done|lia]].
      intros k Hk. destruct (decide (k = 0)) as [->|]; [by rewrite Z.add_0_r|].
      replace (cur + k) with (cur + 1 + (k - 1)) by lia. apply Hint. lia.
  - (* a label here: the pending values get their own line first *)
    destruct (Hempty (append_output out (format_data (p :: ps))))
      as (groups & Hloop & Hok & Hsum).
    exists 0%nat, groups.
    rewrite data_loop_cons in Hloop |- *.
    rewrite (data_step_empty _ _ _ _ _ byte) in Hloop by done.
    rewrite (data_step_eq _ _ _ _ _ _ byte) by done.
    cbv zeta. rewrite Hlabels. simpl app. simpl length.
    rewrite bool_decide_eq_false_2 by lia. simpl orb.
    rewrite Hloop. rewrite data_values_0. simpl.
    rewrite app_nil_r, Z.add_0_r.
    split; [done|]. simpl in Hlen. split; [lia|]. split; [lia|]. done.
Qed.

Lemma labels_at_explicit b address :
  (∀ a l, labelled_addresses b !! a = Some l → l ≠ "") →
  labels_at b address
  = match labelled_addresses b !! rom_address_to_mem_address address with
    | Some label => [label_line label]
    | None => []
    end.
Proof.
  intros Hne. unfold labels_at, get_labels_for_non_code_address.
  destruct (labelled_addresses b !! _) as [l|] eqn:Hl; [|done].
  specialize (Hne _ _ Hl). by destruct l.
Qed.

Lemma render_groups_lines rom b :
  (∀ a l, labelled_addresses b !! a = Some l → l ≠ "") →
  ∀ groups address out,
  render_groups rom b address groups out = region_lines rom b address groups out.
Proof.
  intros Hne. induction groups as [|n rest IH]; intros address out; [done|].
  cbn [render_groups region_lines]. rewrite IH. f_equal.
  unfold label_lines. rewrite (labels_at_explicit b address Hne).
  by destruct (labelled_addresses b !! _).
Qed.

Lemma groups_ok_lines b :
  (∀ a l, labelled_addresses b !! a = Some l → l ≠ "") →
  ∀ groups address, groups_ok b address groups → lines_ok b address groups.
Proof.
  intros Hne. induction groups as [|n rest IH]; intros address; [done|].
  intros (Hn & Hlab & Hrest). split; [done|]. split; [|by apply IH].
  intros k Hk. specialize (Hlab k Hk). rewrite (labels_at_explicit _ _ Hne) in Hlab.
  by destruct (labelled_addresses b !! _).
Qed.

(** C8: the output of a data region is a sequence of lines that follow each
    other through the region, each a [DB] line with at least 1 and at most
    16 values; the line of a group is preceded by the label of its first
    address, and no later address of a group has a label: whenever a label
    attaches to an address, the values gathered before it have been
    written to a line of their own, however few they are, and the label and
    the line of the following values come after that line. The bytes of
    the region must exist, and no explicit label may be the empty string
    (which makes the source raise). *)
Theorem data_lines_hold_at_most_16_values (rom : ROM) (b : Bank)
    (start_address end_address : Z) :
  (∀ a, start_address ≤ a < end_address → is_Some (byte_at (data rom) a)) →
  (∀ a l, labelled_addresses b !! a = Some l → l ≠ "") →
  ∃ groups,
    process_data_in_range rom b start_address end_address
      = Some (set_output (region_lines rom b start_address groups (output b)) b)
    ∧ lines_ok b start_address groups
    ∧ Z.of_nat (sum_list groups) = Z.max 0 (end_address - start_address).
Proof.
  intros Hbytes Hne. unfold process_data_in_range.
  destruct (decide (start_address ≤ end_address)) as [Hle|Hgt].
  - destruct (data_loop_groups rom b end_address Hne
                (Z.to_nat (end_address - start_address)) start_address (output b) [])
      as (groups & Hloop & Hok & Hsum); [lia|done|simpl; lia|].
    rewrite Z2Nat.id in Hloop by lia.
    exists groups. rewrite Hloop. simpl.
    rewrite <- (render_groups_lines rom b Hne).
    split; [done|]. split; [by apply groups_ok_lines|]. lia.
  - exists []. rewrite seqZ_nil by lia. simpl. split; [by destruct b|]. split; [done|lia].
Qed.

Lemma data_lines_hold_at_most_16_values_witness :
  ∃ groups,
    process_data_in_range (sample_rom (seqZ 0 40))
      (set_labelled_addresses (<[3 := "Foo"]> (<[20 := ".bar"]> ∅)) (Bank_init 0)) 1 22
      = Some (set_output
                (region_lines (sample_rom (seqZ 0 40))
                   (set_labelled_addresses (<[3 := "Foo"]> (<[20 := ".bar"]> ∅))
                      (Bank_init 0))
                   1 groups
                   (output (set_labelled_addresses (<[3 := "Foo"]> (<[20 := ".bar"]> ∅))
                              (Bank_init 0))))
                (set_labelled_addresses (<[3 := "Foo"]> (<[20 := ".bar"]> ∅))
                   (Bank_init 0)))
    ∧ lines_ok (set_labelled_addresses (<[3 := "Foo"]> (<[20 := ".bar"]> ∅))
                   (Bank_init 0)) 1 groups
    ∧ Z.of_nat (sum_list groups) = Z.max 0 (22 - 1).
Proof.
  apply (data_lines_hold_at_most_16_values (sample_rom (seqZ 0 40))
           (set_labelled_addresses (<[3 := "Foo"]> (<[20 := ".bar"]> ∅)) (Bank_init 0))
           1 22).
  - intros a Ha. unfold byte_at. destruct (Z.ltb_spec a 0); [lia|].
    change (data (sample_rom (seqZ 0 40))) with (seqZ 0 40).
    rewrite lookup_seqZ_lt by lia. eauto.
  - intros a l.
    change (labelled_addresses
              (set_labelled_addresses (<[3 := "Foo"]> (<[20 := ".bar"]> ∅)) (Bank_init 0)))
      with (<[3 := "Foo"]> (<[20 := ".bar"]> (∅ : gmap Z string))).
    rewrite !lookup_insert, lookup_empty.
    repeat case_decide; intros [= <-]; discriminate.
Defined.

(** ** C9: explicit labels between 0x8000 and 0xC000 *)

Lemma mem_address_below_8000 address : rom_address_to_mem_address address < 0x8000.
Proof.
  unfold rom_address_to_mem_address. destruct (Z.ltb_spec address 0x4000); [lia|].
  pose proof (Z.mod_pos_bound address 0x4000). lia.
Qed.

Section ram_label.
Variables (address : Z) (label : string).
Hypothesis Haddress : 0x8000 ≤ address < 0xc000.

Lemma get_label_with_label b name m :
  m < 0x8000 →
  get_label_for_instruction_operand (with_label address label b) name m
  = get_label_for_instruction_operand b name m.
Proof using Haddress.
  intros Hm. unfold get_label_for_instruction_operand, with_label. simpl.
  rewrite lookup_insert_ne by lia. done.
Qed.

Lemma add_label_with_label b name m :
  add_label (with_label address label b) name m
  = with_label address label <$> add_label b name m.
Proof.
  unfold add_label, with_label. simpl.
  destruct (target_addresses b !! name); [|done]. simpl. by case_decide.
Qed.

Lemma resolve_operand_label_with_label b st value :
  resolve_operand_label (with_label address label b) st value
  = (λ '(b', st'), (with_label address label b', st'))
      <$> resolve_operand_label b st value.
Proof using Haddress.
  unfold resolve_operand_label. destruct st as [l n v].
  destruct value as [value|]; [|done].
  change (bank_number (with_label address label b)) with (bank_number b).
  change (first_pass (with_label address label b)) with (first_pass b).
  destruct (is_branch_name n && (value <? 0x8000)).
  - case_match; [|done]. destruct (first_pass b).
    + rewrite add_label_with_label. by destruct (add_label b n _).
    + rewrite get_label_with_label by apply mem_address_below_8000.
      destruct (get_label_for_instruction_operand b n _) as [[lbl|]|]; [|done..].
      simpl. by destruct (pop v).
  - destruct (Z.geb_spec value 0xc000); [|done].
    unfold with_label at 1. simpl. rewrite lookup_insert_ne by lia.
    destruct (labelled_addresses b !! value); [|done].
    destruct (last v); [|done]. simpl. by destruct (pop v).
Qed.

Lemma process_operand_with_label rom b pc opcode operand st :
  process_operand rom (with_label address label b) pc opcode operand st
  = (λ '(rom', b', st', brk), (rom', with_label address label b', st', brk))
      <$> process_operand rom b pc opcode operand st.
Proof using Haddress.
  unfold process_operand.
  change (bank_number (with_label address label b)) with (bank_number b).
  destruct (decode_operand _ _ _ _ _ _) as [[[[st1 v] rom1] brk]|]; [|done].
  simpl. destruct brk; [done|].
  rewrite resolve_operand_label_with_label.
  by destruct (resolve_operand_label b st1 v) as [[b1 st2]|].
Qed.

Lemma process_operands_with_label pc opcode operands : ∀ rom b st,
  process_operands rom (with_label address label b) pc opcode operands st
  = (λ '(rom', b', st'), (rom', with_label address label b', st'))
      <$> process_operands rom b pc opcode operands st.
Proof using Haddress.
  induction operands as [|op ops IH]; intros rom b st; simpl; [done|].
  rewrite process_operand_with_label.
  destruct (process_operand rom b pc opcode op st) as [[[[rom1 b1] st1] brk]|]; [|done].
  simpl. destruct brk; [done|]. apply IH.
Qed.

Lemma decode_with_label rom b :
  decode rom (with_label address label b)
  = (λ '(rom', b', opcode, st), (rom', with_label address label b', opcode, st))
      <$> decode rom b.
Proof using Haddress.
  unfold decode. change (pc (with_label address label b)) with (pc b).
  destruct (fetch rom (pc b)) as [[[opcode st] operands]|]; [|done]. simpl.
  destruct (stop_halt _ _ _ _ _) as [[st1 operands1]|]; [|done]. simpl.
  rewrite process_operands_with_label.
  by destruct (process_operands rom b (pc b) opcode operands1 st1) as [[[r1 b1] st2]|].
Qed.

Lemma generated_labels_with_label b names : ∀ m labels,
  generated_labels (with_label address label b) names m labels
  = generated_labels b names m labels.
Proof.
  induction names as [|n names IH]; intros m labels; simpl; [done|].
  destruct (target_addresses b !! n) as [targets|]; [|done].
  case_decide; [|apply IH].
  unfold format_label. simpl. destruct (instruction_label_prefixes !! n); simpl; [|done].
  apply IH.
Qed.

Lemma get_labels_for_address_with_label b m :
  m < 0x8000 →
  get_labels_for_address (with_label address label b) m = get_labels_for_address b m.
Proof using Haddress.
  intros Hm. unfold get_labels_for_address.
  change (labelled_addresses (with_label address label b))
    with (<[address := label]> (labelled_addresses b)).
  rewrite lookup_insert_ne by lia.
  destruct (labelled_addresses b !! m); [done|]. apply generated_labels_with_label.
Qed.

Lemma finish_with_label b st :
  finish (with_label address label b) st = with_label address label <$> finish b st.
Proof using Haddress.
  unfold finish.
  change (first_pass (with_label address label b)) with (first_pass b).
  change (pc (with_label address label b)) with (pc b).
  destruct (first_pass b); [done|].
  change (set_pc (pc b + len st) (with_label address label b))
    with (with_label address label (set_pc (pc b + len st) b)).
  rewrite get_labels_for_address_with_label by apply mem_address_below_8000.
  by destruct (get_labels_for_address (set_pc (pc b + len st) b) _).
Qed.

Lemma disassemble_at_pc_with_label rom b end_address :
  disassemble_at_pc rom (with_label address label b) end_address
  = (λ '(rom', b'), (rom', with_label address label b'))
      <$> disassemble_at_pc rom b end_address.
Proof using Haddress.
  unfold disassemble_at_pc. rewrite decode_with_label.
  change (pc (with_label address label b)) with (pc b).
  destruct (decode rom b) as [[[[rom1 b1] opcode] st]|]; [|done]. simpl.
  rewrite finish_with_label. by destruct (finish b1 _).
Qed.
End ram_label.

(** A load of a RAM address: the explicit label is used for an operand of at
    least [0xC000] and not for one between [0x8000] and [0xC000]. *)
Example ld_hl_labelled_c000 :
  (λ '(r, b), output b)
    <$> disassemble_at_pc (sample_rom [0x21; 0x00; 0xC0; 0x00; 0x00])
          (with_label 0xC000 "wBuffer" (Bank_init 0)) 0x4000
  = Some ["    ld hl, wBuffer"].
Proof. vm_compute. reflexivity. Qed.

Example ld_hl_labelled_a000 :
  (λ '(r, b), output b)
    <$> disassemble_at_pc (sample_rom [0x21; 0x00; 0xA0; 0x00; 0x00])
          (with_label 0xA000 "sCartRam" (Bank_init 0)) 0x4000
  = Some ["    ld hl, $a000"].
Proof. vm_compute. reflexivity. Qed.

(** C9: an explicit label at an address in [0x8000, 0xC000) is written into
    the label table of every bank, and it is never substituted into an
    instruction operand. The label part of the operand loop does nothing for
    an operand value in that range: the branch case needs a value below
    [0x8000], the explicit-label case a value of at least [0xC000]; the
    operand keeps the literal text it was decoded to. And
    [disassemble_at_pc] as a whole runs the same with or without such a
    label: the ROM, the program counter, the recorded targets and the output
    lines are those of the bank without it. *)
Theorem ram_label_below_c000_never_substituted (rom : ROM) (bank address : Z)
    (label : string) (b : Bank) (st : Decoding) (value end_address : Z) :
  0x8000 ≤ address < 0xc000 →
  0x8000 ≤ value < 0xc000 →
  (∃ rom', add_symbol_label rom bank address label = Some rom'
     ∧ ∀ n bn, banks rom !! n = Some bn →
         banks rom' !! n = Some (with_label address label bn)
         ∧ labelled_addresses (with_label address label bn) !! address = Some label)
  ∧ resolve_operand_label b st (Some value) = Some (b, st)
  ∧ disassemble_at_pc rom (with_label address label b) end_address
    = (λ '(rom', b'), (rom', with_label address label b'))
        <$> disassemble_at_pc rom b end_address.
Proof.
  intros Haddr Hvalue. split; [|split].
  - unfold add_symbol_label. destruct (Z.geb_spec address 0x8000); [|lia].
    eexists. split; [done|]. intros n bn Hn. simpl.
    rewrite lookup_fmap, Hn. split; [done|]. apply lookup_insert_eq.
  - unfold resolve_operand_label. destruct st as [l n v].
    destruct (Z.ltb_spec value 0x8000); [lia|]. rewrite andb_false_r.
    destruct (Z.geb_spec value 0xc000); [lia | done].
  - by apply disassemble_at_pc_with_label.
Qed.

Lemma ram_label_below_c000_never_substituted_witness :
  (∃ rom', add_symbol_label
             (set_banks (<[0 := Bank_init 0]> (<[1 := Bank_init 1]> ∅))
                (sample_rom [0x21; 0x00; 0xA0; 0x00; 0x00]))
             0 0xA000 "sCartRam" = Some rom'
     ∧ ∀ n bn,
         banks (set_banks (<[0 := Bank_init 0]> (<[1 := Bank_init 1]> ∅))
                  (sample_rom [0x21; 0x00; 0xA0; 0x00; 0x00])) !! n = Some bn →
         banks rom' !! n = Some (with_label 0xA000 "sCartRam" bn)
         ∧ labelled_addresses (with_label 0xA000 "sCartRam" bn) !! 0xA000
           = Some "sCartRam")
  ∧ resolve_operand_label (with_label 0xA000 "sCartRam" (Bank_init 0))
      (mkDecoding 3 "ld" ["hl"; "$a000"]) (Some 0xA000)
    = Some (with_label 0xA000 "sCartRam" (Bank_init 0), mkDecoding 3 "ld" ["hl"; "$a000"])
  ∧ disassemble_at_pc
      (set_banks (<[0 := Bank_init 0]> (<[1 := Bank_init 1]> ∅))
         (sample_rom [0x21; 0x00; 0xA0; 0x00; 0x00]))
      (with_label 0xA000 "sCartRam" (with_label 0xA000 "sCartRam" (Bank_init 0))) 0x4000
    = (λ '(rom', b'), (rom', with_label 0xA000 "sCartRam" b'))
        <$> disassemble_at_pc
              (set_banks (<[0 := Bank_init 0]> (<[1 := Bank_init 1]> ∅))
                 (sample_rom [0x21; 0x00; 0xA0; 0x00; 0x00]))
              (with_label 0xA000 "sCartRam" (Bank_init 0)) 0x4000.
Proof.
  apply (ram_label_below_c000_never_substituted _ 0 0xA000 "sCartRam"); lia.
Defined.

(** * Further properties *)

(** ** Addresses *)

(** X1: the ROM addresses [Bank.disassemble] hands to the region processors
    translate back: for a bank with a non-negative number and a memory
    address [m] of its window, the ROM address [rom_base_address + m] maps to
    [m] again under [rom_address_to_mem_address], and lies in the bank of
    that number (the quotient by [0x4000] that the decoder uses as the
    target bank of a relative branch). *)
Theorem bank_window_round_trip (number m : Z) :
  0 ≤ number →
  memory_base_address (Bank_init number) ≤ m
    < memory_base_address (Bank_init number) + 0x4000 →
  rom_address_to_mem_address (rom_base_address (Bank_init number) + m) = m
  ∧ (rom_base_address (Bank_init number) + m) `div` 0x4000 = number.
Proof.
  intros Hn. rewrite Bank_init_base.
  assert (Hrom : rom_base_address (Bank_init number)
                 = if number =? 0 then 0 else (number - 1) * 0x4000).
  { unfold Bank_init, add_block. simpl. by case_match. }
  rewrite Hrom. unfold rom_address_to_mem_address.
  destruct (Z.eqb_spec number 0) as [->|Hne]; intros Hm.
  - rewrite Z.add_0_l. destruct (Z.ltb_spec m 0x4000); [|lia].
    split; [done|]. apply Z.div_small. lia.
  - destruct (Z.ltb_spec ((number - 1) * 0x4000 + m) 0x4000); [lia|].
    replace ((number - 1) * 0x4000 + m) with ((m - 0x4000) + number * 0x4000) by lia.
    rewrite Z.mod_add, Z.div_add by lia.
    rewrite Z.mod_small, Z.div_small by lia. lia.
Qed.

Lemma bank_window_round_trip_witness :
  rom_address_to_mem_address (rom_base_address (Bank_init 3) + 0x4150) = 0x4150
  ∧ (rom_base_address (Bank_init 3) + 0x4150) `div` 0x4000 = 3.
Proof. apply (bank_window_round_trip 3 0x4150); [lia|]. simpl. lia. Defined.

(** X2: [to_signed] reads a byte as a two's-complement number: the result
    lies in [-128, 128) and is congruent to the byte modulo 256. *)
Theorem to_signed_twos_complement (value : Z) :
  0 ≤ value < 256 →
  -128 ≤ to_signed value < 128 ∧ to_signed value `mod` 256 = value.
Proof.
  intros Hv. unfold to_signed. destruct (Z.gtb_spec value 127).
  - split; [lia|]. replace ((256 - value) * -1) with (value + (-1) * 256) by lia.
    rewrite Z.mod_add by lia. apply Z.mod_small. lia.
  - split; [lia|]. apply Z.mod_small. lia.
Qed.

Lemma to_signed_twos_complement_witness :
  -128 ≤ to_signed 0xFB < 128 ∧ to_signed 0xFB `mod` 256 = 0xFB.
Proof. apply (to_signed_twos_complement 0xFB). lia. Defined.

(** ** Literals *)

Lemma checked_from_spec check n : ∀ v x,
  checked_from check n v = true → v ≤ x < v + Z.of_nat n → check x = true.
Proof.
  induction n as [|n IH]; intros v x Hall Hx; [lia|].
  simpl in Hall. apply andb_true_iff in Hall as [Hv Hrest].
  destruct (decide (x = v)) as [->|]; [done|].
  apply (IH (v + 1)); [done | lia].
Qed.

Lemma hex_byte_checked :
  checked_from
    (λ v, Nat.eqb (String.length (hex_byte v)) 3 && (literal_value (hex_byte v) =? v))
    (Z.to_nat 256) 0 = true.
Proof. by vm_compute. Qed.

Lemma hex_word_checked :
  checked_from
    (λ v, Nat.eqb (String.length (hex_word v)) 5 && (literal_value (hex_word v) =? v))
    (Z.to_nat 65536) 0 = true.
Proof. by vm_compute. Qed.

Lemma hex_byte_value x :
  0 ≤ x < 256 →
  String.length (hex_byte x) = 3%nat ∧ literal_value (hex_byte x) = x.
Proof.
  intros Hx. pose proof (checked_from_spec _ _ 0 x hex_byte_checked) as Hall.
  apply andb_true_iff in Hall as [Hl Hr]; [|lia].
  by apply Nat.eqb_eq in Hl; apply Z.eqb_eq in Hr.
Qed.

Lemma hex_word_value x :
  0 ≤ x < 65536 →
  String.length (hex_word x) = 5%nat ∧ literal_value (hex_word x) = x.
Proof.
  intros Hx. pose proof (checked_from_spec _ _ 0 x hex_word_checked) as Hall.
  apply andb_true_iff in Hall as [Hl Hr]; [|lia].
  by apply Nat.eqb_eq in Hl; apply Z.eqb_eq in Hr.
Qed.

(** X3: for a byte, [hex_byte] writes exactly three characters, and
    different bytes get different literals. *)
Theorem hex_byte_fixed_width_injective (v w : Z) :
  0 ≤ v < 256 → 0 ≤ w < 256 →
  String.length (hex_byte v) = 3%nat ∧ (hex_byte v = hex_byte w → v = w).
Proof.
  intros Hv Hw.
  destruct (hex_byte_value v Hv) as [Hlen Hval]. split; [done|].
  intros Heq. destruct (hex_byte_value w Hw) as [_ Hval']. congruence.
Qed.

Lemma hex_byte_fixed_width_injective_witness :
  String.length (hex_byte 0x0a) = 3%nat ∧ (hex_byte 0x0a = hex_byte 0xa0 → 0x0a = 0xa0).
Proof. apply (hex_byte_fixed_width_injective 0x0a 0xa0); lia. Defined.

(** X4: for a 16-bit value, [hex_word] writes exactly five characters, and
    different values get different literals. *)
Theorem hex_word_fixed_width_injective (v w : Z) :
  0 ≤ v < 65536 → 0 ≤ w < 65536 →
  String.length (hex_word v) = 5%nat ∧ (hex_word v = hex_word w → v = w).
Proof.
  intros Hv Hw.
  destruct (hex_word_value v Hv) as [Hlen Hval]. split; [done|].
  intros Heq. destruct (hex_word_value w Hw) as [_ Hval']. congruence.
Qed.

Lemma hex_word_fixed_width_injective_witness :
  String.length (hex_word 0x0200) = 5%nat
  ∧ (hex_word 0x0200 = hex_word 0x2000 → 0x0200 = 0x2000).
Proof. apply (hex_word_fixed_width_injective 0x0200 0x2000); lia. Defined.

(** ** Output lines *)

(** X5: [append_empty_line_if_none_already] only ever appends: an empty
    output stays empty, any other output ends with an empty line afterwards
    and keeps what it had, and a second call changes nothing, so no two
    separator lines are stacked by it. *)
Theorem empty_line_appended_once (out : list string) :
  out `prefix_of` append_empty_line_if_none_already out
  ∧ last (append_empty_line_if_none_already out)
    = (if decide (out = []) then None else Some "")
  ∧ append_empty_line_if_none_already (append_empty_line_if_none_already out)
    = append_empty_line_if_none_already out.
Proof.
  assert (Hlast : last (append_empty_line_if_none_already out)
                  = if decide (out = []) then None else Some "").
  { unfold append_empty_line_if_none_already.
    destruct (last out) as [l|] eqn:Hl.
    - rewrite decide_False by (by intros ->).
      destruct (String.eqb_spec l "") as [->|Hne]; [done|].
      unfold append_output. apply last_snoc.
    - apply last_None in Hl as ->. done. }
  split; [|split; [exact Hlast|]].
  - unfold append_empty_line_if_none_already.
    destruct (last out) as [l|]; [|done].
    destruct (l =? "")%string; [done|]. by apply prefix_app_r.
  - unfold append_empty_line_if_none_already at 1. rewrite Hlast.
    case_decide as Hd; [by rewrite Hd|]. done.
Qed.

(** ** The target registry *)

Lemma add_label_targets b name address targets :
  target_addresses b !! name = Some targets →
  add_label b name address
  = Some (if decide (address ∈ targets) then b
          else set_target_addresses
                 (<[name := {[address]} ∪ targets]> (target_addresses b)) b).
Proof. intros H. unfold add_label. by rewrite H. Qed.

Lemma is_target_add_label b name address b' n x :
  add_label b name address = Some b' →
  is_target b' n x ↔ is_target b n x ∨ (n = name ∧ x = address).
Proof.
  unfold add_label. destruct (target_addresses b !! name) as [targets|] eqn:Ht; [|done].
  intros [= <-]. unfold is_target. case_decide as Hin.
  - split; [by left|]. intros [H|[-> ->]]; [done|]. eauto.
  - simpl. split.
    + intros (s & Hs & Hx). destruct (decide (name = n)) as [->|Hne].
      * rewrite lookup_insert_eq in Hs. injection Hs as <-.
        apply elem_of_union in Hx as [Hx|Hx].
        -- apply elem_of_singleton in Hx. by right.
        -- left. eauto.
      * rewrite lookup_insert_ne in Hs by done. left. eauto.
    + intros [(s & Hs & Hx)|[-> ->]].
      * destruct (decide (name = n)) as [->|Hne].
        -- rewrite lookup_insert_eq. eexists. split; [done|].
           rewrite Ht in Hs. injection Hs as <-. set_solver.
        -- rewrite lookup_insert_ne by done. eauto.
      * rewrite lookup_insert_eq. eexists. split; [done|]. set_solver.
Qed.

(** X6: [add_label] is a set insertion into the targets of one instruction
    name. When the name is one of the bank's target sets, the call succeeds,
    the recorded targets afterwards are the old ones and the new address,
    nothing else of the bank changes, and recording the same address again
    changes nothing. For any other name the dictionary lookup raises. *)
Theorem add_label_inserts (b : Bank) (name : string) (address : Z) :
  (is_Some (target_addresses b !! name) →
   ∃ b', add_label b name address = Some b'
         ∧ (∀ n x, is_target b' n x ↔ is_target b n x ∨ (n = name ∧ x = address))
         ∧ decode_frame b' = decode_frame b
         ∧ add_label b' name address = Some b')
  ∧ (target_addresses b !! name = None → add_label b name address = None).
Proof.
  split.
  - intros [targets Ht].
    destruct (add_label b name address) as [b'|] eqn:Hadd;
      [|by rewrite (add_label_targets _ _ _ _ Ht) in Hadd].
    exists b'. split; [done|]. split; [|split].
    + intros n x. by apply is_target_add_label.
    + by eapply add_label_frame.
    + rewrite (add_label_targets _ _ _ _ Ht) in Hadd. injection Hadd as <-.
      case_decide as Hin.
      * rewrite (add_label_targets _ _ _ _ Ht). by rewrite decide_True.
      * erewrite add_label_targets; [|simpl; apply lookup_insert_eq].
        rewrite decide_True by set_solver. done.
  - intros Hnone. unfold add_label. by rewrite Hnone.
Qed.

Lemma add_label_inserts_witness :
  ∃ b', add_label (Bank_init 0) "call" 0x200 = Some b'
        ∧ (∀ n x, is_target b' n x
                  ↔ is_target (Bank_init 0) n x ∨ (n = "call" ∧ x = 0x200))
        ∧ decode_frame b' = decode_frame (Bank_init 0)
        ∧ add_label b' "call" 0x200 = Some b'.
Proof.
  apply (add_label_inserts (Bank_init 0) "call" 0x200).
  exists ∅. by vm_compute.
Defined.

(** ** Labels *)

Lemma targets_ready_init number : targets_ready (Bank_init number).
Proof.
  intros name Hname. unfold Bank_init, add_block. simpl. case_match; simpl;
    repeat (apply elem_of_cons in Hname as [->|Hname]; [by eexists|]);
    by apply elem_of_nil in Hname.
Qed.

Lemma label_prefix_names name prefix :
  instruction_label_prefixes !! name = Some prefix →
  name ∈ ["call"; "jp"; "jr"].
Proof.
  unfold instruction_label_prefixes. rewrite !lookup_insert, lookup_empty.
  repeat case_decide; subst; try done; set_solver.
Qed.

(** The generated label of [name] is among the label lines of an address
    recorded under [name]. *)
Lemma generated_labels_defines b name address targets label :
  targets_ready b →
  target_addresses b !! name = Some targets → address ∈ targets →
  format_label b name address = Some label →
  ∃ lines, generated_labels b ["call"; "jp"; "jr"] address [] = Some lines
           ∧ label +:+ ":" ∈ lines.
Proof.
  intros Hready Ht Hin Hlabel.
  assert (Hname : name ∈ ["call"; "jp"; "jr"]).
  { unfold format_label in Hlabel.
    destruct (instruction_label_prefixes !! name) eqn:Hp; [|done].
    by eapply label_prefix_names. }
  destruct (Hready "call") as [tc Hc]; [set_solver|].
  destruct (Hready "jp") as [tj Hj]; [set_solver|].
  destruct (Hready "jr") as [tr Hr]; [set_solver|].
  simpl. rewrite Hc, Hj, Hr.
  assert (Hfmt : ∀ n, n ∈ ["call"; "jp"; "jr"] → is_Some (format_label b n address)).
  { intros n Hn. unfold format_label.
    repeat (apply elem_of_cons in Hn as [->|Hn]; [by eexists|]).
    by apply elem_of_nil in Hn. }
  destruct (Hfmt "call") as [lc Hlc]; [set_solver|].
  destruct (Hfmt "jp") as [lj Hlj]; [set_solver|].
  destruct (Hfmt "jr") as [lr Hlr]; [set_solver|].
  rewrite Hlc, Hlj, Hlr.
  repeat (apply elem_of_cons in Hname as [->|Hname]);
    [| | |by apply elem_of_nil in Hname].
  - rewrite Ht in Hc. rewrite Hlabel in Hlc. injection Hc as <-. injection Hlc as <-.
    repeat case_decide; try done; simpl; eexists; (split; [done|]);
      repeat rewrite elem_of_cons; auto.
  - rewrite Ht in Hj. rewrite Hlabel in Hlj. injection Hj as <-. injection Hlj as <-.
    repeat case_decide; try done; simpl; eexists; (split; [done|]);
      repeat rewrite elem_of_cons; auto.
  - rewrite Ht in Hr. rewrite Hlabel in Hlr. injection Hr as <-. injection Hlr as <-.
    repeat case_decide; try done; simpl; eexists; (split; [done|]);
      repeat rewrite elem_of_cons; auto.
Qed.

(** X7: a label used for an operand is defined. If
    [get_label_for_instruction_operand] returns a label for an address (in a
    bank that has its three target sets and no empty explicit label), then
    [get_labels_for_address] succeeds for that address and its lines contain
    that label followed by [:] or [::]: the line written in front of the
    instruction when the second pass reaches the address. *)
Theorem operand_label_is_defined (b : Bank) (name : string) (address : Z)
    (label : string) :
  targets_ready b →
  (∀ a l, labelled_addresses b !! a = Some l → l ≠ "") →
  get_label_for_instruction_operand b name address = Some (Some label) →
  address ∈ disassembled_addresses b
  ∧ ∃ lines, get_labels_for_address b address = Some lines
             ∧ (label +:+ ":" ∈ lines ∨ label +:+ "::" ∈ lines).
Proof.
  intros Hready Hne. unfold get_label_for_instruction_operand, get_labels_for_address.
  case_decide as Hdis; [|done]. intros Hget. split; [done|].
  destruct (labelled_addresses b !! address) as [l|] eqn:Hl.
  - injection Hget as ->. specialize (Hne _ _ Hl).
    destruct label as [|c rest]; [done|]. simpl.
    eexists. split; [done|]. destruct (Ascii.eqb c "."); set_solver.
  - destruct (target_addresses b !! name) as [targets|] eqn:Ht; [|done].
    case_decide as Hin; [|done].
    destruct (format_label b name address) as [lbl|] eqn:Hf; [|done].
    injection Hget as ->.
    destruct (generated_labels_defines b name address targets label)
      as (lines & Hlines & Hmem); [done..|].
    exists lines. split; [done|]. by left.
Qed.

Lemma operand_label_is_defined_witness :
  0x200 ∈ disassembled_addresses
            (set_disassembled_addresses {[0x200]}
               (set_target_addresses
                  (<["call" := {[0x200]}]> (target_addresses (Bank_init 0)))
                  (Bank_init 0)))
  ∧ ∃ lines,
      get_labels_for_address
        (set_disassembled_addresses {[0x200]}
           (set_target_addresses
              (<["call" := {[0x200]}]> (target_addresses (Bank_init 0)))
              (Bank_init 0))) 0x200 = Some lines
      ∧ ("Call_000_0200" +:+ ":" ∈ lines ∨ "Call_000_0200" +:+ "::" ∈ lines).
Proof.
  apply (operand_label_is_defined _ "call" 0x200 "Call_000_0200").
  - intros name Hname.
    repeat (apply elem_of_cons in Hname as [->|Hname]; [by eexists|]).
    by apply elem_of_nil in Hname.
  - intros a l. simpl. by rewrite lookup_empty.
  - by vm_compute.
Defined.

Lemma string_app_inv_head (s x y : string) : s +:+ x = s +:+ y → x = y.
Proof. induction s as [|c s IH]; simpl; [done|]. intros [= H]. by apply IH. Qed.

(** X8: generated label names do not collide. Within one bank, the names
    that [format_label] builds for two targets with 16-bit addresses are
    equal only if the instruction names and the addresses are. *)
Theorem generated_labels_distinct (b : Bank) (name1 name2 : string)
    (address1 address2 : Z) (label : string) :
  0 ≤ address1 < 65536 → 0 ≤ address2 < 65536 →
  format_label b name1 address1 = Some label →
  format_label b name2 address2 = Some label →
  name1 = name2 ∧ address1 = address2.
Proof.
  intros Ha1 Ha2 H1 H2.
  assert (Haddr : format_hex 4 address1 = format_hex 4 address2 → address1 = address2).
  { intros Heq. destruct (hex_word_value address1 Ha1) as [_ Hv1].
    destruct (hex_word_value address2 Ha2) as [_ Hv2].
    unfold hex_word in Hv1, Hv2. rewrite Heq in Hv1. congruence. }
  assert (Hn1 : name1 ∈ ["call"; "jp"; "jr"]).
  { unfold format_label in H1.
    destruct (instruction_label_prefixes !! name1) eqn:Hp; [|done].
    by eapply label_prefix_names. }
  assert (Hn2 : name2 ∈ ["call"; "jp"; "jr"]).
  { unfold format_label in H2.
    destruct (instruction_label_prefixes !! name2) eqn:Hp; [|done].
    by eapply label_prefix_names. }
  rewrite <- H1 in H2. clear H1. unfold format_label in H2.
  repeat (apply elem_of_cons in Hn1 as [->|Hn1]);
    [| | |by apply elem_of_nil in Hn1];
    (repeat (apply elem_of_cons in Hn2 as [->|Hn2]);
       [| | |by apply elem_of_nil in Hn2]);
    vm_compute instruction_label_prefixes in H2; simpl in H2;
    try discriminate H2;
    (split; [done|]); injection H2 as H2;
    apply string_app_inv_head in H2; injection H2 as H2; by apply Haddr.
Qed.

Lemma generated_labels_distinct_witness :
  "call" = "call" ∧ 0x200 = 0x200.
Proof.
  apply (generated_labels_distinct (Bank_init 0) "call" "call" 0x200 0x200 "Call_000_0200");
    (lia || by vm_compute).
Defined.

(** ** What one decoding step can change *)

Lemma flagged_refl rom : flagged rom rom.
Proof. by left. Qed.

Lemma flagged_trans rom1 rom2 rom3 :
  flagged rom1 rom2 → flagged rom2 rom3 → flagged rom1 rom3.
Proof. intros [->| ->] [->| ->]; unfold flagged; auto. Qed.

Lemma decode_operand_effect rom number pc opcode operand st st' value rom' brk :
  decode_operand rom number pc opcode operand st = Some (st', value, rom', brk) →
  len st ≤ len st' ≤ len st + 2 ∧ flagged rom rom'.
Proof.
  intros H0.
  pose proof (f_equal (λ o : option (Decoding * option Z * ROM * bool),
                         match o with
                         | Some (s, _, r, _) => Some (len s, r)
                         | None => None
                         end) H0) as H.
  clear H0. unfold decode_operand, flagged in *. destruct st as [l n v].
  repeat (match type of H with
          | context [String.eqb operand ?s] => destruct (String.eqb operand s)
          end).
  all: repeat (match type of H with
               | context [word_at ?d ?p] => destruct (word_at d p)
               | context [byte_at ?d ?p] => destruct (byte_at d p)
               end; cbn [mbind option_bind] in H).
  all: cbv zeta in H.
  all: repeat (match type of H with
               | context [if ?c then _ else _] => destruct c
               | context [pop ?x] => destruct (pop x)
               end; cbn [mbind option_bind] in H).
  all: try discriminate H.
  all: cbv beta iota in H.
  all: injection H as H1 H2.
  all: cbn [len] in H1 |- *.
  all: (split; [lia | auto]).
Qed.

Lemma resolve_operand_label_second_pass b st value b' st' :
  first_pass b = false →
  resolve_operand_label b st value = Some (b', st') → b' = b.
Proof.
  unfold resolve_operand_label. destruct st as [l n v]. intros Hpass H.
  rewrite Hpass in H. destruct value as [value|]; [|by injection H as <- _].
  destruct (is_branch_name n && (value <? 0x8000)).
  - match type of H with (if ?c then _ else _) = _ => destruct c end;
      [|by injection H as <- _].
    destruct (get_label_for_instruction_operand b n _) as [[lbl|]|];
      [|by injection H as <- _|discriminate H].
    cbn [mbind option_bind] in H.
    destruct (pop v); [|discriminate H]. by injection H as <- _.
  - destruct (value >=? 0xc000); [|by injection H as <- _].
    destruct (labelled_addresses b !! value); [|by injection H as <- _].
    destruct (last v); [|discriminate H]. cbn [mbind option_bind] in H.
    destruct (pop v); [|discriminate H]. by injection H as <- _.
Qed.

Lemma resolve_operand_label_first_pass b st value b' st' :
  first_pass b = true →
  resolve_operand_label b st value = Some (b', st') →
  (∀ n x, is_target b n x → is_target b' n x)
  ∧ (∀ v, value = Some v → v < 0xc000 → st' = st).
Proof.
  unfold resolve_operand_label. destruct st as [l n v]. intros Hpass H.
  rewrite Hpass in H. destruct value as [value|]; [|by injection H as <- <-].
  destruct (is_branch_name n && (value <? 0x8000)).
  - match type of H with (if ?c then _ else _) = _ => destruct c end;
      [|by injection H as <- <-].
    destruct (add_label b n _) as [b1|] eqn:Hadd; [|done].
    cbn [mbind option_bind] in H.
    injection H as <- <-. split; [|done].
    intros n' x Ht. apply (is_target_add_label _ _ _ _ n' x Hadd). by left.
  - split.
    + destruct (value >=? 0xc000); [|by injection H as <- _].
      destruct (labelled_addresses b !! value); [|by injection H as <- _].
      destruct (last v); [|discriminate H]. cbn [mbind option_bind] in H.
      destruct (pop v); [|discriminate H]. by injection H as <- _.
    + intros v' [= <-] Hv'. destruct (Z.geb_spec value 0xc000); [lia|].
      by injection H as _ <-.
Qed.

Lemma resolve_operand_label_targets b st value b' st' :
  resolve_operand_label b st value = Some (b', st') →
  ∀ n x, is_target b n x → is_target b' n x.
Proof.
  intros H. destruct (first_pass b) eqn:Hpass.
  - by apply (resolve_operand_label_first_pass _ _ _ _ _ Hpass H).
  - by rewrite (resolve_operand_label_second_pass _ _ _ _ _ Hpass H).
Qed.

Lemma process_operand_effect rom b pc opcode operand st rom' b' st' brk :
  process_operand rom b pc opcode operand st = Some (rom', b', st', brk) →
  len st ≤ len st' ≤ len st + 2 ∧ flagged rom rom'
  ∧ (first_pass b = false → b' = b)
  ∧ (∀ n x, is_target b n x → is_target b' n x).
Proof.
  unfold process_operand. intros H.
  destruct (decode_operand _ _ _ _ _ _) as [[[[st1 v] rom1] brk1]|] eqn:Hd; [|done].
  apply decode_operand_effect in Hd as [Hlen Hrom]. simpl in H.
  destruct brk1; [injection H as <- <- <- <-; done|].
  destruct (resolve_operand_label b st1 v) as [[b1 st2]|] eqn:Hl; [|done].
  simpl in H. injection H as <- <- <- <-.
  pose proof (resolve_operand_label_frame _ _ _ _ _ Hl) as (_ & Hlen2 & _).
  split; [lia|]. split; [done|]. split.
  - intros Hpass. by eapply resolve_operand_label_second_pass.
  - by eapply resolve_operand_label_targets.
Qed.

Lemma process_operands_effect pc opcode operands : ∀ rom b st rom' b' st',
  process_operands rom b pc opcode operands st = Some (rom', b', st') →
  len st ≤ len st' ∧ flagged rom rom'
  ∧ (first_pass b = false → b' = b)
  ∧ (∀ n x, is_target b n x → is_target b' n x).
Proof.
  induction operands as [|op ops IH]; intros rom b st rom' b' st' H; simpl in H.
  - injection H as <- <- <-. split; [lia|]. split; [by left|]. done.
  - destruct (process_operand _ _ _ _ _ _) as [[[[rom1 b1] st1] brk]|] eqn:Hop; [|done].
    simpl in H.
    pose proof (process_operand_frame _ _ _ _ _ _ _ _ _ _ Hop) as Hframe.
    apply process_operand_effect in Hop as (Hlen & Hrom & Hpass & Htargets).
    destruct brk.
    + injection H as <- <- <-. split; [lia|]. done.
    + apply IH in H as (Hlen' & Hrom' & Hpass' & Htargets').
      split; [lia|]. split; [by eapply flagged_trans|]. split.
      * intros Hp. rewrite <- (Hpass Hp). apply Hpass'.
        injection Hframe as _ _ _ _ _ _ -> _ _. done.
      * auto.
Qed.

Lemma fetch_len rom pc opcode st operands :
  fetch rom pc = Some (opcode, st, operands) → 1 ≤ len st.
Proof.
  intros H0.
  pose proof (f_equal (λ o : option (Z * Decoding * list string),
                         match o with
                         | Some (_, s, _) => Some (len s)
                         | None => None
                         end) H0) as H.
  clear H0. unfold fetch in H.
  destruct (byte_at (data rom) pc) as [opc|]; [|discriminate H].
  cbn [mbind option_bind] in H. case_decide; [discriminate H|].
  destruct (opc =? 0xCB).
  - destruct (byte_at (data rom) (pc + 1)) as [cb|]; [|discriminate H].
    cbn [mbind option_bind] in H.
    destruct (cb_instruction_name rom !! cb); [|discriminate H].
    cbn [mbind option_bind] in H.
    destruct (cb_instruction_operands rom !! cb); [|discriminate H].
    cbn [mbind option_bind len] in H. injection H as <-. lia.
  - destruct (instruction_names rom !! opc); [|discriminate H].
    cbn [mbind option_bind] in H.
    destruct (instruction_operands rom !! opc); [|discriminate H].
    cbn [mbind option_bind len] in H. injection H as <-. lia.
Qed.

Lemma stop_halt_len rom pc opcode st operands st' operands' :
  stop_halt rom pc opcode st operands = Some (st', operands') → len st ≤ len st'.
Proof.
  unfold stop_halt. intros H.
  match type of H with (if ?c then _ else _) = _ => destruct c end;
    [|injection H as <- _; lia].
  destruct (byte_at (data rom) (pc + 1)) as [next|]; [|discriminate H].
  cbn [mbind option_bind] in H.
  destruct (next =? 0); injection H as <- _; cbn [len]; lia.
Qed.

Lemma decode_effect rom b rom' b' opcode st :
  decode rom b = Some (rom', b', opcode, st) →
  1 ≤ len st ∧ flagged rom rom'
  ∧ (first_pass b = false → b' = b)
  ∧ (∀ n x, is_target b n x → is_target b' n x).
Proof.
  unfold decode. intros H.
  destruct (fetch rom (pc b)) as [[[opc st0] ops]|] eqn:Hf; [|done]. simpl in H.
  destruct (stop_halt _ _ _ _ _) as [[st1 ops1]|] eqn:Hs; [|done]. simpl in H.
  destruct (process_operands _ _ _ _ _ _) as [[[rom1 b1] st2]|] eqn:Hops; [|done].
  simpl in H. injection H as <- <- <- <-.
  apply process_operands_effect in Hops as (Hlen & Hrom & Hpass & Htargets).
  split; [|done].
  apply fetch_len in Hf. apply stop_halt_len in Hs. lia.
Qed.

Lemma append_empty_line_prefix out :
  out `prefix_of` append_empty_line_if_none_already out.
Proof.
  unfold append_empty_line_if_none_already.
  destruct (last out) as [l|]; [|done].
  destruct (l =? "")%string; [done|]. by apply prefix_app_r.
Qed.

Lemma append_labels_prefix out labels :
  out `prefix_of` append_labels_to_output out labels.
Proof.
  unfold append_labels_to_output, append_output.
  etrans; [apply append_empty_line_prefix|]. by apply prefix_app_r.
Qed.

Lemma finish_effect b st b'' :
  finish b st = Some b'' →
  pc b'' = pc b + len st
  ∧ settings b'' = settings b
  ∧ target_addresses b'' = target_addresses b
  ∧ output b `prefix_of` output b''
  ∧ if first_pass b
    then output b'' = output b
         ∧ disassembled_addresses b''
           = {[rom_address_to_mem_address (pc b)]} ∪ disassembled_addresses b
    else disassembled_addresses b'' = disassembled_addresses b.
Proof.
  unfold finish. destruct (first_pass b) eqn:Hpass.
  - intros [= <-]. unfold settings. simpl. done.
  - destruct (get_labels_for_address _ _) as [labels|]; [|done].
    cbn [mbind option_bind]. intros [= <-]. unfold settings. simpl.
    split; [done|]. split; [done|]. split; [done|]. split; [|done].
    unfold append_output. rewrite <- app_assoc. apply prefix_app_r.
    destruct labels; [done|]. apply append_labels_prefix.
Qed.

Lemma flagged_same_image rom rom' : flagged rom rom' → same_image rom rom'.
Proof. by intros [-> | ->]. Qed.

Lemma flagged_has_ld_long rom rom' :
  flagged rom rom' → has_ld_long rom = true → has_ld_long rom' = true.
Proof. by intros [-> | ->]. Qed.

(** ** One instruction *)

(** X9: [disassemble_at_pc] always moves the program counter forward, by
    at least one byte, and from a program counter inside the region it never
    moves it past [end_address]: no instruction is taken across the end of
    its region. *)
Theorem disassemble_at_pc_advances_within_region (rom : ROM) (b : Bank)
    (end_address : Z) (rom' : ROM) (b' : Bank) :
  disassemble_at_pc rom b end_address = Some (rom', b') →
  pc b < pc b' ∧ (pc b < end_address → pc b' ≤ end_address).
Proof.
  unfold disassemble_at_pc. intros H.
  destruct (decode rom b) as [[[[rom1 b1] opcode] st]|] eqn:Hd; [|done].
  cbn [mbind option_bind] in H.
  destruct (finish b1 _) as [b2|] eqn:Hfin; [|done].
  cbn [mbind option_bind] in H. injection H as <- <-.
  pose proof (decode_decode_frame _ _ _ _ _ _ Hd) as Hframe.
  injection Hframe as _ _ _ _ _ _ _ _ Hpc.
  apply decode_effect in Hd as (Hlen & _).
  apply finish_effect in Hfin as (Hpc2 & _).
  rewrite Hpc2, Hpc, check_span_decide. case_decide; simpl; lia.
Qed.

Lemma disassemble_at_pc_advances_within_region_witness :
  pc (Bank_init 0) < pc (set_output ["    DB $ea"] (set_pc 1 (Bank_init 0)))
  ∧ (pc (Bank_init 0) < 2 →
     pc (set_output ["    DB $ea"] (set_pc 1 (Bank_init 0))) ≤ 2).
Proof.
  apply (disassemble_at_pc_advances_within_region
           (sample_rom [0xEA; 0x40; 0xFF; 0x00; 0x00]) (Bank_init 0) 2
           (set_has_ld_long true (sample_rom [0xEA; 0x40; 0xFF; 0x00; 0x00]))).
  by vm_compute.
Defined.

(** X10: decoding never changes the image. The ROM that
    [disassemble_at_pc] leaves has the bytes and the opcode tables of the
    ROM it was given; of the flag [has_ld_long] it can only be said that it
    is never cleared. *)
Theorem disassemble_at_pc_keeps_rom (rom : ROM) (b : Bank) (end_address : Z)
    (rom' : ROM) (b' : Bank) :
  disassemble_at_pc rom b end_address = Some (rom', b') →
  same_image rom rom'
  ∧ (has_ld_long rom' = has_ld_long rom ∨ has_ld_long rom' = true)
  ∧ (has_ld_long rom = true → has_ld_long rom' = true).
Proof.
  unfold disassemble_at_pc. intros H.
  destruct (decode rom b) as [[[[rom1 b1] opcode] st]|] eqn:Hd; [|done].
  cbn [mbind option_bind] in H.
  destruct (finish b1 _) as [b2|]; [|done].
  cbn [mbind option_bind] in H. injection H as <- <-.
  apply decode_effect in Hd as (_ & Hrom & _).
  split; [by apply flagged_same_image|].
  destruct Hrom as [-> | ->]; split; auto.
Qed.

Lemma disassemble_at_pc_keeps_rom_witness :
  same_image (sample_rom [0xEA; 0x40; 0xFF; 0x00; 0x00])
    (set_has_ld_long true (sample_rom [0xEA; 0x40; 0xFF; 0x00; 0x00]))
  ∧ (has_ld_long (set_has_ld_long true (sample_rom [0xEA; 0x40; 0xFF; 0x00; 0x00]))
     = has_ld_long (sample_rom [0xEA; 0x40; 0xFF; 0x00; 0x00])
     ∨ has_ld_long (set_has_ld_long true (sample_rom [0xEA; 0x40; 0xFF; 0x00; 0x00]))
       = true)
  ∧ (has_ld_long (sample_rom [0xEA; 0x40; 0xFF; 0x00; 0x00]) = true →
     has_ld_long (set_has_ld_long true (sample_rom [0xEA; 0x40; 0xFF; 0x00; 0x00])) = true).
Proof.
  apply (disassemble_at_pc_keeps_rom
           (sample_rom [0xEA; 0x40; 0xFF; 0x00; 0x00]) (Bank_init 0) 2
           (set_has_ld_long true (sample_rom [0xEA; 0x40; 0xFF; 0x00; 0x00]))
           (set_output ["    DB $ea"] (set_pc 1 (Bank_init 0)))).
  by vm_compute.
Defined.

(** X11: the two passes of [disassemble_at_pc]. In either pass the bank
    number, the blocks, the explicit labels and the base addresses stay,
    the output only grows at its end, and recorded targets and instruction
    starts are never lost. The first pass writes no output and records the
    instruction's address as an instruction start; the second pass records
    nothing: targets and instruction starts are exactly those it found. *)
Theorem disassemble_at_pc_passes (rom : ROM) (b : Bank) (end_address : Z)
    (rom' : ROM) (b' : Bank) :
  disassemble_at_pc rom b end_address = Some (rom', b') →
  settings b' = settings b
  ∧ output b `prefix_of` output b'
  ∧ (∀ n x, is_target b n x → is_target b' n x)
  ∧ disassembled_addresses b ⊆ disassembled_addresses b'
  ∧ if first_pass b
    then output b' = output b
         ∧ disassembled_addresses b'
           = {[rom_address_to_mem_address (pc b)]} ∪ disassembled_addresses b
    else target_addresses b' = target_addresses b
         ∧ disassembled_addresses b' = disassembled_addresses b.
Proof.
  unfold disassemble_at_pc. intros H.
  destruct (decode rom b) as [[[[rom1 b1] opcode] st]|] eqn:Hd; [|done].
  cbn [mbind option_bind] in H.
  destruct (finish b1 _) as [b2|] eqn:Hfin; [|done].
  cbn [mbind option_bind] in H. injection H as <- <-.
  pose proof (decode_decode_frame _ _ _ _ _ _ Hd) as Hframe.
  injection Hframe as Hnum Hblocks Hdis Hlab Hbase Hrbase Hpass Hout Hpc.
  apply decode_effect in Hd as (_ & _ & Hsame & Htargets).
  apply finish_effect in Hfin as (_ & Hset & Htar & Hprefix & Hfin).
  rewrite Hpass, Hpc, Hdis in Hfin. rewrite Hout in Hprefix.
  split; [rewrite Hset; unfold settings; congruence|]. split; [done|]. split.
  { intros n x Ht. apply Htargets in Ht. unfold is_target in *. by rewrite Htar. }
  destruct (first_pass b).
  - destruct Hfin as [Ho Hd]. rewrite Ho, Hd, Hout. split; [set_solver|done].
  - rewrite Hfin, Htar. split; [done|]. by rewrite (Hsame eq_refl).
Qed.

Lemma disassemble_at_pc_passes_witness :
  settings (set_output ["    DB $ea"] (set_pc 1 (Bank_init 0))) = settings (Bank_init 0)
  ∧ output (Bank_init 0)
      `prefix_of` output (set_output ["    DB $ea"] (set_pc 1 (Bank_init 0)))
  ∧ (∀ n x, is_target (Bank_init 0) n x →
            is_target (set_output ["    DB $ea"] (set_pc 1 (Bank_init 0))) n x)
  ∧ disassembled_addresses (Bank_init 0)
      ⊆ disassembled_addresses (set_output ["    DB $ea"] (set_pc 1 (Bank_init 0)))
  ∧ if first_pass (Bank_init 0)
    then output (set_output ["    DB $ea"] (set_pc 1 (Bank_init 0))) = output (Bank_init 0)
         ∧ disassembled_addresses (set_output ["    DB $ea"] (set_pc 1 (Bank_init 0)))
           = {[rom_address_to_mem_address (pc (Bank_init 0))]}
               ∪ disassembled_addresses (Bank_init 0)
    else target_addresses (set_output ["    DB $ea"] (set_pc 1 (Bank_init 0)))
         = target_addresses (Bank_init 0)
         ∧ disassembled_addresses (set_output ["    DB $ea"] (set_pc 1 (Bank_init 0)))
           = disassembled_addresses (Bank_init 0).
Proof.
  apply (disassemble_at_pc_passes
           (sample_rom [0xEA; 0x40; 0xFF; 0x00; 0x00]) (Bank_init 0) 2
           (set_has_ld_long true (sample_rom [0xEA; 0x40; 0xFF; 0x00; 0x00]))
           (set_output ["    DB $ea"] (set_pc 1 (Bank_init 0)))).
  by vm_compute.
Defined.

(** ** A code region *)

Lemma carried_on_refl b : carried_on b b.
Proof. by repeat split. Qed.

Lemma carried_on_trans b1 b2 b3 :
  carried_on b1 b2 → carried_on b2 b3 → carried_on b1 b3.
Proof.
  intros (Hs1 & Hp1 & Ht1 & Hd1 & Hr1) (Hs2 & Hp2 & Ht2 & Hd2 & Hr2).
  split; [congruence|]. split; [by etrans|]. split; [auto|]. split; [set_solver|].
  intros Hpass. destruct (Hr1 Hpass) as [Ha Hb].
  assert (Hpass2 : first_pass b2 = false).
  { injection Hs1 as _ _ _ _ _ ->. done. }
  destruct (Hr2 Hpass2) as [Hc Hd]. split; congruence.
Qed.

Lemma settings_first_pass b b' : settings b' = settings b → first_pass b' = first_pass b.
Proof. by intros [= _ _ _ _ _ ->]. Qed.

Lemma disassemble_at_pc_step rom b end_address rom' b' :
  disassemble_at_pc rom b end_address = Some (rom', b') →
  pc b < pc b' ∧ (pc b < end_address → pc b' ≤ end_address)
  ∧ flagged rom rom' ∧ carried_on b b'
  ∧ (first_pass b = true →
     output b' = output b
     ∧ disassembled_addresses b'
       = {[rom_address_to_mem_address (pc b)]} ∪ disassembled_addresses b).
Proof.
  unfold disassemble_at_pc. intros H.
  destruct (decode rom b) as [[[[rom1 b1] opcode] st]|] eqn:Hd; [|done].
  cbn [mbind option_bind] in H.
  destruct (finish b1 _) as [b2|] eqn:Hfin; [|done].
  cbn [mbind option_bind] in H. injection H as <- <-.
  pose proof (decode_decode_frame _ _ _ _ _ _ Hd) as Hframe.
  injection Hframe as Hnum Hblocks Hdis Hlab Hbase Hrbase Hpass Hout Hpc.
  apply decode_effect in Hd as (Hlen & Hrom & Hsame & Htargets).
  apply finish_effect in Hfin as (Hpc2 & Hset & Htar & Hprefix & Hfin).
  rewrite Hpass, Hpc, Hdis in Hfin. rewrite Hout in Hprefix.
  split; [rewrite Hpc2, Hpc, check_span_decide; case_decide; simpl; lia|].
  split; [rewrite Hpc2, Hpc, check_span_decide; case_decide; simpl; lia|].
  split; [done|]. split.
  - split; [rewrite Hset; unfold settings; congruence|]. split; [done|]. split.
    { intros n x Ht. apply Htargets in Ht. unfold is_target in *. by rewrite Htar. }
    destruct (first_pass b).
    + destruct Hfin as [_ ->]. split; [set_solver|done].
    + rewrite Hfin. split; [done|]. intros _. by rewrite Htar, (Hsame eq_refl).
  - intros Hp. rewrite Hp in Hfin. destruct Hfin as [-> ->]. by rewrite Hout.
Qed.

Lemma code_loop_effect fuel : ∀ rom b end_address rom' b',
  code_loop fuel rom b end_address = Some (rom', b') →
  flagged rom rom' ∧ carried_on b b'
  ∧ pc b ≤ pc b'
  ∧ (pc b ≤ end_address → end_address - pc b ≤ Z.of_nat fuel → pc b' = end_address)
  ∧ (first_pass b = true →
     output b' = output b
     ∧ disassembled_addresses b'
       = list_to_set (rom_address_to_mem_address
                        <$> code_starts fuel rom b end_address)
         ∪ disassembled_addresses b).
Proof.
  induction fuel as [|fuel IH]; intros rom b e rom' b' H; simpl in H |- *.
  - destruct (Z.ltb_spec (pc b) e); injection H as <- <-;
      (split; [apply flagged_refl|]); (split; [apply carried_on_refl|]);
      (split; [lia|]); (split; [lia|]); intros _; (split; [done|]); set_solver.
  - destruct (Z.ltb_spec (pc b) e) as [Hlt|Hge].
    + destruct (disassemble_at_pc rom b e) as [[rom1 b1]|] eqn:Hstep; [|done].
      cbn [mbind option_bind] in H.
      apply disassemble_at_pc_step in Hstep
        as (Hadv & Hwithin & Hrom & Hcar & Hfirst).
      apply IH in H as (Hrom' & Hcar' & Hpc' & Hend' & Hfirst').
      split; [by eapply flagged_trans|]. split; [by eapply carried_on_trans|].
      split; [lia|]. split; [intros _ Hfuel; apply Hend'; lia|].
      intros Hp. destruct (Hfirst Hp) as [Ho Hd].
      assert (Hp1 : first_pass b1 = true).
      { destruct Hcar as [Hs _]. by rewrite (settings_first_pass _ _ Hs). }
      destruct (Hfirst' Hp1) as [Ho' Hd'].
      split; [congruence|]. rewrite Hd', Hd. set_solver.
    + injection H as <- <-.
      split; [apply flagged_refl|]. split; [apply carried_on_refl|].
      split; [lia|]. split; [lia|]. intros _. split; [done|]. set_solver.
Qed.

Lemma code_loop_fuel : ∀ fuel1 fuel2 rom b end_address,
  end_address - pc b ≤ Z.of_nat fuel1 → end_address - pc b ≤ Z.of_nat fuel2 →
  code_loop fuel1 rom b end_address = code_loop fuel2 rom b end_address
  ∧ code_starts fuel1 rom b end_address = code_starts fuel2 rom b end_address.
Proof.
  induction fuel1 as [|fuel1 IH]; intros fuel2 rom b e H1 H2.
  - destruct fuel2; simpl; destruct (Z.ltb_spec (pc b) e); (done || lia).
  - destruct fuel2 as [|fuel2]; simpl; destruct (Z.ltb_spec (pc b) e);
      [lia|done| |done].
    destruct (disassemble_at_pc rom b e) as [[rom1 b1]|] eqn:Hstep; [|done].
    cbn [mbind option_bind].
    apply disassemble_at_pc_step in Hstep as (Hadv & _).
    destruct (IH fuel2 rom1 b1 e) as [-> ->]; [lia..|done].
Qed.

(** X12: a code region is consumed exactly. When
    [process_code_in_range] returns on a region with
    [start_address ≤ end_address], [self.pc] is [end_address]: the last
    instruction never runs over the end of the region. The loop has then
    stopped by its own test, within [end_address - start_address]
    iterations: any larger bound on the number of iterations gives the same
    result. *)
Theorem process_code_in_range_consumes_region (rom : ROM) (b : Bank)
    (start_address end_address : Z) (rom' : ROM) (b' : Bank) :
  process_code_in_range rom b start_address end_address = Some (rom', b') →
  start_address ≤ end_address →
  pc b' = end_address
  ∧ ∀ fuel, end_address - start_address ≤ Z.of_nat fuel →
      code_loop fuel rom (set_pc start_address b) end_address = Some (rom', b').
Proof.
  unfold process_code_in_range. intros H Hle. split.
  - apply code_loop_effect in H as (_ & _ & _ & Hend & _).
    apply Hend; simpl; lia.
  - intros fuel Hfuel. rewrite <- H.
    apply code_loop_fuel; simpl; lia.
Qed.

Lemma process_code_in_range_consumes_region_witness :
  pc (set_disassembled_addresses {[0; 1; 4]}
        (set_pc 5 (set_first_pass true (Bank_init 0)))) = 5
  ∧ ∀ fuel, 5 - 0 ≤ Z.of_nat fuel →
      code_loop fuel (sample_rom [0x00; 0x21; 0x00; 0xA0; 0xC9; 0x00; 0x00])
        (set_pc 0 (set_first_pass true (Bank_init 0))) 5
      = Some (sample_rom [0x00; 0x21; 0x00; 0xA0; 0xC9; 0x00; 0x00],
              set_disassembled_addresses {[0; 1; 4]}
                (set_pc 5 (set_first_pass true (Bank_init 0)))).
Proof.
  apply (process_code_in_range_consumes_region
           (sample_rom [0x00; 0x21; 0x00; 0xA0; 0xC9; 0x00; 0x00])
           (set_first_pass true (Bank_init 0)) 0 5).
  - by vm_compute.
  - lia.
Defined.

(** ** The two passes *)

Lemma same_image_step rom1 rom2 rom1' rom2' :
  same_image rom1 rom2 → flagged rom1 rom1' → flagged rom2 rom2' →
  same_image rom1' rom2'.
Proof. intros H [-> | ->] [-> | ->]; exact H. Qed.

Lemma decode_operand_length rom1 rom2 number pc opcode operand
    st1 st2 st1' v1 r1 k1 st2' v2 r2 k2 :
  data rom1 = data rom2 → len st1 = len st2 →
  decode_operand rom1 number pc opcode operand st1 = Some (st1', v1, r1, k1) →
  decode_operand rom2 number pc opcode operand st2 = Some (st2', v2, r2, k2) →
  len st1' = len st2' ∧ k1 = k2.
Proof.
  intros Hdata Hlen H1 H2.
  pose proof (f_equal (λ o : option (Decoding * option Z * ROM * bool),
                         match o with
                         | Some (s, _, _, k) => Some (len s, k)
                         | None => None
                         end) H1) as G1.
  pose proof (f_equal (λ o : option (Decoding * option Z * ROM * bool),
                         match o with
                         | Some (s, _, _, k) => Some (len s, k)
                         | None => None
                         end) H2) as G2.
  clear H1 H2. unfold decode_operand in *.
  destruct st1 as [l1 n1 vs1], st2 as [l2 n2 vs2]. cbn [len] in Hlen. subst l2.
  rewrite Hdata in G1.
  repeat (match type of G1 with
          | context [String.eqb operand ?s] => destruct (String.eqb operand s)
          end).
  all: repeat (match type of G1 with
               | context [word_at ?d ?p] => destruct (word_at d p)
               | context [byte_at ?d ?p] => destruct (byte_at d p)
               end; cbn [mbind option_bind] in G1, G2).
  all: cbv zeta in G1, G2.
  all: repeat (match type of G1 with
               | context [if ?c then _ else _] => destruct c
               | context [pop ?x] => destruct (pop x)
               end; cbn [mbind option_bind] in G1, G2).
  all: repeat (match type of G2 with
               | context [pop ?x] => destruct (pop x)
               end; cbn [mbind option_bind] in G2).
  all: try discriminate G1.
  all: try discriminate G2.
  all: cbv beta iota in G1, G2.
  all: injection G1 as <- <-.
  all: injection G2 as <- <-.
  all: done.
Qed.

Lemma process_operand_length rom1 rom2 b1 b2 pc opcode operand
    st1 st2 r1 b1' st1' k1 r2 b2' st2' k2 :
  data rom1 = data rom2 → bank_number b1 = bank_number b2 → len st1 = len st2 →
  process_operand rom1 b1 pc opcode operand st1 = Some (r1, b1', st1', k1) →
  process_operand rom2 b2 pc opcode operand st2 = Some (r2, b2', st2', k2) →
  len st1' = len st2' ∧ k1 = k2.
Proof.
  unfold process_operand. intros Hdata Hnum Hlen H1 H2. rewrite Hnum in H1.
  destruct (decode_operand rom1 _ _ _ _ _) as [[[[s1 v1] q1] j1]|] eqn:Hd1; [|done].
  destruct (decode_operand rom2 _ _ _ _ _) as [[[[s2 v2] q2] j2]|] eqn:Hd2; [|done].
  destruct (decode_operand_length _ _ _ _ _ _ _ _ _ _ _ _ _ _ _ _
              Hdata Hlen Hd1 Hd2) as [Hl <-].
  cbn [mbind option_bind] in H1, H2. destruct j1.
  - injection H1 as _ _ <- <-. injection H2 as _ _ <- <-. done.
  - destruct (resolve_operand_label b1 s1 v1) as [[c1 t1]|] eqn:Hl1; [|done].
    destruct (resolve_operand_label b2 s2 v2) as [[c2 t2]|] eqn:Hl2; [|done].
    cbn [mbind option_bind] in H1, H2.
    injection H1 as _ _ <- <-. injection H2 as _ _ <- <-.
    apply resolve_operand_label_frame in Hl1 as (_ & -> & _).
    apply resolve_operand_label_frame in Hl2 as (_ & -> & _). done.
Qed.

Lemma decode_frame_bank_number b b' :
  decode_frame b' = decode_frame b → bank_number b' = bank_number b.
Proof. by intros [= -> _ _ _ _ _ _ _ _]. Qed.

Lemma process_operands_length pc opcode operands :
  ∀ rom1 rom2 b1 b2 st1 st2 r1 b1' st1' r2 b2' st2',
  data rom1 = data rom2 → bank_number b1 = bank_number b2 → len st1 = len st2 →
  process_operands rom1 b1 pc opcode operands st1 = Some (r1, b1', st1') →
  process_operands rom2 b2 pc opcode operands st2 = Some (r2, b2', st2') →
  len st1' = len st2'.
Proof.
  induction operands as [|op ops IH];
    intros rom1 rom2 b1 b2 st1 st2 r1 b1' st1' r2 b2' st2' Hdata Hnum Hlen H1 H2;
    simpl in H1, H2.
  - injection H1 as _ _ <-. injection H2 as _ _ <-. done.
  - destruct (process_operand rom1 _ _ _ _ _) as [[[[q1 c1] s1] j1]|] eqn:Hp1; [|done].
    destruct (process_operand rom2 _ _ _ _ _) as [[[[q2 c2] s2] j2]|] eqn:Hp2; [|done].
    destruct (process_operand_length _ _ _ _ _ _ _ _ _ _ _ _ _ _ _ _ _
                Hdata Hnum Hlen Hp1 Hp2) as [Hl <-].
    cbn [mbind option_bind] in H1, H2. destruct j1.
    + injection H1 as _ _ <-. injection H2 as _ _ <-. done.
    + pose proof (process_operand_frame _ _ _ _ _ _ _ _ _ _ Hp1) as Hf1.
      pose proof (process_operand_frame _ _ _ _ _ _ _ _ _ _ Hp2) as Hf2.
      apply process_operand_effect in Hp1 as (_ & Hr1 & _).
      apply process_operand_effect in Hp2 as (_ & Hr2 & _).
      eapply (IH q1 q2 c1 c2); [| |done|done..].
      * destruct Hr1 as [-> | ->], Hr2 as [-> | ->]; exact Hdata.
      * rewrite (decode_frame_bank_number _ _ Hf1), (decode_frame_bank_number _ _ Hf2).
        exact Hnum.
Qed.

Lemma fetch_same_image rom1 rom2 pc :
  same_image rom1 rom2 → fetch rom1 pc = fetch rom2 pc.
Proof. intros (Hd & Hn & Ho & Hcn & Hco). unfold fetch. by rewrite Hd, Hn, Ho, Hcn, Hco. Qed.

Lemma stop_halt_same_image rom1 rom2 pc opcode st operands :
  same_image rom1 rom2 →
  stop_halt rom1 pc opcode st operands = stop_halt rom2 pc opcode st operands.
Proof. intros (Hd & _). unfold stop_halt. by rewrite Hd. Qed.

Lemma decode_length rom1 rom2 b1 b2 r1 b1' op1 st1 r2 b2' op2 st2 :
  same_image rom1 rom2 → pc b1 = pc b2 → bank_number b1 = bank_number b2 →
  decode rom1 b1 = Some (r1, b1', op1, st1) →
  decode rom2 b2 = Some (r2, b2', op2, st2) →
  op1 = op2 ∧ len st1 = len st2.
Proof.
  unfold decode. intros Himg Hpc Hnum H1 H2.
  rewrite (fetch_same_image _ _ _ Himg), Hpc in H1.
  destruct (fetch rom2 (pc b2)) as [[[opc st0] ops]|]; [|done].
  cbn [mbind option_bind] in H1, H2.
  rewrite (stop_halt_same_image _ _ _ _ _ _ Himg) in H1.
  destruct (stop_halt rom2 _ _ _ _) as [[s ops']|]; [|done].
  cbn [mbind option_bind] in H1, H2.
  destruct (process_operands rom1 _ _ _ _ _) as [[[q1 c1] t1]|] eqn:Hp1; [|done].
  destruct (process_operands rom2 _ _ _ _ _) as [[[q2 c2] t2]|] eqn:Hp2; [|done].
  cbn [mbind option_bind] in H1, H2.
  injection H1 as _ _ <- <-. injection H2 as _ _ <- <-. split; [done|].
  destruct Himg as [Hdata _].
  by eapply (process_operands_length _ _ _ rom1 rom2 b1 b2 s s).
Qed.

Lemma disassemble_at_pc_same_step rom1 rom2 b1 b2 end_address r1 b1' r2 b2' :
  same_image rom1 rom2 → pc b1 = pc b2 → bank_number b1 = bank_number b2 →
  disassemble_at_pc rom1 b1 end_address = Some (r1, b1') →
  disassemble_at_pc rom2 b2 end_address = Some (r2, b2') →
  same_image r1 r2 ∧ pc b1' = pc b2' ∧ bank_number b1' = bank_number b2'.
Proof.
  intros Himg Hpc Hnum H1 H2.
  pose proof (disassemble_at_pc_step _ _ _ _ _ H1) as (_ & _ & Hr1 & (Hs1 & _) & _).
  pose proof (disassemble_at_pc_step _ _ _ _ _ H2) as (_ & _ & Hr2 & (Hs2 & _) & _).
  split; [by eapply same_image_step|]. split.
  - unfold disassemble_at_pc in H1, H2.
    destruct (decode rom1 b1) as [[[[q1 c1] op1] st1]|] eqn:Hd1; [|done].
    destruct (decode rom2 b2) as [[[[q2 c2] op2] st2]|] eqn:Hd2; [|done].
    cbn [mbind option_bind] in H1, H2.
    destruct (finish c1 _) as [d1|] eqn:Hf1; [|done].
    destruct (finish c2 _) as [d2|] eqn:Hf2; [|done].
    cbn [mbind option_bind] in H1, H2.
    injection H1 as _ <-. injection H2 as _ <-.
    destruct (decode_length _ _ _ _ _ _ _ _ _ _ _ _ Himg Hpc Hnum Hd1 Hd2) as [<- Hl].
    apply decode_decode_frame in Hd1, Hd2.
    injection Hd1 as _ _ _ _ _ _ _ _ Hpc1. injection Hd2 as _ _ _ _ _ _ _ _ Hpc2.
    apply finish_effect in Hf1 as (-> & _). apply finish_effect in Hf2 as (-> & _).
    rewrite Hpc1, Hpc2, !check_span_decide, Hpc, Hl.
    case_decide; simpl; lia.
  - injection Hs1 as -> _ _ _ _ _. injection Hs2 as -> _ _ _ _ _. done.
Qed.

Lemma code_starts_same fuel : ∀ rom1 rom2 b1 b2 end_address r1 b1' r2 b2',
  same_image rom1 rom2 → pc b1 = pc b2 → bank_number b1 = bank_number b2 →
  code_loop fuel rom1 b1 end_address = Some (r1, b1') →
  code_loop fuel rom2 b2 end_address = Some (r2, b2') →
  code_starts fuel rom1 b1 end_address = code_starts fuel rom2 b2 end_address.
Proof.
  induction fuel as [|fuel IH];
    intros rom1 rom2 b1 b2 e r1 b1' r2 b2' Himg Hpc Hnum H1 H2;
    simpl in H1, H2 |- *; rewrite Hpc in *.
  - by destruct (pc b2 <? e).
  - destruct (pc b2 <? e); [|done].
    destruct (disassemble_at_pc rom1 b1 e) as [[q1 c1]|] eqn:Hs1; [|done].
    destruct (disassemble_at_pc rom2 b2 e) as [[q2 c2]|] eqn:Hs2; [|done].
    cbn [mbind option_bind] in H1, H2.
    destruct (disassemble_at_pc_same_step _ _ _ _ _ _ _ _ _ Himg Hpc Hnum Hs1 Hs2)
      as (Himg' & Hpc' & Hnum').
    f_equal. by eapply IH.
Qed.

Lemma code_starts_within fuel : ∀ rom b end_address,
  Forall (λ p, pc b ≤ p < end_address) (code_starts fuel rom b end_address).
Proof.
  induction fuel as [|fuel IH]; intros rom b e; simpl.
  - by destruct (pc b <? e).
  - destruct (Z.ltb_spec (pc b) e); [|done].
    destruct (disassemble_at_pc rom b e) as [[rom1 b1]|] eqn:Hstep; [|done].
    apply disassemble_at_pc_step in Hstep as (Hadv & _).
    constructor; [lia|]. eapply Forall_impl; [apply IH|]. simpl. lia.
Qed.

(** X13: what the first pass records in a code region. It writes no
    output, and the instruction starts it adds to
    [self.disassembled_addresses] are exactly the memory addresses of the
    values [self.pc] took at the head of the loop; these all lie in the
    region, and its first address is one of them. *)
Theorem first_pass_records_instruction_starts (rom : ROM) (b : Bank)
    (start_address end_address : Z) (rom' : ROM) (b' : Bank) :
  process_code_in_range rom b start_address end_address = Some (rom', b') →
  first_pass b = true →
  output b' = output b
  ∧ disassembled_addresses b'
    = list_to_set (rom_address_to_mem_address
                     <$> code_starts (Z.to_nat (end_address - start_address)) rom
                           (set_pc start_address b) end_address)
      ∪ disassembled_addresses b
  ∧ Forall (λ p, start_address ≤ p < end_address)
      (code_starts (Z.to_nat (end_address - start_address)) rom
         (set_pc start_address b) end_address)
  ∧ (start_address < end_address →
     rom_address_to_mem_address start_address ∈ disassembled_addresses b').
Proof.
  unfold process_code_in_range. intros H Hpass.
  pose proof (code_loop_effect _ _ _ _ _ _ H) as (_ & _ & _ & _ & Hfirst).
  destruct (Hfirst Hpass) as [Hout Hdis]. simpl in Hout, Hdis.
  split; [done|]. split; [done|]. split; [apply (code_starts_within _ rom (set_pc start_address b))|].
  intros Hlt. rewrite Hdis.
  destruct (Z.to_nat (end_address - start_address)) as [|fuel] eqn:Hfuel; [lia|].
  simpl in H |- *. destruct (Z.ltb_spec start_address end_address); [|lia].
  destruct (disassemble_at_pc rom _ end_address) as [[rom1 b1]|]; [|done].
  set_solver.
Qed.

Lemma first_pass_records_instruction_starts_witness :
  output (set_disassembled_addresses {[0; 1; 4]}
            (set_pc 5 (set_first_pass true (Bank_init 0))))
  = output (set_first_pass true (Bank_init 0))
  ∧ disassembled_addresses (set_disassembled_addresses {[0; 1; 4]}
                              (set_pc 5 (set_first_pass true (Bank_init 0))))
    = list_to_set (rom_address_to_mem_address
                     <$> code_starts (Z.to_nat (5 - 0))
                           (sample_rom [0x00; 0x21; 0x00; 0xA0; 0xC9; 0x00; 0x00])
                           (set_pc 0 (set_first_pass true (Bank_init 0))) 5)
      ∪ disassembled_addresses (set_first_pass true (Bank_init 0))
  ∧ Forall (λ p, 0 ≤ p < 5)
      (code_starts (Z.to_nat (5 - 0))
         (sample_rom [0x00; 0x21; 0x00; 0xA0; 0xC9; 0x00; 0x00])
         (set_pc 0 (set_first_pass true (Bank_init 0))) 5)
  ∧ (0 < 5 →
     rom_address_to_mem_address 0
     ∈ disassembled_addresses (set_disassembled_addresses {[0; 1; 4]}
                                 (set_pc 5 (set_first_pass true (Bank_init 0))))).
Proof.
  apply (first_pass_records_instruction_starts
           (sample_rom [0x00; 0x21; 0x00; 0xA0; 0xC9; 0x00; 0x00])
           (set_first_pass true (Bank_init 0)) 0 5
           (sample_rom [0x00; 0x21; 0x00; 0xA0; 0xC9; 0x00; 0x00])).
  - by vm_compute.
  - done.
Defined.

(** X14: both passes see the same instructions. Two runs of
    [process_code_in_range] over the same region, on ROMs that agree on the
    image and the opcode tables and on banks with the same number, call
    [disassemble_at_pc] at the same addresses, whatever the pass, the
    labels, the recorded targets and the [has_ld_long] flag. So the
    addresses recorded by a first-pass run are exactly those at which any
    other run, such as the second pass, places an instruction. *)
Theorem passes_visit_same_instruction_starts (rom1 rom2 : ROM) (b1 b2 : Bank)
    (start_address end_address : Z) (rom1' rom2' : ROM) (b1' b2' : Bank) :
  same_image rom1 rom2 → bank_number b1 = bank_number b2 →
  process_code_in_range rom1 b1 start_address end_address = Some (rom1', b1') →
  process_code_in_range rom2 b2 start_address end_address = Some (rom2', b2') →
  code_starts (Z.to_nat (end_address - start_address)) rom1
    (set_pc start_address b1) end_address
  = code_starts (Z.to_nat (end_address - start_address)) rom2
      (set_pc start_address b2) end_address
  ∧ (first_pass b1 = true →
     disassembled_addresses b1'
     = list_to_set (rom_address_to_mem_address
                      <$> code_starts (Z.to_nat (end_address - start_address)) rom2
                            (set_pc start_address b2) end_address)
       ∪ disassembled_addresses b1).
Proof.
  unfold process_code_in_range. intros Himg Hnum H1 H2.
  assert (Hsame : code_starts (Z.to_nat (end_address - start_address)) rom1
                    (set_pc start_address b1) end_address
                  = code_starts (Z.to_nat (end_address - start_address)) rom2
                      (set_pc start_address b2) end_address)
    by (by eapply code_starts_same).
  split; [done|]. intros Hpass. rewrite <- Hsame.
  apply code_loop_effect in H1 as (_ & _ & _ & _ & Hfirst).
  by destruct (Hfirst Hpass) as [_ ->].
Qed.

Lemma passes_visit_same_instruction_starts_witness :
  code_starts (Z.to_nat (5 - 0))
    (sample_rom [0x00; 0x21; 0x00; 0xA0; 0xC9; 0x00; 0x00])
    (set_pc 0 (set_first_pass true (Bank_init 0))) 5
  = code_starts (Z.to_nat (5 - 0))
      (sample_rom [0x00; 0x21; 0x00; 0xA0; 0xC9; 0x00; 0x00])
      (set_pc 0 (Bank_init 0)) 5
  ∧ (first_pass (set_first_pass true (Bank_init 0)) = true →
     disassembled_addresses (set_disassembled_addresses {[0; 1; 4]}
                               (set_pc 5 (set_first_pass true (Bank_init 0))))
     = list_to_set (rom_address_to_mem_address
                      <$> code_starts (Z.to_nat (5 - 0))
                            (sample_rom [0x00; 0x21; 0x00; 0xA0; 0xC9; 0x00; 0x00])
                            (set_pc 0 (Bank_init 0)) 5)
       ∪ disassembled_addresses (set_first_pass true (Bank_init 0))).
Proof.
  apply (passes_visit_same_instruction_starts
           (sample_rom [0x00; 0x21; 0x00; 0xA0; 0xC9; 0x00; 0x00])
           (sample_rom [0x00; 0x21; 0x00; 0xA0; 0xC9; 0x00; 0x00])
           (set_first_pass true (Bank_init 0)) (Bank_init 0) 0 5
           (sample_rom [0x00; 0x21; 0x00; 0xA0; 0xC9; 0x00; 0x00])
           (sample_rom [0x00; 0x21; 0x00; 0xA0; 0xC9; 0x00; 0x00])
           (set_disassembled_addresses {[0; 1; 4]}
              (set_pc 5 (set_first_pass true (Bank_init 0))))
           (set_output ["    nop "; "    ld hl, $a000"; "    ret "; ""; ""]
              (set_pc 5 (Bank_init 0)))).
  - by repeat split.
  - done.
  - by vm_compute.
  - by vm_compute.
Defined.

(** ** Text regions *)

Lemma nonempty_string_decide (text : string) :
  bool_decide (0 < String.length text)%nat = negb (text =? "")%string.
Proof.
  destruct text as [|c text]; [done|].
  change ((String c text =? "")%string) with false.
  apply bool_decide_eq_true_2. simpl. lia.
Qed.

Lemma text_step_plain rom b out values text address byte :
  labelled_addresses b !! rom_address_to_mem_address address = None →
  byte_at (data rom) address = Some byte →
  text_step rom b (out, values, text) address
  = Some (if (byte >=? 0x20) && (byte <? 0x7F)
          then (out, values, text +:+ chr byte)
          else (out,
                ((if bool_decide (0 < String.length text)%nat
                  then values ++ [quoted text] else values) ++ [hex_byte byte])%list,
                "")).
Proof.
  intros Hlab Hbyte. unfold text_step, get_labels_for_non_code_address.
  rewrite Hlab. cbn [mbind option_bind]. rewrite Hbyte. cbn [mbind option_bind].
  by destruct ((byte >=? 0x20) && (byte <? 0x7F)).
Qed.

Lemma string_app_nil_r (s : string) : s +:+ "" = s.
Proof.
  induction s as [|c s IH]; [done|].
  change (String c (s +:+ "") = String c s). by rewrite IH.
Qed.

Lemma string_app_assoc (s1 s2 s3 : string) : (s1 +:+ s2) +:+ s3 = s1 +:+ (s2 +:+ s3).
Proof.
  induction s1 as [|c s1 IH]; [done|].
  change (String c ((s1 +:+ s2) +:+ s3) = String c (s1 +:+ (s2 +:+ s3))).
  by rewrite IH.
Qed.

Lemma string_app_nonempty (s : string) c : s +:+ chr c ≠ "".
Proof. by destruct s. Qed.

(** Without labels the loop writes nothing: it only gathers values and
    text, and after at least one byte it holds some. *)
Lemma text_loop_plain rom b : ∀ addresses out values text,
  Forall (λ a, labelled_addresses b !! rom_address_to_mem_address a = None
               ∧ is_Some (byte_at (data rom) a)) addresses →
  ∃ values' text',
    text_loop rom b addresses (out, values, text) = Some (out, values', text')
    ∧ (values ≠ [] ∨ text ≠ "" ∨ addresses ≠ [] → values' ≠ [] ∨ text' ≠ "")
    ∧ (Forall printable (omap (byte_at (data rom)) addresses) →
       values' = values
       ∧ text' = text +:+ text_of (omap (byte_at (data rom)) addresses)).
Proof.
  induction addresses as [|a rest IH]; intros out values text Hall.
  - exists values, text. simpl. split; [done|]. split; [naive_solver|].
    intros _. split; [done|]. by rewrite string_app_nil_r.
  - apply Forall_cons in Hall as [[Hlab [byte Hbyte]] Hrest].
    cbn [text_loop]. rewrite (text_step_plain _ _ _ _ _ _ byte) by done.
    cbn [mbind option_bind omap list_omap]. rewrite Hbyte.
    destruct (Z.geb_spec byte 0x20) as [Hlo|Hlo];
      [destruct (Z.ltb_spec byte 0x7F) as [Hhi|Hhi]|]; cbn [andb].
    + destruct (IH out values (text +:+ chr byte) Hrest) as (v' & t' & -> & Hne & Hpr).
      exists v', t'. split; [done|]. split.
      * intros _. apply Hne. right. left. apply string_app_nonempty.
      * intros Hp. apply Forall_cons in Hp as [_ Hp]. destruct (Hpr Hp) as [-> ->].
        split; [done|]. cbn [text_of]. by rewrite string_app_assoc.
    + destruct (IH out ((if bool_decide (0 < String.length text)%nat
                         then values ++ [quoted text] else values) ++ [hex_byte byte])%list
                  "" Hrest) as (v' & t' & -> & Hne & Hpr).
      exists v', t'. split; [done|]. split.
      * intros _. apply Hne. left. by destruct (if bool_decide _ then _ else _).
      * intros Hp. apply Forall_cons in Hp as [Hp _]. unfold printable in Hp. lia.
    + destruct (IH out ((if bool_decide (0 < String.length text)%nat
                         then values ++ [quoted text] else values) ++ [hex_byte byte])%list
                  "" Hrest) as (v' & t' & -> & Hne & Hpr).
      exists v', t'. split; [done|]. split.
      * intros _. apply Hne. left. by destruct (if bool_decide _ then _ else _).
      * intros Hp. apply Forall_cons in Hp as [Hp _]. unfold printable in Hp. lia.
Qed.

(** X15: a text region without labels is one line. However many bytes the
    region has, [process_text_in_range] appends exactly one [DB] line for
    it (a text region is never cut into lines of 16 values, unlike a data
    region), and nothing else of the bank changes. When all its bytes are
    printable, the line holds the one quoted string of their characters. *)
Theorem text_region_is_one_line (rom : ROM) (b : Bank)
    (start_address end_address : Z) :
  start_address < end_address →
  (∀ a, start_address ≤ a < end_address →
        labelled_addresses b !! rom_address_to_mem_address a = None
        ∧ is_Some (byte_at (data rom) a)) →
  ∃ values,
    process_text_in_range rom b start_address end_address
    = Some (set_output (output b ++ [format_data values]) b)
    ∧ values ≠ []
    ∧ (Forall printable (region_bytes rom start_address end_address) →
       values = [quoted (text_of (region_bytes rom start_address end_address))]).
Proof.
  intros Hlt Hall. unfold process_text_in_range, region_bytes.
  destruct (text_loop_plain rom b (seqZ start_address (end_address - start_address))
              (output b) [] "") as (values & text & -> & Hne & Hpr).
  { apply Forall_forall. intros a Ha. apply elem_of_seqZ in Ha. apply Hall. lia. }
  cbn [mbind option_bind]. rewrite nonempty_string_decide.
  assert (Hsome : values ≠ [] ∨ text ≠ "").
  { apply Hne. right. right. rewrite seqZ_cons by lia. done. }
  destruct (String.eqb_spec text "") as [->|Htext]; cbn [negb].
  - destruct Hsome as [Hv|]; [|done]. exists values.
    rewrite bool_decide_eq_true_2 by (destruct values; [done | simpl; lia]).
    split; [done|]. split; [done|]. intros Hp. by destruct (Hpr Hp) as [-> _].
  - exists (values ++ [quoted text])%list.
    rewrite bool_decide_eq_true_2 by (rewrite length_app; simpl; lia).
    split; [done|]. split; [by destruct values|].
    intros Hp. destruct (Hpr Hp) as [-> ->]. done.
Qed.

Lemma text_region_is_one_line_witness :
  ∃ values,
    process_text_in_range (sample_rom (seqZ 0x41 26)) (Bank_init 0) 0 20
    = Some (set_output (output (Bank_init 0) ++ [format_data values]) (Bank_init 0))
    ∧ values ≠ []
    ∧ (Forall printable (region_bytes (sample_rom (seqZ 0x41 26)) 0 20) →
       values = [quoted (text_of (region_bytes (sample_rom (seqZ 0x41 26)) 0 20))]).
Proof.
  apply (text_region_is_one_line (sample_rom (seqZ 0x41 26)) (Bank_init 0) 0 20).
  - lia.
  - intros a Ha. split; [done|].
    assert (Hin : a ∈ seqZ 0 20) by (apply elem_of_seqZ; lia).
    clear Ha. revert a Hin. apply (proj1 (Forall_forall _ _)).
    vm_compute. repeat (constructor; [by eexists|]). constructor.
Defined.

(** ** When a data or text region can be written *)

Lemma non_code_labels_is_Some b address :
  is_Some (get_labels_for_non_code_address b address)
  ↔ labelled_addresses b !! address ≠ Some "".
Proof.
  unfold get_labels_for_non_code_address.
  destruct (labelled_addresses b !! address) as [[|c l]|]; simpl.
  - split; [by intros [? ?]|done].
  - split; [done|by eexists].
  - split; [done|by eexists].
Qed.

Lemma data_step_is_Some rom b end_address acc address :
  is_Some (data_step rom b end_address acc address) ↔ readable rom b address.
Proof.
  unfold readable. rewrite <- non_code_labels_is_Some.
  unfold data_step. destruct acc as [out values].
  destruct (get_labels_for_non_code_address b _) as [labels|];
    cbn [mbind option_bind]; [|split; [by intros [? ?]|by intros [_ [? ?]]]].
  destruct (match labels with [] => _ | _ => _ end) as [out1 values1].
  destruct (byte_at (data rom) address) as [byte|]; cbn [mbind option_bind];
    [|split; [by intros [? ?]|by intros [[? ?] _]]].
  split; [by split; eexists|]. intros _.
  by destruct (_ || _); eexists.
Qed.

Lemma data_loop_is_Some rom b end_address : ∀ addresses acc,
  is_Some (data_loop rom b end_address addresses acc)
  ↔ Forall (readable rom b) addresses.
Proof.
  induction addresses as [|a rest IH]; intros acc; simpl.
  - split; [done|by eexists].
  - rewrite Forall_cons, <- (data_step_is_Some rom b end_address acc a).
    destruct (data_step rom b end_address acc a) as [acc'|]; cbn [mbind option_bind].
    + rewrite IH. split; [by split; [eexists|]|by intros [_ ?]].
    + split; [by intros [? ?]|by intros [[? ?] _]].
Qed.

Lemma text_step_is_Some rom b acc address :
  is_Some (text_step rom b acc address) ↔ readable rom b address.
Proof.
  unfold readable. rewrite <- non_code_labels_is_Some.
  unfold text_step. destruct acc as [[out values] text].
  destruct (get_labels_for_non_code_address b _) as [labels|];
    cbn [mbind option_bind]; [|split; [by intros [? ?]|by intros [_ [? ?]]]].
  destruct (match labels with [] => _ | _ => _ end) as [[out1 values1] text1].
  destruct (byte_at (data rom) address) as [byte|]; cbn [mbind option_bind];
    [|split; [by intros [? ?]|by intros [[? ?] _]]].
  split; [by split; eexists|]. intros _.
  by destruct (_ && _); eexists.
Qed.

Lemma text_loop_is_Some rom b : ∀ addresses acc,
  is_Some (text_loop rom b addresses acc) ↔ Forall (readable rom b) addresses.
Proof.
  induction addresses as [|a rest IH]; intros acc; simpl.
  - split; [done|by eexists].
  - rewrite Forall_cons, <- (text_step_is_Some rom b acc a).
    destruct (text_step rom b acc a) as [acc'|]; cbn [mbind option_bind].
    + rewrite IH. split; [by split; [eexists|]|by intros [_ ?]].
    + split; [by intros [? ?]|by intros [[? ?] _]].
Qed.

Lemma Forall_seqZ_range (P : Z → Prop) start_address end_address :
  Forall P (seqZ start_address (end_address - start_address))
  ↔ ∀ a, start_address ≤ a < end_address → P a.
Proof.
  rewrite Forall_forall. split.
  - intros H a Ha. apply H, elem_of_seqZ. lia.
  - intros H a Ha. apply elem_of_seqZ in Ha. apply H. lia.
Qed.

(** X16: when the data and text writers raise. Each of
    [process_data_in_range] and [process_text_in_range] returns exactly
    when every address of its region has a byte in the image and no
    explicit label that is the empty string; a region reaching past the end
    of the image, or an empty label inside it, makes the call raise, and
    nothing else does. *)
Theorem data_and_text_regions_raise_exactly (rom : ROM) (b : Bank)
    (start_address end_address : Z) :
  (is_Some (process_data_in_range rom b start_address end_address)
   ↔ ∀ a, start_address ≤ a < end_address → readable rom b a)
  ∧ (is_Some (process_text_in_range rom b start_address end_address)
     ↔ ∀ a, start_address ≤ a < end_address → readable rom b a).
Proof.
  rewrite <- Forall_seqZ_range. split.
  - rewrite <- (data_loop_is_Some rom b end_address _ (output b, [])).
    unfold process_data_in_range.
    destruct (data_loop _ _ _ _ _) as [[out values]|]; cbn [mbind option_bind].
    + split; by eexists.
    + split; by intros [? ?].
  - rewrite <- (text_loop_is_Some rom b _ (output b, [], "")).
    unfold process_text_in_range.
    destruct (text_loop _ _ _ _) as [[[out values] text]|]; cbn [mbind option_bind].
    + split; by eexists.
    + split; by intros [? ?].
Qed.

(** ** A whole bank *)

Lemma data_step_prefix rom b end_address out values address out' values' :
  data_step rom b end_address (out, values) address = Some (out', values') →
  out `prefix_of` out'.
Proof.
  unfold data_step.
  destruct (get_labels_for_non_code_address b _) as [labels|]; [|done].
  cbn [mbind option_bind].
  assert (Hpre : out `prefix_of`
            (match labels with
             | [] => (out, values)
             | _ => let '(out, values) :=
                      if bool_decide (0 < length values)%nat
                      then (append_output out (format_data values), [])
                      else (out, values) in
                    (append_labels_to_output out labels, values)
             end).1).
  { destruct labels; [done|]. destruct (bool_decide _); simpl.
    - etrans; [|apply append_labels_prefix]. by apply prefix_app_r.
    - apply append_labels_prefix. }
  destruct (match labels with [] => _ | _ => _ end) as [out1 values1].
  simpl in Hpre. destruct (byte_at (data rom) address) as [byte|]; [|done].
  cbn [mbind option_bind]. destruct (_ || _); intros [= <- _]; [|done].
  etrans; [exact Hpre|]. by apply prefix_app_r.
Qed.

Lemma data_loop_prefix rom b end_address : ∀ addresses out values out' values',
  data_loop rom b end_address addresses (out, values) = Some (out', values') →
  out `prefix_of` out'.
Proof.
  induction addresses as [|a rest IH]; intros out values out' values' H;
    cbn [data_loop] in H.
  - by injection H as <- _.
  - destruct (data_step rom b end_address (out, values) a)
      as [[out1 values1]|] eqn:Hstep; [|done].
    cbn [mbind option_bind] in H. apply data_step_prefix in Hstep.
    etrans; [exact Hstep|]. by eapply IH.
Qed.

Lemma text_step_prefix rom b out values text address out' values' text' :
  text_step rom b (out, values, text) address = Some (out', values', text') →
  out `prefix_of` out'.
Proof.
  unfold text_step.
  destruct (get_labels_for_non_code_address b _) as [labels|]; [|done].
  cbn [mbind option_bind].
  assert (Hpre : out `prefix_of`
            (match labels with
             | [] => (out, values, text)
             | _ => let '(values, text) :=
                      if bool_decide (0 < String.length text)%nat
                      then ((values ++ [quoted text])%list, "")
                      else (values, text) in
                    let '(out, values) :=
                      if bool_decide (0 < length values)%nat
                      then (append_output out (format_data values), [])
                      else (out, values) in
                    (append_labels_to_output out labels, values, text)
             end).1.1).
  { destruct labels; [done|].
    destruct (bool_decide (0 < String.length text)%nat);
      match goal with |- context [bool_decide (0 < length ?v)%nat] =>
        destruct (bool_decide (0 < length v)%nat) end; simpl;
      try (by apply append_labels_prefix);
      (etrans; [|apply append_labels_prefix]); by apply prefix_app_r. }
  destruct (match labels with [] => _ | _ => _ end) as [[out1 values1] text1].
  simpl in Hpre. destruct (byte_at (data rom) address) as [byte|]; [|done].
  cbn [mbind option_bind]. by destruct (_ && _); intros [= <- _ _].
Qed.

Lemma text_loop_prefix rom b : ∀ addresses out values text out' values' text',
  text_loop rom b addresses (out, values, text) = Some (out', values', text') →
  out `prefix_of` out'.
Proof.
  induction addresses as [|a rest IH];
    intros out values text out' values' text' H; cbn [text_loop] in H.
  - by injection H as <- _ _.
  - destruct (text_step rom b (out, values, text) a)
      as [[[out1 values1] text1]|] eqn:Hstep; [|done].
    cbn [mbind option_bind] in H. apply text_step_prefix in Hstep.
    etrans; [exact Hstep|]. by eapply IH.
Qed.

Lemma carried_on_set_output b out :
  output b `prefix_of` out → carried_on b (set_output out b).
Proof. intros H. by repeat split. Qed.

Lemma process_data_in_range_output rom b start_address end_address b' :
  process_data_in_range rom b start_address end_address = Some b' →
  ∃ out, b' = set_output out b ∧ output b `prefix_of` out.
Proof.
  unfold process_data_in_range.
  destruct (data_loop _ _ _ _ _) as [[out values]|] eqn:Hloop; [|done].
  intros [= <-]. exists out. split; [done|]. by eapply data_loop_prefix.
Qed.

Lemma process_text_in_range_output rom b start_address end_address b' :
  process_text_in_range rom b start_address end_address = Some b' →
  ∃ out, b' = set_output out b ∧ output b `prefix_of` out.
Proof.
  unfold process_text_in_range.
  destruct (text_loop _ _ _ _) as [[[out values] text]|] eqn:Hloop; [|done].
  cbn [mbind option_bind]. intros [= <-]. eexists. split; [done|].
  apply text_loop_prefix in Hloop. etrans; [exact Hloop|].
  destruct (bool_decide (0 < length _)%nat); [by apply prefix_app_r|done].
Qed.

Lemma disassemble_block_range_effect bt rom b start_address end_address rom' b' :
  disassemble_block_range bt rom b start_address end_address = Some (rom', b') →
  flagged rom rom' ∧ carried_on b b'
  ∧ (first_pass b = false → b' = set_output (output b') (set_pc (pc b') b)).
Proof.
  destruct bt; simpl.
  - unfold process_code_in_range. intros H.
    apply code_loop_effect in H as (Hrom & Hcar & _).
    destruct Hcar as (Hs & Hp & Ht & Hd & Hr).
    split; [done|]. split.
    { split; [exact Hs|]. split; [exact Hp|]. split; [exact Ht|].
      split; [exact Hd|exact Hr]. }
    intros Hpass. destruct (Hr Hpass) as [Hta Hdi]. simpl in Hta, Hdi.
    injection Hs as Hn Hb Hl Hm Hrb Hf. simpl in *.
    destruct b, b'; simpl in *. by subst.
  - destruct (process_data_in_range _ _ _ _) as [b1|] eqn:H; [|done].
    intros [= <- <-]. apply process_data_in_range_output in H as (out & -> & Hpre).
    split; [apply flagged_refl|]. split; [by apply carried_on_set_output|].
    intros _. by destruct b.
  - destruct (process_text_in_range _ _ _ _) as [b1|] eqn:H; [|done].
    intros [= <- <-]. apply process_text_in_range_output in H as (out & -> & Hpre).
    split; [apply flagged_refl|]. split; [by apply carried_on_set_output|].
    intros _. by destruct b.
Qed.

Lemma append_empty_line_last out :
  out ≠ [] → last (append_empty_line_if_none_already out) = Some "".
Proof.
  intros Hne. unfold append_empty_line_if_none_already.
  destruct (last out) as [l|] eqn:Hlast.
  - destruct (String.eqb_spec l "") as [->|]; [done|].
    unfold append_output. by rewrite last_snoc.
  - by apply last_None in Hlast.
Qed.

Lemma prefix_nonempty (l k : list string) : l `prefix_of` k → l ≠ [] → k ≠ [].
Proof. intros [t ->] H. by destruct l. Qed.

Lemma disassemble_blocks_effect : ∀ starts rom b rom' b',
  disassemble_blocks starts rom b = Some (rom', b') →
  flagged rom rom' ∧ carried_on b b'
  ∧ (first_pass b = false → b' = set_output (output b') (set_pc (pc b') b))
  ∧ (output b ≠ [] → starts ≠ [] ∨ last (output b) = Some "" →
     last (output b') = Some "").
Proof.
  induction starts as [|start_address rest IH]; intros rom b rom' b' H; simpl in H.
  - injection H as <- <-. split; [apply flagged_refl|]. split; [apply carried_on_refl|].
    split; [intros _; by destruct b|]. intros _ [?|?]; done.
  - destruct (blocks b !! start_address) as [block|]; [|done].
    destruct (disassemble_block_range _ _ _ _ _) as [[rom1 b1]|] eqn:Hblock; [|done].
    cbn [mbind option_bind] in H.
    apply disassemble_block_range_effect in Hblock as (Hrom & Hcar & Hro).
    apply IH in H as (Hrom' & Hcar' & Hro' & Hlast).
    assert (Hcar1 : carried_on b
              (set_output (append_empty_line_if_none_already (output b1)) b1)).
    { eapply carried_on_trans; [exact Hcar|].
      apply carried_on_set_output, append_empty_line_prefix. }
    split; [by eapply flagged_trans|]. split; [by eapply carried_on_trans|]. split.
    + intros Hpass. rewrite Hro'.
      * rewrite (Hro Hpass). by destruct b.
      * destruct Hcar1 as [Hs _]. by rewrite (settings_first_pass _ _ Hs).
    + intros Hne _. apply Hlast; simpl.
      * destruct Hcar1 as (_ & Hp & _). by eapply prefix_nonempty.
      * right. apply append_empty_line_last.
        destruct Hcar as (_ & Hp & _). by eapply prefix_nonempty.
Qed.

(** X17: the layout of a bank's output. Whatever [self.output] held
    before, a call of [Bank.disassemble] leaves the section header of the
    bank as the first line and an empty line as the second and as the last,
    and returns the lines joined by newlines. The bytes and the opcode
    tables of the ROM are untouched and [has_ld_long] is never cleared, and
    the bank keeps its number, its explicit labels and its base
    addresses. *)
Theorem disassemble_output_layout (rom : ROM) (b : Bank) (pass1 : bool)
    (rom' : ROM) (b' : Bank) (text : string) :
  disassemble rom b pass1 = Some (rom', b', text) →
  text = join newline (output b')
  ∧ (∃ lines, output b' = section_header (bank_number b) :: "" :: lines)
  ∧ last (output b') = Some ""
  ∧ same_image rom rom'
  ∧ (has_ld_long rom = true → has_ld_long rom' = true)
  ∧ bank_number b' = bank_number b
  ∧ labelled_addresses b' = labelled_addresses b
  ∧ memory_base_address b' = memory_base_address b
  ∧ rom_base_address b' = rom_base_address b
  ∧ first_pass b' = pass1.
Proof.
  unfold disassemble. intros H.
  destruct (if pass1 then _ else _) as [b1|] eqn:Hb1; [|done].
  cbn [mbind option_bind] in H.
  destruct (disassemble_blocks _ _ _) as [[rom2 b2]|] eqn:Hblocks; [|done].
  cbn [mbind option_bind] in H. injection H as <- <- <-.
  apply disassemble_blocks_effect in Hblocks as (Hrom & Hcar & _ & Hlast).
  destruct Hcar as (Hs & Hp & _). simpl in Hs, Hp, Hlast.
  assert (Hb : bank_number b1 = bank_number b
               ∧ labelled_addresses b1 = labelled_addresses b
               ∧ memory_base_address b1 = memory_base_address b
               ∧ rom_base_address b1 = rom_base_address b
               ∧ first_pass b1 = pass1).
  { destruct pass1.
    - unfold resolve_blocks in Hb1.
      destruct (resolve_loop _ _ _ _) as [resolved|]; [|done].
      by injection Hb1 as <-.
    - by injection Hb1 as <-. }
  destruct Hb as (Hn & Hl & Hm & Hr & Hf).
  injection Hs as Hn2 _ Hl2 Hm2 Hr2 Hf2. simpl in *.
  split; [done|]. split.
  { destruct Hp as [lines ->]. exists lines. by rewrite Hn. }
  split; [apply Hlast; [done|by right]|].
  split; [by apply flagged_same_image|].
  split; [by apply flagged_has_ld_long|]. repeat split; congruence.
Qed.

(** X18: the second pass only writes. A call of [Bank.disassemble] with
    [first_pass = False] changes nothing of the bank but [first_pass]
    itself, the output and [self.pc]: the blocks, the recorded branch
    targets and the instruction starts are those it was given. *)
Theorem second_pass_only_writes (rom : ROM) (b : Bank)
    (rom' : ROM) (b' : Bank) (text : string) :
  disassemble rom b false = Some (rom', b', text) →
  b' = set_output (output b') (set_pc (pc b') (set_first_pass false b)).
Proof.
  unfold disassemble. cbn [mbind option_bind]. intros H.
  destruct (disassemble_blocks _ _ _) as [[rom2 b2]|] eqn:Hblocks; [|done].
  cbn [mbind option_bind] in H. injection H as <- <- <-.
  apply disassemble_blocks_effect in Hblocks as (_ & _ & Hro & _).
  rewrite (Hro eq_refl) at 1. by destruct b.
Qed.

Lemma disassemble_output_layout_witness :
  join newline two_region_output
  = join newline (output (set_output two_region_output (set_pc 5 two_region_bank)))
  ∧ (∃ lines, output (set_output two_region_output (set_pc 5 two_region_bank))
              = section_header (bank_number two_region_bank) :: "" :: lines)
  ∧ last (output (set_output two_region_output (set_pc 5 two_region_bank))) = Some ""
  ∧ same_image two_region_rom two_region_rom
  ∧ (has_ld_long two_region_rom = true → has_ld_long two_region_rom = true)
  ∧ bank_number (set_output two_region_output (set_pc 5 two_region_bank))
    = bank_number two_region_bank
  ∧ labelled_addresses (set_output two_region_output (set_pc 5 two_region_bank))
    = labelled_addresses two_region_bank
  ∧ memory_base_address (set_output two_region_output (set_pc 5 two_region_bank))
    = memory_base_address two_region_bank
  ∧ rom_base_address (set_output two_region_output (set_pc 5 two_region_bank))
    = rom_base_address two_region_bank
  ∧ first_pass (set_output two_region_output (set_pc 5 two_region_bank)) = false.
Proof.
  apply (disassemble_output_layout two_region_rom two_region_bank false
           two_region_rom (set_output two_region_output (set_pc 5 two_region_bank))
           (join newline two_region_output)).
  by vm_compute.
Defined.

Lemma second_pass_only_writes_witness :
  set_output two_region_output (set_pc 5 two_region_bank)
  = set_output (output (set_output two_region_output (set_pc 5 two_region_bank)))
      (set_pc (pc (set_output two_region_output (set_pc 5 two_region_bank)))
         (set_first_pass false two_region_bank)).
Proof.
  apply (second_pass_only_writes two_region_rom two_region_bank two_region_rom
           (set_output two_region_output (set_pc 5 two_region_bank))
           (join newline two_region_output)).
  by vm_compute.
Defined.

(** ** What resolving keeps of the hints *)

Lemma resolve_loop_hints blks base : ∀ starts R,
  StronglySorted Z.lt starts →
  (∀ k, k ∈ starts → ∃ blk, blks !! k = Some blk ∧ 0 < blk_length blk) →
  (∀ k s, is_Some (R !! k) → s ∈ starts → k < s) →
  ∃ R', resolve_loop blks base starts R = Some R'
    ∧ (∀ k blk, k ∈ starts → blks !! k = Some blk →
         ∃ blk', R' !! k = Some blk' ∧ blk_type blk' = blk_type blk
                 ∧ 0 < blk_length blk' ≤ blk_length blk)
    ∧ (∀ k v, R !! k = Some v → R' !! k = Some v)
    ∧ (∀ k v, R' !! k = Some v → k ∈ starts ∨ R !! k = Some v ∨ blk_type v = Code).
Proof.
  induction starts as [|start rest IH]; intros R Hsorted Hblks Hkeys.
  { exists R. simpl. split; [done|]. split; [by intros k blk Hk%elem_of_nil|].
    split; [done|]. intros k v Hv. by right; left. }
  destruct (Hblks start) as (blk & Hblk & Hpos); [by left|].
  apply StronglySorted_inv in Hsorted as [Hsorted Hall].
  assert (Hbelow : ∀ k v, R !! k = Some v → k < start).
  { intros k v Hv. apply (Hkeys k start); [by eexists|by left]. }
  destruct rest as [|next rest'].
  - simpl. rewrite Hblk. simpl.
    match goal with |- ∃ R', Some ?R2 = Some R' ∧ _ => exists R2 end.
    split; [done|].
    replace (start + blk_length blk - start) with (blk_length blk) by lia.
    destruct (negb _).
    + split; [|split].
      * intros k blk0 Hk Hblk0. apply list_elem_of_singleton in Hk as ->.
        rewrite Hblk in Hblk0. injection Hblk0 as <-.
        exists (mkBlock (blk_type blk) (blk_length blk)).
        rewrite lookup_insert_ne by lia. rewrite lookup_insert_eq.
        simpl. split; [done|]. split; [done|lia].
      * intros k v Hv. pose proof (Hbelow _ _ Hv).
        rewrite !lookup_insert_ne by lia. done.
      * intros k v. rewrite !lookup_insert_Some.
        intros [[<- <-]|[? [[<- <-]|[? ?]]]];
          [by right; right|by left; left|by right; left].
    + split; [|split].
      * intros k blk0 Hk Hblk0. apply list_elem_of_singleton in Hk as ->.
        rewrite Hblk in Hblk0. injection Hblk0 as <-.
        exists (mkBlock (blk_type blk) (blk_length blk)).
        rewrite lookup_insert_eq. simpl. split; [done|]. split; [done|lia].
      * intros k v Hv. pose proof (Hbelow _ _ Hv).
        rewrite !lookup_insert_ne by lia. done.
      * intros k v. rewrite !lookup_insert_Some.
        intros [[<- <-]|[? ?]]; [by left; left|by right; left].
  - assert (Hnext : start < next) by (by inversion Hall).
    rewrite (resolve_loop_step _ _ _ next _ _ blk) by done. cbv zeta.
    set (e := if next <? start + blk_length blk then next else start + blk_length blk).
    assert (He : start < e ≤ start + blk_length blk ∧ e ≤ next).
    { unfold e. destruct (Z.ltb_spec next (start + blk_length blk)); lia. }
    set (R2 := if e <? next
               then <[e := mkBlock Code (next - e)]>
                      (<[start := mkBlock (blk_type blk) (e - start)]> R)
               else <[start := mkBlock (blk_type blk) (e - start)]> R).
    assert (F1 : R2 !! start = Some (mkBlock (blk_type blk) (e - start))).
    { unfold R2. destruct (e <? next).
      - rewrite lookup_insert_ne by lia. by rewrite lookup_insert_eq.
      - by rewrite lookup_insert_eq. }
    assert (F2 : ∀ k v, R !! k = Some v → R2 !! k = Some v).
    { intros k v Hv. pose proof (Hbelow _ _ Hv). unfold R2.
      destruct (e <? next); rewrite !lookup_insert_ne by lia; done. }
    assert (F3 : ∀ k v, R2 !! k = Some v →
                 k = start ∨ R !! k = Some v ∨ (blk_type v = Code ∧ k < next)).
    { intros k v. unfold R2. destruct (Z.ltb_spec e next); rewrite !lookup_insert_Some.
      - intros [[<- <-]|[? [[<- <-]|[? ?]]]]; [right; right; split; [done|lia]|by left|by right; left].
      - intros [[<- <-]|[? ?]]; [by left|by right; left]. }
    destruct (IH R2) as (R' & -> & Hh & Hold & Hnew); [done| |  |].
    { intros k Hk. apply Hblks. by right. }
    { intros k s [v Hv] Hs.
      assert (next ≤ s).
      { apply elem_of_cons in Hs as [->|Hs]; [lia|].
        apply StronglySorted_inv in Hsorted as [_ Hall'].
        rewrite Forall_forall in Hall'. specialize (Hall' _ Hs). lia. }
      destruct (F3 _ _ Hv) as [->|[HR|[_ ?]]]; [lia| |lia].
      pose proof (Hbelow _ _ HR). lia. }
    exists R'. split; [done|]. split; [|split].
    + intros k blk0 Hk Hblk0. apply elem_of_cons in Hk as [->|Hk]; [|by apply Hh].
      rewrite Hblk in Hblk0. injection Hblk0 as <-.
      exists (mkBlock (blk_type blk) (e - start)). split; [by apply Hold|].
      simpl. split; [done|lia].
    + intros k v Hv. by apply Hold, F2.
    + intros k v Hv. destruct (Hnew _ _ Hv) as [Hk|[H2|Hc]].
      * left. by right.
      * destruct (F3 _ _ H2) as [->|[HR|[Hc _]]];
          [left; by left|by right; left|by right; right].
      * by right; right.
Qed.

Lemma resolve_loop_is_Some blks base : ∀ starts R,
  (∀ k, k ∈ starts → is_Some (blks !! k)) →
  is_Some (resolve_loop blks base starts R).
Proof.
  induction starts as [|start rest IH]; intros R Hkeys; [by eexists|].
  destruct (Hkeys start) as [blk Hblk]; [by left|].
  cbn [resolve_loop]. rewrite Hblk. apply IH. intros k Hk. apply Hkeys. by right.
Qed.

(** X19: resolving keeps the hints. [resolve_blocks] never raises,
    whatever the recorded blocks are. When every recorded block has a
    positive length, each comes out of [resolve_blocks] at the same start
    address and with the same type, its length positive and at most the
    recorded one (it is only ever cut short, at the start of the next
    block); and every region that [resolve_blocks] adds is a code region. *)
Theorem resolve_blocks_keeps_hints (b : Bank) :
  ∃ b', resolve_blocks b = Some b'
    ∧ ((∀ k blk, blocks b !! k = Some blk → 0 < blk_length blk) →
       (∀ k blk, blocks b !! k = Some blk →
          ∃ blk', blocks b' !! k = Some blk' ∧ blk_type blk' = blk_type blk
                  ∧ 0 < blk_length blk' ≤ blk_length blk)
       ∧ (∀ k blk', blocks b' !! k = Some blk' → blocks b !! k = None →
            blk_type blk' = Code)).
Proof.
  destruct (resolve_loop_is_Some (blocks b) (memory_base_address b)
              (sorted_keys (blocks b)) ∅) as [R' Hloop].
  { intros k Hk. by apply elem_of_sorted_keys. }
  exists (set_blocks R' b). unfold resolve_blocks. rewrite Hloop. simpl.
  split; [done|]. intros Hpos.
  destruct (resolve_loop_hints (blocks b) (memory_base_address b)
              (sorted_keys (blocks b)) ∅) as (R'' & Hloop' & Hh & _ & Hnew).
  - apply sorted_keys_sorted.
  - intros k [blk Hblk]%elem_of_sorted_keys. exists blk. split; [done|]. by eapply Hpos.
  - intros k s [v Hv]. by rewrite lookup_empty in Hv.
  - rewrite Hloop in Hloop'. injection Hloop' as <-. split.
    + intros k blk Hblk. apply Hh; [|done]. apply elem_of_sorted_keys. by eexists.
    + intros k v Hv Hnone. destruct (Hnew _ _ Hv) as [Hk|[He|Hc]]; [| |done].
      * apply elem_of_sorted_keys in Hk as [? Hk]. by rewrite Hnone in Hk.
      * by rewrite lookup_empty in He.
Qed.

Lemma resolve_blocks_keeps_hints_witness :
  ∃ b', resolve_blocks
          (add_blocks (Bank_init 1) [(0x4000, Data, 0x10); (0x4008, Text, 0x10)])
        = Some b'
    ∧ (∀ k blk,
         blocks (add_blocks (Bank_init 1) [(0x4000, Data, 0x10); (0x4008, Text, 0x10)])
           !! k = Some blk →
         ∃ blk', blocks b' !! k = Some blk' ∧ blk_type blk' = blk_type blk
                 ∧ 0 < blk_length blk' ≤ blk_length blk)
    ∧ (∀ k blk', blocks b' !! k = Some blk' →
         blocks (add_blocks (Bank_init 1) [(0x4000, Data, 0x10); (0x4008, Text, 0x10)])
           !! k = None →
         blk_type blk' = Code).
Proof.
  destruct (resolve_blocks_keeps_hints
              (add_blocks (Bank_init 1) [(0x4000, Data, 0x10); (0x4008, Text, 0x10)]))
    as (b' & Hresolve & Hkeeps).
  exists b'. split; [exact Hresolve|]. apply Hkeeps.
  intros k blk. cbn [add_blocks foldl].
  rewrite !add_block_lookup, !add_block_base, Bank_init_blocks, Bank_init_base.
  simpl. repeat case_decide.
  - intros [= <-]. simpl. lia.
  - intros [= <-]. simpl. lia.
  - intros [<- <-]%lookup_singleton_Some. simpl. lia.
Defined.

(** ** Symbol definitions *)

Lemma explicit_label_line_is_Some label :
  label ≠ "" → ∃ line, explicit_label_line label = Some line.
Proof. destruct label; [done|]. by eexists. Qed.

(** X20: a label below [0x8000] belongs to one bank. For such an address
    the label part of [ROM.add_symbol_definition] raises when the ROM has
    no bank of the given number; otherwise it changes that bank only, and
    there only the label of that address: both label lookups of the bank
    now give the one line of the new label at the address, in place of any
    generated label, and what they gave at every other address. *)
Theorem rom_symbol_label_is_bank_local (rom : ROM) (bank address : Z)
    (label : string) :
  address < 0x8000 → label ≠ "" →
  match banks rom !! bank with
  | None => add_symbol_label rom bank address label = None
  | Some b =>
      ∃ rom' line,
        add_symbol_label rom bank address label = Some rom'
        ∧ banks rom' !! bank = Some (with_label address label b)
        ∧ (∀ k, k ≠ bank → banks rom' !! k = banks rom !! k)
        ∧ explicit_label_line label = Some line
        ∧ get_labels_for_address (with_label address label b) address = Some [line]
        ∧ get_labels_for_non_code_address (with_label address label b) address
          = Some [line]
        ∧ (∀ a, a ≠ address →
             get_labels_for_address (with_label address label b) a
             = get_labels_for_address b a
             ∧ get_labels_for_non_code_address (with_label address label b) a
               = get_labels_for_non_code_address b a)
  end.
Proof.
  intros Hlow Hlabel. unfold add_symbol_label.
  destruct (Z.geb_spec address 0x8000) as [?|_]; [lia|].
  destruct (banks rom !! bank) as [b|]; [|done]. cbn [mbind option_bind].
  destruct (explicit_label_line_is_Some label Hlabel) as [line Hline].
  eexists _, line. split; [done|]. simpl.
  split; [by rewrite lookup_insert_eq|].
  split; [by intros k Hk; rewrite lookup_insert_ne|]. split; [done|].
  unfold get_labels_for_address, get_labels_for_non_code_address.
  change (labelled_addresses (with_label address label b))
    with (<[address := label]> (labelled_addresses b)).
  rewrite lookup_insert_eq, Hline. split; [done|]. split; [done|].
  intros a Ha. rewrite lookup_insert_ne by done. split; [|done].
  destruct (labelled_addresses b !! a); [done|]. apply generated_labels_with_label.
Qed.

Lemma rom_symbol_label_is_bank_local_witness :
  match banks (set_banks (<[0 := Bank_init 0]> (<[1 := Bank_init 1]> ∅))
                 (sample_rom [0x00; 0x00; 0x00])) !! 1 with
  | None =>
      add_symbol_label (set_banks (<[0 := Bank_init 0]> (<[1 := Bank_init 1]> ∅))
                          (sample_rom [0x00; 0x00; 0x00])) 1 0x4100 "Main"
      = None
  | Some b =>
      ∃ rom' line,
        add_symbol_label (set_banks (<[0 := Bank_init 0]> (<[1 := Bank_init 1]> ∅))
                            (sample_rom [0x00; 0x00; 0x00])) 1 0x4100 "Main"
        = Some rom'
        ∧ banks rom' !! 1 = Some (with_label 0x4100 "Main" b)
        ∧ (∀ k, k ≠ 1 →
             banks rom' !! k
             = banks (set_banks (<[0 := Bank_init 0]> (<[1 := Bank_init 1]> ∅))
                        (sample_rom [0x00; 0x00; 0x00])) !! k)
        ∧ explicit_label_line "Main" = Some line
        ∧ get_labels_for_address (with_label 0x4100 "Main" b) 0x4100 = Some [line]
        ∧ get_labels_for_non_code_address (with_label 0x4100 "Main" b) 0x4100
          = Some [line]
        ∧ (∀ a, a ≠ 0x4100 →
             get_labels_for_address (with_label 0x4100 "Main" b) a
             = get_labels_for_address b a
             ∧ get_labels_for_non_code_address (with_label 0x4100 "Main" b) a
               = get_labels_for_non_code_address b a)
  end.
Proof.
  apply (rom_symbol_label_is_bank_local
           (set_banks (<[0 := Bank_init 0]> (<[1 := Bank_init 1]> ∅))
              (sample_rom [0x00; 0x00; 0x00])) 1 0x4100 "Main"); [lia|done].
Defined.

(** X21: a label from [0x8000] on reaches every bank. For such an address
    the label part of [ROM.add_symbol_definition] never raises and ignores
    the bank number of the definition: whatever the number, also one that
    the ROM has no bank for, every bank of the ROM gets the label at the
    address, and no bank is added. *)
Theorem ram_symbol_label_reaches_every_bank (rom : ROM) (bank address : Z)
    (label : string) :
  0x8000 ≤ address →
  ∃ rom',
    (∀ bank', add_symbol_label rom bank' address label = Some rom')
    ∧ add_symbol_label rom bank address label = Some rom'
    ∧ (∀ k, banks rom' !! k = with_label address label <$> banks rom !! k)
    ∧ (∀ k b', banks rom' !! k = Some b' →
         labelled_addresses b' !! address = Some label).
Proof.
  intros Hhigh. unfold add_symbol_label.
  destruct (Z.geb_spec address 0x8000) as [_|?]; [|lia].
  eexists. split; [done|]. split; [done|]. simpl. split.
  - intros k. by rewrite lookup_fmap.
  - intros k b'. rewrite lookup_fmap.
    destruct (banks rom !! k) as [b|]; [|done]. intros [= <-]. simpl.
    by rewrite lookup_insert_eq.
Qed.

Lemma ram_symbol_label_reaches_every_bank_witness :
  ∃ rom',
    (∀ bank',
       add_symbol_label (set_banks (<[0 := Bank_init 0]> (<[1 := Bank_init 1]> ∅))
                           (sample_rom [0x00; 0x00; 0x00])) bank' 0xC100 "wCounter"
       = Some rom')
    ∧ add_symbol_label (set_banks (<[0 := Bank_init 0]> (<[1 := Bank_init 1]> ∅))
                          (sample_rom [0x00; 0x00; 0x00])) 7 0xC100 "wCounter"
      = Some rom'
    ∧ (∀ k, banks rom' !! k
            = with_label 0xC100 "wCounter"
                <$> banks (set_banks (<[0 := Bank_init 0]> (<[1 := Bank_init 1]> ∅))
                             (sample_rom [0x00; 0x00; 0x00])) !! k)
    ∧ (∀ k b', banks rom' !! k = Some b' →
         labelled_addresses b' !! 0xC100 = Some "wCounter").
Proof.
  apply (ram_symbol_label_reaches_every_bank
           (set_banks (<[0 := Bank_init 0]> (<[1 := Bank_init 1]> ∅))
              (sample_rom [0x00; 0x00; 0x00])) 7 0xC100 "wCounter").
  lia.
Defined.
